(** * agar: PCM fixture generation and sample comparison

    A shallow embedding of the PCM helpers of package [agar]
    ([PCMBytesPerSample], [GenerateWhiteNoise], [CompareLosslessSamples],
    [CompareLossySamples], [ShowDiffs], [MonoToStereo]), of its format
    lookups ([RawPCMFormat], [RawPCMCodec]) and of its benchmark helpers
    ([WithDefaults], [ComputeResult], [formatLabel]), together with the
    properties stated about them.

    Conventions of the embedding:
    - Go's [int] is taken at its 64-bit width; every [int] operation is
      followed by its two's-complement wrap-around ([GoInt.wrap]).
    - [uint64], [int32], [int16], [int8] values are integers of [Z] kept
      in range by the wrap-around of their width.
    - a [[]byte] is a [list byte] whose capacity is its length; [len] is
      the length as an integer.
    - a run-time panic (index out of range, negative [make], division by
      zero) is the result [Panic]; a loop that is cut by the fuel of the
      model is [OutOfFuel].
    - [*testing.T] is the record [T]: the [failed] flag and the messages
      written so far.  Messages keep their integer and byte arguments; the
      percentages printed with [%.2f] are not part of the model, and
      neither is [t.Helper()], which only changes the line a message is
      attributed to. *)

From Stdlib Require Import ZArith List Lia Bool Ascii String.
From Stdlib Require Import Init.Byte Strings.Byte.
From stdpp Require Import base list strings pretty sorting.

Local Open Scope Z_scope.

(** ** Results of a run *)

Inductive result (A : Type) : Type :=
| Ok (a : A)
| Panic
| OutOfFuel.

Arguments Ok {A} a.
Arguments Panic {A}.
Arguments OutOfFuel {A}.

Definition bind_result {A B : Type} (r : result A) (k : A -> result B) : result B :=
  match r with
  | Ok a => k a
  | Panic => Panic
  | OutOfFuel => OutOfFuel
  end.

Notation "'let*' x ':=' r 'in' k" := (bind_result r (fun x => k))
  (at level 10, x name, r at level 100, k at level 200).

(** ** Machine integers *)

Module GoInt.

(** Two's-complement value of the low [w] bits of [x]. *)
Definition swrap (w x : Z) : Z := (x + 2 ^ (w - 1)) mod 2 ^ w - 2 ^ (w - 1).

(** Unsigned value of the low [w] bits of [x]. *)
Definition uwrap (w x : Z) : Z := x mod 2 ^ w.

Definition wrap (x : Z) : Z := swrap 64 x.

Definition maxInt : Z := 2 ^ 63 - 1.
Definition minInt : Z := - 2 ^ 63.

Definition add (a b : Z) : Z := wrap (a + b).
Definition sub (a b : Z) : Z := wrap (a - b).
Definition mul (a b : Z) : Z := wrap (a * b).
Definition neg (a : Z) : Z := wrap (- a).

(** Integer division truncates toward zero and panics on a zero divisor. *)
Definition div (a b : Z) : result Z :=
  if b =? 0 then Panic else Ok (wrap (Z.quot a b)).

(** Division by a constant that is not zero. *)
Definition quot (a b : Z) : Z := wrap (Z.quot a b).

End GoInt.

Module U64.
Definition shl (x n : Z) : Z := GoInt.uwrap 64 (Z.shiftl x n).
Definition shr (x n : Z) : Z := Z.shiftr x n.
Definition xor (x y : Z) : Z := Z.lxor x y.
Definition sub (x y : Z) : Z := GoInt.uwrap 64 (x - y).
Definition rem (x y : Z) : Z := x mod y.
End U64.

Module Int16.
Definition sub (a b : Z) : Z := GoInt.swrap 16 (a - b).
Definition neg (a : Z) : Z := GoInt.swrap 16 (- a).
End Int16.

(** Conversions between integer types keep the low bits. *)
Definition int8 (x : Z) : Z := GoInt.swrap 8 x.
Definition int16 (x : Z) : Z := GoInt.swrap 16 x.
Definition int32 (x : Z) : Z := GoInt.swrap 32 x.
Definition uint16 (x : Z) : Z := GoInt.uwrap 16 x.
Definition uint32 (x : Z) : Z := GoInt.uwrap 32 x.

(** ** Bytes and slices *)

Definition byte_of_Z (x : Z) : byte :=
  match Byte.of_N (Z.to_N (x mod 256)) with
  | Some b => b
  | None => x00
  end.

Definition Z_of_byte (b : byte) : Z := Z.of_N (Byte.to_N b).

(** A byte read as a signed 8-bit integer. *)
Definition signed_byte (b : byte) : Z := int8 (Z_of_byte b).

Definition len {A : Type} (s : list A) : Z := Z.of_nat (length s).

(** [make([]byte, n)] *)
Definition make (n : Z) : result (list byte) :=
  if n <? 0 then Panic else Ok (replicate (Z.to_nat n) x00).

(** [s[i]] *)
Definition index (s : list byte) (i : Z) : result byte :=
  if (0 <=? i) && (i <? len s) then
    match s !! Z.to_nat i with
    | Some b => Ok b
    | None => Panic
    end
  else Panic.

(** [s[i] = x] *)
Definition store (s : list byte) (i : Z) (x : byte) : result (list byte) :=
  if (0 <=? i) && (i <? len s) then Ok (<[Z.to_nat i := x]> s) else Panic.

(** [s[lo:hi]], for a slice whose capacity is its length. *)
Definition slice (s : list byte) (lo hi : Z) : result (list byte) :=
  if (0 <=? lo) && (lo <=? hi) && (hi <=? len s)
  then Ok (take (Z.to_nat (hi - lo)) (drop (Z.to_nat lo) s))
  else Panic.

(** [s[lo:]] *)
Definition slice_from (s : list byte) (lo : Z) : result (list byte) :=
  slice s lo (len s).

(** [binary.LittleEndian.PutUint16(s[off:], v)]: the slice expression and
    the bounds check [_ = b[1]] come first, then the two stores. *)
Definition PutUint16 (s : list byte) (off : Z) (v : Z) : result (list byte) :=
  if (0 <=? off) && (off + 1 <? len s) then
    let* s1 := store s off (byte_of_Z v) in
    store s1 (off + 1) (byte_of_Z (Z.shiftr v 8))
  else Panic.

(** [binary.LittleEndian.PutUint32(s[off:], v)] *)
Definition PutUint32 (s : list byte) (off : Z) (v : Z) : result (list byte) :=
  if (0 <=? off) && (off + 3 <? len s) then
    let* s1 := store s off (byte_of_Z v) in
    let* s2 := store s1 (off + 1) (byte_of_Z (Z.shiftr v 8)) in
    let* s3 := store s2 (off + 2) (byte_of_Z (Z.shiftr v 16)) in
    store s3 (off + 3) (byte_of_Z (Z.shiftr v 24))
  else Panic.

(** [binary.LittleEndian.Uint16(s[off:])] *)
Definition Uint16 (s : list byte) (off : Z) : result Z :=
  if (0 <=? off) && (off + 1 <? len s) then
    let* b0 := index s off in
    let* b1 := index s (off + 1) in
    Ok (Z.lor (Z_of_byte b0) (Z.shiftl (Z_of_byte b1) 8))
  else Panic.

(** ** Constants *)

Definition BitDepth4 : Z := 4.
Definition BitDepth8 : Z := 8.
Definition BitDepth12 : Z := 12.
Definition BitDepth16 : Z := 16.
Definition BitDepth20 : Z := 20.
Definition BitDepth24 : Z := 24.
Definition BitDepth32 : Z := 32.

(** Modelled from the spec: the constant [bitsPerByte] is declared in a
    file of the package that is not among the sources; the fallback of
    the bytes-per-sample mapping is described as [bitDepth / 8]. *)
Definition bitsPerByte : Z := 8.

Definition xorshiftSeed : Z := 0x12345678.
Definition xorshiftShiftA : Z := 13.
Definition xorshiftShiftB : Z := 7.
Definition xorshiftShiftC : Z := 17.

Definition defaultMaxDiffSamples : Z := 5.
Definition lossyLargeDiffPct : Z := 100.

(** ** PCMBytesPerSample *)

Definition PCMBytesPerSample (bitDepth : Z) : Z :=
  if (bitDepth =? BitDepth4) || (bitDepth =? BitDepth8) then 1
  else if (bitDepth =? BitDepth12) || (bitDepth =? BitDepth16) then 2
  else if (bitDepth =? BitDepth20) || (bitDepth =? BitDepth24) then 3
  else if bitDepth =? BitDepth32 then 4
  else Z.quot bitDepth bitsPerByte.

(** The bit depths of the enumerated set. *)
Definition enumerated (bitDepth : Z) : Prop :=
  In bitDepth [BitDepth4; BitDepth8; BitDepth12; BitDepth16;
               BitDepth20; BitDepth24; BitDepth32].

(** ** GenerateWhiteNoise *)

(** One round of the generator: the three shift-and-xor updates of [seed]. *)
Definition xorshift (seed : Z) : Z :=
  let seed := U64.xor seed (U64.shl seed xorshiftShiftA) in
  let seed := U64.xor seed (U64.shr seed xorshiftShiftB) in
  let seed := U64.xor seed (U64.shl seed xorshiftShiftC) in
  seed.

(** The body of the [switch bitDepth] of the loop. *)
Definition write_sample (bitDepth seed : Z) (buf : list byte) (offset : Z)
  : result (list byte) :=
  if bitDepth =? BitDepth4 then
    store buf offset (byte_of_Z (int8 (U64.sub (U64.rem seed 14) 7)))
  else if bitDepth =? BitDepth8 then
    store buf offset (byte_of_Z (int8 (U64.sub (U64.rem seed 240) 120)))
  else if bitDepth =? BitDepth12 then
    let val := int16 (U64.sub (U64.rem seed 4000) 2000) in
    PutUint16 buf offset (uint16 val)
  else if bitDepth =? BitDepth16 then
    let val := int16 (U64.sub (U64.rem seed 60000) 30000) in
    PutUint16 buf offset (uint16 val)
  else if bitDepth =? BitDepth20 then
    let val := int32 (U64.sub (U64.rem seed 1000000) 500000) in
    let* b1 := store buf offset (byte_of_Z val) in
    let* b2 := store b1 (GoInt.add offset 1) (byte_of_Z (Z.shiftr val bitsPerByte)) in
    store b2 (GoInt.add offset 2) (byte_of_Z (Z.shiftr val (2 * bitsPerByte)))
  else if bitDepth =? BitDepth24 then
    let val := int32 (U64.sub (U64.rem seed 14000000) 7000000) in
    let* b1 := store buf offset (byte_of_Z val) in
    let* b2 := store b1 (GoInt.add offset 1) (byte_of_Z (Z.shiftr val bitsPerByte)) in
    store b2 (GoInt.add offset 2) (byte_of_Z (Z.shiftr val (2 * bitsPerByte)))
  else if bitDepth =? BitDepth32 then
    let val := int32 (U64.sub (U64.rem seed 1800000000) 900000000) in
    PutUint32 buf offset (uint32 val)
  else Ok buf.

(** [for sampleIdx := range numSamples]: [n] iterations are left, the
    next one has index [sampleIdx]. *)
Fixpoint noise_loop (n : nat) (sampleIdx bitDepth bytesPerSample seed : Z)
    (buf : list byte) : result (list byte) :=
  match n with
  | O => Ok buf
  | S n' =>
      let seed := xorshift seed in
      let offset := GoInt.mul sampleIdx bytesPerSample in
      let* buf' := write_sample bitDepth seed buf offset in
      noise_loop n' (sampleIdx + 1) bitDepth bytesPerSample seed buf'
  end.

Definition GenerateWhiteNoise (sampleRate bitDepth channels durationSec : Z)
  : result (list byte) :=
  let numSamples := GoInt.mul (GoInt.mul sampleRate durationSec) channels in
  let bytesPerSample := PCMBytesPerSample bitDepth in
  let* buf := make (GoInt.mul numSamples bytesPerSample) in
  noise_loop (Z.to_nat numSamples) 0 bitDepth bytesPerSample xorshiftSeed buf.

(** ** The test handle *)

(** What [Errorf] and [Logf] print, with the arguments of the format. *)
Inductive message : Type :=
| UnsupportedBitDepth (bitDepth : Z)
| LengthMismatch (lenA lenB lengthDiff maxLengthDiffBytes : Z)
| LengthDiffTolerated (lenA lenB lengthDiff : Z)
| LossyMismatch (largeDiffs numSamples maxDiffPerSample maxDiff : Z)
| PCMMismatch (label : string) (differences minLen firstDiff sampleIndex : Z)
| FrameDiff (label : string) (sampleIdx : Z) (expectedFrame actualFrame : list byte).

Record T : Type := mkT { failed : bool; output : list message }.

Definition newT : T := mkT false [].

(** A computation on a test handle: its result and the handle afterwards.
    The handle is kept when the computation panics, so that what was
    reported before the panic can still be read. *)
Definition test (A : Type) : Type := T -> result A * T.

Definition ret {A : Type} (a : A) : test A := fun t => (Ok a, t).

Definition bind {A B : Type} (m : test A) (k : A -> test B) : test B :=
  fun t =>
    match m t with
    | (Ok a, t') => k a t'
    | (Panic, t') => (Panic, t')
    | (OutOfFuel, t') => (OutOfFuel, t')
    end.

Definition lift {A : Type} (r : result A) : test A := fun t => (r, t).

Notation "'do' x '<-' m ';' k" := (bind m (fun x => k))
  (at level 10, x name, m at level 100, k at level 200).
Notation "'do' ''(' x ',' y ')' '<-' m ';' k" := (bind m (fun '(x, y) => k))
  (at level 10, x name, y name, m at level 100, k at level 200).
Notation "m ';;' k" := (bind m (fun _ => k))
  (at level 100, k at level 200, right associativity).

(** [t.Errorf]: the message is written and the test is marked as failed. *)
Definition Errorf (m : message) : test unit :=
  fun t => (Ok tt, mkT true (output t ++ [m])).

(** [t.Logf]: the message is written. *)
Definition Logf (m : message) : test unit :=
  fun t => (Ok tt, mkT (failed t) (output t ++ [m])).

(** [bytes.Equal] *)
Fixpoint bytes_Equal (a b : list byte) : bool :=
  match a, b with
  | [], [] => true
  | x :: a', y :: b' => Byte.eqb x y && bytes_Equal a' b'
  | _, _ => false
  end.

(** ** ShowDiffs *)

(** The [for] loop of [ShowDiffs], entered at [idx] with [shown] frames
    printed so far. *)
Fixpoint show_loop (fuel : nat) (label : string) (expected actual : list byte)
    (frameSize maxDiffs idx shown : Z) : test unit :=
  match fuel with
  | O => lift OutOfFuel
  | S fuel' =>
      if (idx <? GoInt.sub (Z.min (len expected) (len actual)) frameSize)
         && (shown <? maxDiffs)
      then
        do expectedFrame <- lift (slice expected idx (GoInt.add idx frameSize));
        do actualFrame <- lift (slice actual idx (GoInt.add idx frameSize));
        do shown' <-
          (if negb (bytes_Equal expectedFrame actualFrame) then
             do sampleIdx <- lift (GoInt.div idx frameSize);
             Logf (FrameDiff label sampleIdx expectedFrame actualFrame) ;;
             ret (GoInt.add shown 1)
           else ret shown);
        show_loop fuel' label expected actual frameSize maxDiffs
                  (GoInt.add idx frameSize) shown'
      else ret tt
  end.

Definition ShowDiffs (fuel : nat) (label : string) (expected actual : list byte)
    (bitDepth channels maxDiffs : Z) : test unit :=
  let bytesPerSample := PCMBytesPerSample bitDepth in
  let frameSize := GoInt.mul bytesPerSample channels in
  show_loop fuel label expected actual frameSize maxDiffs 0 0.

(** ** CompareLosslessSamples *)

(** [for idx := range minLen]: [n] iterations are left. *)
Fixpoint lossless_loop (n : nat) (idx : Z) (expected actual : list byte)
    (differences firstDiff : Z) : result (Z * Z) :=
  match n with
  | O => Ok (differences, firstDiff)
  | S n' =>
      let* e := index expected idx in
      let* a := index actual idx in
      if negb (Byte.eqb e a) then
        lossless_loop n' (idx + 1) expected actual
          (GoInt.add differences 1)
          (if firstDiff =? -1 then idx else firstDiff)
      else
        lossless_loop n' (idx + 1) expected actual differences firstDiff
  end.

Definition CompareLosslessSamples (fuel : nat) (label : string)
    (expected actual : list byte) (bitDepth channels : Z) : test unit :=
  let minLen := Z.min (len expected) (len actual) in
  do '(differences, firstDiff) <-
    lift (lossless_loop (Z.to_nat minLen) 0 expected actual 0 (-1));
  if differences >? 0 then
    let bytesPerSample := PCMBytesPerSample bitDepth in
    do q <- lift (GoInt.div firstDiff bytesPerSample);
    do sampleIndex <- lift (GoInt.div q channels);
    Errorf (PCMMismatch label differences minLen firstDiff sampleIndex) ;;
    ShowDiffs fuel label expected actual bitDepth channels defaultMaxDiffSamples
  else ret tt.

(** ** CompareLossySamples *)

Definition samplesPerFrame : Z := 1152.
Definition maxDiffPerSample : Z := 2.

(** The absolute difference of two samples as the loop computes it, in
    16-bit arithmetic. *)
Definition sample_diff (sampleA sampleB : Z) : Z :=
  let diff := Int16.sub sampleA sampleB in
  if diff <? 0 then Int16.neg diff else diff.

(** [for idx := range numSamples]: [n] iterations are left. *)
Fixpoint lossy_loop (n : nat) (idx : Z) (pcmA pcmB : list byte)
    (largeDiffs maxDiff : Z) : result (Z * Z) :=
  match n with
  | O => Ok (largeDiffs, maxDiff)
  | S n' =>
      let* ua := Uint16 pcmA (GoInt.mul idx 2) in
      let sampleA := int16 ua in
      let* ub := Uint16 pcmB (GoInt.mul idx 2) in
      let sampleB := int16 ub in
      let diff := sample_diff sampleA sampleB in
      let largeDiffs :=
        if diff >? maxDiffPerSample then GoInt.add largeDiffs 1 else largeDiffs in
      let maxDiff := if diff >? maxDiff then diff else maxDiff in
      lossy_loop n' (idx + 1) pcmA pcmB largeDiffs maxDiff
  end.

Definition CompareLossySamples (fuel : nat) (pcmA pcmB : list byte)
    (bitDepth channels : Z) : test unit :=
  if negb (bitDepth =? BitDepth16) then
    Errorf (UnsupportedBitDepth bitDepth)
  else
    let maxLengthDiffBytes := GoInt.mul (GoInt.mul samplesPerFrame channels) 2 in
    let lengthDiff := GoInt.sub (len pcmA) (len pcmB) in
    let lengthDiff := if lengthDiff <? 0 then GoInt.neg lengthDiff else lengthDiff in
    if lengthDiff >? maxLengthDiffBytes then
      Errorf (LengthMismatch (len pcmA) (len pcmB) lengthDiff maxLengthDiffBytes)
    else
      (if lengthDiff >? 0
       then Logf (LengthDiffTolerated (len pcmA) (len pcmB) lengthDiff)
       else ret tt) ;;
      let numSamples := GoInt.quot (Z.min (len pcmA) (len pcmB)) 2 in
      do '(largeDiffs, maxDiff) <-
        lift (lossy_loop (Z.to_nat numSamples) 0 pcmA pcmB 0 0);
      let maxLargeDiffs := GoInt.quot numSamples lossyLargeDiffPct in
      if largeDiffs >? maxLargeDiffs then
        Errorf (LossyMismatch largeDiffs numSamples maxDiffPerSample maxDiff) ;;
        ShowDiffs fuel "lossy comparison" pcmA pcmB bitDepth channels
                  defaultMaxDiffSamples
      else ret tt.

(** ** MonoToStereo *)

(** [copy(dst[off:], src)]: as many bytes as fit are copied. *)
Definition copy_at (dst : list byte) (off : Z) (src : list byte)
  : result (list byte) :=
  if (0 <=? off) && (off <=? len dst) then
    let n := Nat.min (length dst - Z.to_nat off) (length src) in
    Ok (take (Z.to_nat off) dst ++ take n src ++ drop (Z.to_nat off + n) dst)
  else Panic.

(** [for idx := range numSamples]: [n] iterations are left. *)
Fixpoint stereo_loop (n : nat) (idx bps : Z) (mono stereo : list byte)
  : result (list byte) :=
  match n with
  | O => Ok stereo
  | S n' =>
      let* sample :=
        slice mono (GoInt.mul idx bps) (GoInt.mul (GoInt.add idx 1) bps) in
      let* s1 := copy_at stereo (GoInt.mul (GoInt.mul idx bps) 2) sample in
      let* s2 :=
        copy_at s1 (GoInt.add (GoInt.mul (GoInt.mul idx bps) 2) bps) sample in
      stereo_loop n' (idx + 1) bps mono s2
  end.

Definition MonoToStereo (mono : list byte) (bitDepth : Z) : result (list byte) :=
  let bps := PCMBytesPerSample bitDepth in
  let* numSamples := GoInt.div (len mono) bps in
  let* stereo := make (GoInt.mul (GoInt.mul numSamples bps) 2) in
  stereo_loop (Z.to_nat numSamples) 0 bps mono stereo.

(** ** Reading the messages *)

Definition is_frame_diff (m : message) : bool :=
  match m with FrameDiff _ _ _ _ => true | _ => false end.

Definition is_length_mismatch (m : message) : bool :=
  match m with LengthMismatch _ _ _ _ => true | _ => false end.

Definition is_lossy_mismatch (m : message) : bool :=
  match m with LossyMismatch _ _ _ _ => true | _ => false end.

(** [t'] is [t] with some frame reports added and nothing else changed. *)
Definition adds_frames (t t' : T) : Prop :=
  failed t' = failed t /\
  exists l, output t' = output t ++ l /\ forallb is_frame_diff l = true.

(** ** The bytes of a synthesized buffer *)

(** The bytes that one round of the loop of [GenerateWhiteNoise] stores
    for the generator state [seed], for the bit depths of the enumerated
    set. *)
Definition sample_bytes (bitDepth seed : Z) : list byte :=
  if bitDepth =? BitDepth4 then
    [byte_of_Z (int8 (U64.sub (U64.rem seed 14) 7))]
  else if bitDepth =? BitDepth8 then
    [byte_of_Z (int8 (U64.sub (U64.rem seed 240) 120))]
  else if bitDepth =? BitDepth12 then
    let v := uint16 (int16 (U64.sub (U64.rem seed 4000) 2000)) in
    [byte_of_Z v; byte_of_Z (Z.shiftr v 8)]
  else if bitDepth =? BitDepth16 then
    let v := uint16 (int16 (U64.sub (U64.rem seed 60000) 30000)) in
    [byte_of_Z v; byte_of_Z (Z.shiftr v 8)]
  else if bitDepth =? BitDepth20 then
    let val := int32 (U64.sub (U64.rem seed 1000000) 500000) in
    [byte_of_Z val; byte_of_Z (Z.shiftr val 8); byte_of_Z (Z.shiftr val 16)]
  else if bitDepth =? BitDepth24 then
    let val := int32 (U64.sub (U64.rem seed 14000000) 7000000) in
    [byte_of_Z val; byte_of_Z (Z.shiftr val 8); byte_of_Z (Z.shiftr val 16)]
  else if bitDepth =? BitDepth32 then
    let v := uint32 (int32 (U64.sub (U64.rem seed 1800000000) 900000000)) in
    [byte_of_Z v; byte_of_Z (Z.shiftr v 8); byte_of_Z (Z.shiftr v 16);
     byte_of_Z (Z.shiftr v 24)]
  else [].

(** The bytes of [n] consecutive samples, the generator being in state
    [seed] before the first of them. *)
Fixpoint noise_bytes (n : nat) (bitDepth seed : Z) : list byte :=
  match n with
  | O => []
  | S n' =>
      let seed := xorshift seed in
      sample_bytes bitDepth seed ++ noise_bytes n' bitDepth seed
  end.

(** The state of the generator after [k] rounds. *)
Definition seed_after (k : nat) : Z := Nat.iter k xorshift xorshiftSeed.

(** Sample [i] of a 16-bit buffer, read as a signed little-endian integer. *)
Definition sample16 (buf : list byte) (i : Z) : result Z :=
  let* u := Uint16 buf (2 * i) in Ok (int16 u).

(** Sample [i] of a one-byte-per-sample buffer, read as a signed byte. *)
Definition sample8 (buf : list byte) (i : Z) : result Z :=
  let* x := index buf i in Ok (signed_byte x).

(** ** Counting over an index range *)

(** Sample [i] of a 16-bit buffer, and 0 where the buffer has no such
    sample. *)
Definition sampleAt (buf : list byte) (i : Z) : Z :=
  match sample16 buf i with
  | Ok v => v
  | _ => 0
  end.

(** The number of indices among [idx, idx + 1, ..., idx + n - 1] that
    satisfy [p]. *)
Fixpoint count_where (p : Z -> bool) (idx : Z) (n : nat) : Z :=
  match n with
  | O => 0
  | S n' => (if p idx then 1 else 0) + count_where p (idx + 1) n'
  end.

(** The first index among [idx, ..., idx + n - 1] that satisfies [p],
    and -1 when there is none. *)
Fixpoint find_from (p : Z -> bool) (idx : Z) (n : nat) : Z :=
  match n with
  | O => -1
  | S n' => if p idx then idx else find_from p (idx + 1) n'
  end.

(** The bytes at index [i] of two buffers differ. *)
Definition differ_at (expected actual : list byte) (i : Z) : bool :=
  match index expected i, index actual i with
  | Ok x, Ok y => negb (Byte.eqb x y)
  | _, _ => false
  end.

(** The difference of sample [i] of two buffers as the lossy loop
    computes it, and as an exact integer. *)
Definition loop_diff (pcmA pcmB : list byte) (i : Z) : Z :=
  sample_diff (sampleAt pcmA i) (sampleAt pcmB i).

Definition exact_diff (pcmA pcmB : list byte) (i : Z) : Z :=
  Z.abs (sampleAt pcmA i - sampleAt pcmB i).

(** ** The bytes of an expanded buffer *)

(** The first [n] samples of [k] bytes of [mono], each one twice. *)
Fixpoint stereo_bytes (n k : nat) (mono : list byte) : list byte :=
  match n with
  | O => []
  | S n' => take k mono ++ take k mono ++ stereo_bytes n' k (drop k mono)
  end.

(** A frame report about a frame that ends before [minLen]. *)
Definition frame_before_end (frameSize minLen : Z) (m : message) : Prop :=
  match m with
  | FrameDiff _ sampleIdx _ _ => (sampleIdx + 1) * frameSize < minLen
  | _ => False
  end.

(** ** Reading wider samples *)

(** [binary.LittleEndian.Uint32(s[off:])] *)
Definition Uint32 (s : list byte) (off : Z) : result Z :=
  if (0 <=? off) && (off + 3 <? len s) then
    let* b0 := index s off in
    let* b1 := index s (off + 1) in
    let* b2 := index s (off + 2) in
    let* b3 := index s (off + 3) in
    Ok (Z.lor (Z.lor (Z.lor (Z_of_byte b0) (Z.shiftl (Z_of_byte b1) 8))
                     (Z.shiftl (Z_of_byte b2) 16))
              (Z.shiftl (Z_of_byte b3) 24))
  else Panic.

(** Sample [i] of a 32-bit buffer, read as a signed little-endian integer. *)
Definition sample32 (buf : list byte) (i : Z) : result Z :=
  let* u := Uint32 buf (4 * i) in Ok (int32 u).

(** Sample [i] of a buffer of three bytes per sample, read as a signed
    little-endian 24-bit integer. *)
Definition sample24 (buf : list byte) (i : Z) : result Z :=
  let* b0 := index buf (3 * i) in
  let* b1 := index buf (3 * i + 1) in
  let* b2 := index buf (3 * i + 2) in
  Ok (GoInt.swrap 24
        (Z.lor (Z.lor (Z_of_byte b0) (Z.shiftl (Z_of_byte b1) 8))
               (Z.shiftl (Z_of_byte b2) 16))).

(** ** What a frame report says *)

(** Frame [s] of a buffer, for frames of [frameSize] bytes. *)
Definition frame_at (buf : list byte) (frameSize s : Z) : list byte :=
  take (Z.to_nat frameSize) (drop (Z.to_nat (s * frameSize)) buf).

(** A report about a frame that both buffers have and in which they
    differ, the frame ending before the common length. *)
Definition genuine_report (label : string) (expected actual : list byte)
    (frameSize : Z) (m : message) : Prop :=
  match m with
  | FrameDiff l s e a =>
      l = label /\ 0 <= s /\
      (s + 1) * frameSize < Z.min (len expected) (len actual) /\
      e = frame_at expected frameSize s /\
      a = frame_at actual frameSize s /\
      e <> a
  | _ => False
  end.

(** ** Raw format and codec names *)

Definition RawPCMFormat (bitDepth : Z) : string :=
  if bitDepth =? BitDepth8 then "s8"
  else if bitDepth =? BitDepth24 then "s24le"
  else if bitDepth =? BitDepth32 then "s32le"
  else "s16le".

Definition RawPCMCodec (bitDepth : Z) : string :=
  if bitDepth =? BitDepth8 then "pcm_s8"
  else if bitDepth =? BitDepth24 then "pcm_s24le"
  else if bitDepth =? BitDepth32 then "pcm_s32le"
  else "pcm_s16le".

(** ** Benchmark options and results *)

(** [time.Second] as a [time.Duration], a number of nanoseconds. *)
Definition Second : Z := 1000000000.

Definition DefaultBenchIterations : Z := 10.
Definition DefaultBenchDuration : Z := 10 * Second.

Record BenchFormat : Type := mkBenchFormat {
  Name : string;
  SampleRate : Z;
  BitDepth : Z;
  Channels : Z
}.

Record BenchOptions : Type := mkBenchOptions {
  Iterations : Z;
  Duration : Z
}.

Definition WithDefaults (o : BenchOptions) : BenchOptions :=
  let o :=
    if Iterations o =? 0
    then mkBenchOptions DefaultBenchIterations (Duration o) else o in
  let o :=
    if Duration o =? 0
    then mkBenchOptions (Iterations o) DefaultBenchDuration else o in
  o.

Record BenchResult : Type := mkBenchResult {
  Format : BenchFormat;
  Tool : string;
  Op : string;
  Median : Z;
  Mean : Z;
  Min : Z;
  Max : Z;
  Stddev : Z;
  PCMSize : Z
}.

(** [s[i]] on a slice of durations. *)
Definition duration_at (s : list Z) (i : Z) : result Z :=
  if (0 <=? i) && (i <? len s) then
    match s !! Z.to_nat i with
    | Some d => Ok d
    | None => Panic
    end
  else Panic.

Section ComputeResult.

(** The mean and the standard deviation are computed in [float64] and
    converted back to a duration; floating point is outside this model
    and the two are taken as functions of the durations.  They do not
    panic and nothing else in the function depends on them. *)
Variable float_mean : list Z -> Z.
Variable float_stddev : list Z -> Z.

(** [slices.Sort] gives the durations in ascending order; the sorted
    arrangement of integers is unique, and a merge sort stands for it. *)
Definition ComputeResult (format : BenchFormat) (tool operation : string)
    (durations : list Z) (pcmSize : Z) : result BenchResult :=
  let sorted := merge_sort Z.le durations in
  let mean := float_mean durations in
  let stddev := float_stddev durations in
  let* median := duration_at sorted (GoInt.quot (len sorted) 2) in
  let* min := duration_at sorted 0 in
  let* max := duration_at sorted (GoInt.sub (len sorted) 1) in
  Ok (mkBenchResult format tool operation median mean min max stddev pcmSize).

End ComputeResult.

(** [fmt.Sprintf("%s_%d_%d_%d", ...)]: the name and the three numbers
    in decimal, joined by underscores. *)
Definition formatLabel (format : BenchFormat) : string :=
  Name format +:+ "_" +:+ pretty (SampleRate format)
    +:+ "_" +:+ pretty (BitDepth format)
    +:+ "_" +:+ pretty (Channels format).

(** The character [c] occurs in [s]. *)
Fixpoint has_char (c : Ascii.ascii) (s : string) : bool :=
  match s with
  | EmptyString => false
  | String d s' => Ascii.eqb c d || has_char c s'
  end.

(** * Properties *)

(** ** Wrap-around *)

Lemma swrap_id (w x : Z) :
  0 < w -> - 2 ^ (w - 1) <= x < 2 ^ (w - 1) -> GoInt.swrap w x = x.
Proof.
  intros Hw Hx. unfold GoInt.swrap.
  assert (E : 2 ^ w = 2 * 2 ^ (w - 1)).
  { replace w with (Z.succ (w - 1)) at 1 by lia. apply Z.pow_succ_r. lia. }
  rewrite Z.mod_small; lia.
Qed.

Lemma swrap_range (w x : Z) :
  0 < w -> - 2 ^ (w - 1) <= GoInt.swrap w x < 2 ^ (w - 1).
Proof.
  intros Hw. unfold GoInt.swrap.
  assert (E : 2 ^ w = 2 * 2 ^ (w - 1)).
  { replace w with (Z.succ (w - 1)) at 1 by lia. apply Z.pow_succ_r. lia. }
  assert (0 < 2 ^ (w - 1)) by (apply Z.pow_pos_nonneg; lia).
  pose proof (Z.mod_pos_bound (x + 2 ^ (w - 1)) (2 ^ w)). lia.
Qed.

Lemma wrap_id (x : Z) :
  GoInt.minInt <= x <= GoInt.maxInt -> GoInt.wrap x = x.
Proof.
  unfold GoInt.minInt, GoInt.maxInt, GoInt.wrap. intros H.
  apply swrap_id; simpl; lia.
Qed.

Lemma len_nonneg {A : Type} (s : list A) : 0 <= len s.
Proof. unfold len. lia. Qed.

(** ** Bytes *)

Lemma Z_of_byte_range (x : byte) : 0 <= Z_of_byte x < 256.
Proof.
  unfold Z_of_byte. pose proof (Byte.to_N_bounded x). lia.
Qed.

Lemma Z_of_byte_of_Z (x : Z) : Z_of_byte (byte_of_Z x) = x mod 256.
Proof.
  unfold Z_of_byte, byte_of_Z.
  pose proof (Z.mod_pos_bound x 256 eq_refl) as Hb.
  destruct (Byte.of_N (Z.to_N (x mod 256))) as [y|] eqn:E.
  - apply Byte.to_of_N in E. rewrite E. lia.
  - apply Byte.of_N_None_iff in E. lia.
Qed.

Lemma byte_of_Z_of_byte (x : byte) : byte_of_Z (Z_of_byte x) = x.
Proof.
  unfold byte_of_Z. pose proof (Z_of_byte_range x) as Hr.
  rewrite Z.mod_small by lia. unfold Z_of_byte.
  rewrite N2Z.id, Byte.of_to_N. reflexivity.
Qed.

Lemma byte_eqb_eq (x y : byte) : Byte.eqb x y = true <-> x = y.
Proof.
  split.
  - apply Byte.byte_dec_bl.
  - apply Byte.byte_dec_lb.
Qed.

(** ** Messages of the diagnostic pass *)

Lemma adds_frames_refl (t : T) : adds_frames t t.
Proof.
  split; [reflexivity|]. exists []. rewrite app_nil_r. split; reflexivity.
Qed.

Lemma show_loop_adds_frames (fuel : nat) (label : string)
    (expected actual : list byte) (frameSize maxDiffs : Z) :
  forall (idx shown : Z) (t : T),
    adds_frames t
      (snd (show_loop fuel label expected actual frameSize maxDiffs idx shown t)).
Proof.
  induction fuel as [|fuel IH]; intros idx shown t; simpl.
  - apply adds_frames_refl.
  - destruct (_ && _); [|apply adds_frames_refl].
    unfold bind, lift, ret.
    destruct (slice expected idx _) as [ef| |]; try apply adds_frames_refl.
    destruct (slice actual idx _) as [af| |]; try apply adds_frames_refl.
    destruct (negb (bytes_Equal ef af)); [|apply IH].
    destruct (GoInt.div idx frameSize) as [si| |]; try apply adds_frames_refl.
    simpl.
    destruct (IH (GoInt.add idx frameSize) (GoInt.add shown 1)
                 (mkT (failed t) (output t ++ [FrameDiff label si ef af])))
      as [Hf [l [Ho Hl]]].
    split; [exact Hf|].
    exists (FrameDiff label si ef af :: l). split.
    + rewrite Ho. simpl. rewrite <- app_assoc. reflexivity.
    + simpl. exact Hl.
Qed.

Lemma ShowDiffs_adds_frames (fuel : nat) (label : string)
    (expected actual : list byte) (bitDepth channels maxDiffs : Z) (t : T) :
  adds_frames t
    (snd (ShowDiffs fuel label expected actual bitDepth channels maxDiffs t)).
Proof. apply show_loop_adds_frames. Qed.

Lemma frames_no_length_mismatch (l : list message) :
  forallb is_frame_diff l = true -> existsb is_length_mismatch l = false.
Proof.
  induction l as [|m l IH]; simpl; [reflexivity|].
  intros H. apply andb_true_iff in H as [Hm Hl].
  rewrite (IH Hl). destruct m; simpl in *; congruence.
Qed.

(** ** The lossy comparator rejects other bit depths *)

(** C9: with a bit depth other than 16 the lossy comparator writes the
    one message about the unsupported depth, marks the test as failed and
    returns; whatever the buffers, the channel count and the fuel, nothing
    else is written: no length check, no sample comparison, no frame report. *)
Theorem lossy_rejects_other_depths (fuel : nat) (pcmA pcmB : list byte)
    (bitDepth channels : Z) (t : T) :
  bitDepth <> BitDepth16 ->
  CompareLossySamples fuel pcmA pcmB bitDepth channels t
  = (Ok tt, mkT true (output t ++ [UnsupportedBitDepth bitDepth])).
Proof.
  intros H. unfold CompareLossySamples.
  destruct (Z.eqb_spec bitDepth BitDepth16) as [E|_]; [contradiction|].
  reflexivity.
Qed.

Lemma lossy_rejects_other_depths_witness :
  24 <> BitDepth16 /\
  CompareLossySamples 0 [x01; x02] [x01; x07] 24 2 newT
  = (Ok tt, mkT true [UnsupportedBitDepth 24]).
Proof.
  split; [discriminate|].
  apply (lossy_rejects_other_depths 0 [x01; x02] [x01; x07] 24 2 newT).
  discriminate.
Defined.

(** ** The length check of the lossy comparator *)

Lemma lossy_length_values (pcmA pcmB : list byte) (channels : Z) :
  len pcmA <= GoInt.maxInt -> len pcmB <= GoInt.maxInt ->
  GoInt.minInt <= 1152 * channels * 2 <= GoInt.maxInt ->
  GoInt.mul (GoInt.mul samplesPerFrame channels) 2 = 1152 * channels * 2 /\
  (let d := GoInt.sub (len pcmA) (len pcmB) in
   if d <? 0 then GoInt.neg d else d) = Z.abs (len pcmA - len pcmB).
Proof.
  intros HA HB HC.
  pose proof (len_nonneg pcmA). pose proof (len_nonneg pcmB).
  unfold GoInt.minInt, GoInt.maxInt in *.
  unfold GoInt.mul, GoInt.sub, GoInt.neg, samplesPerFrame. split.
  - rewrite (wrap_id (1152 * channels))
      by (unfold GoInt.minInt, GoInt.maxInt; lia).
    apply wrap_id. unfold GoInt.minInt, GoInt.maxInt. lia.
  - cbv zeta.
    rewrite (wrap_id (len pcmA - len pcmB))
      by (unfold GoInt.minInt, GoInt.maxInt; lia).
    destruct (Z.ltb_spec (len pcmA - len pcmB) 0).
    + rewrite wrap_id by (unfold GoInt.minInt, GoInt.maxInt; lia). lia.
    + lia.
Qed.

(** C5: for 16-bit buffers the lossy comparator reports a length mismatch
    exactly when the absolute difference of the two lengths exceeds
    [1152 * channels * 2] bytes, and after such a failure it returns with
    that one message only, whatever the samples are.  The lengths are those
    of slices and the tolerance is representable as an [int].  With two
    channels the tolerance is [1152 * 2 * 2 = 4608]: a difference of 4608
    bytes is accepted by the check and 4609 is not. *)
Theorem lossy_length_check (fuel : nat) (pcmA pcmB : list byte) (channels : Z) :
  len pcmA <= GoInt.maxInt -> len pcmB <= GoInt.maxInt ->
  GoInt.minInt <= 1152 * channels * 2 <= GoInt.maxInt ->
  let lengthDiff := Z.abs (len pcmA - len pcmB) in
  let tolerance := 1152 * channels * 2 in
  let run := CompareLossySamples fuel pcmA pcmB BitDepth16 channels newT in
  (existsb is_length_mismatch (output (snd run)) = true
   <-> tolerance < lengthDiff) /\
  (tolerance < lengthDiff ->
   run = (Ok tt, mkT true [LengthMismatch (len pcmA) (len pcmB)
                                          lengthDiff tolerance])).
Proof.
  intros HA HB HC lengthDiff tolerance run.
  destruct (lossy_length_values pcmA pcmB channels HA HB HC) as [Etol Ediff].
  cbv zeta in Ediff.
  assert (Hfail : tolerance < lengthDiff ->
     run = (Ok tt, mkT true [LengthMismatch (len pcmA) (len pcmB)
                                            lengthDiff tolerance])).
  { intros Hgt. subst run. unfold CompareLossySamples.
    change (negb (BitDepth16 =? BitDepth16)) with false. cbv iota zeta.
    rewrite Etol, Ediff. fold lengthDiff tolerance.
    destruct (Z.gtb_spec lengthDiff tolerance); [reflexivity|lia]. }
  split; [|exact Hfail]. split.
  - intros Hex.
    destruct (Z.lt_ge_cases tolerance lengthDiff) as [Hlt|Hge]; [exact Hlt|].
    exfalso. revert Hex. subst run. unfold CompareLossySamples.
    change (negb (BitDepth16 =? BitDepth16)) with false. cbv iota zeta.
    rewrite Etol, Ediff. fold lengthDiff tolerance.
    destruct (Z.gtb_spec lengthDiff tolerance); [lia|].
    unfold bind, lift, ret.
    set (t1 := snd ((if lengthDiff >? 0
                     then Logf (LengthDiffTolerated (len pcmA) (len pcmB) lengthDiff)
                     else fun t => (Ok tt, t)) newT)).
    assert (Ht1 : existsb is_length_mismatch (output t1) = false).
    { subst t1. destruct (lengthDiff >? 0); reflexivity. }
    assert (Hr1 : (if lengthDiff >? 0
                   then Logf (LengthDiffTolerated (len pcmA) (len pcmB) lengthDiff)
                   else fun t => (Ok tt, t)) newT = (Ok tt, t1)).
    { subst t1. destruct (lengthDiff >? 0); reflexivity. }
    rewrite Hr1.
    destruct (lossy_loop _ 0 pcmA pcmB 0 0) as [[largeDiffs maxDiff]| |];
      simpl; try congruence.
    destruct (largeDiffs >? _); simpl; [|congruence].
    match goal with
    | |- context [ShowDiffs ?f ?l ?e ?a ?bd ?ch ?md ?t] =>
        destruct (ShowDiffs_adds_frames f l e a bd ch md t) as [_ [fr [Ho Hfr]]];
        destruct (ShowDiffs f l e a bd ch md t) as [r t2]
    end.
    simpl in Ho |- *. rewrite Ho. simpl.
    rewrite !existsb_app, Ht1, (frames_no_length_mismatch fr Hfr).
    simpl. congruence.
  - intros Hgt. rewrite (Hfail Hgt). reflexivity.
Qed.

Lemma lossy_length_check_witness :
  let pcmA := replicate 4609 x00 in
  let pcmB := @nil byte in
  (len pcmA <= GoInt.maxInt /\ len pcmB <= GoInt.maxInt /\
   GoInt.minInt <= 1152 * 2 * 2 <= GoInt.maxInt) /\
  CompareLossySamples 0 pcmA pcmB BitDepth16 2 newT
  = (Ok tt, mkT true [LengthMismatch 4609 0 4609 4608]).
Proof.
  intros pcmA pcmB.
  assert (HA : len pcmA <= GoInt.maxInt) by (vm_compute; discriminate).
  assert (HB : len pcmB <= GoInt.maxInt) by (vm_compute; discriminate).
  assert (HC : GoInt.minInt <= 1152 * 2 * 2 <= GoInt.maxInt)
    by (vm_compute; split; discriminate).
  split; [auto|].
  apply (proj2 (lossy_length_check 0 pcmA pcmB 2 HA HB HC)).
  vm_compute. reflexivity.
Defined.

(** ** Stores into a buffer *)

Lemma len_app {A : Type} (l k : list A) : len (l ++ k) = len l + len k.
Proof. unfold len. rewrite length_app. lia. Qed.

Lemma len_cons {A : Type} (x : A) (l : list A) : len (x :: l) = 1 + len l.
Proof. unfold len. simpl. lia. Qed.

Lemma store_app (done rest : list byte) (x y : byte) (off : Z) :
  off = len done ->
  store (done ++ x :: rest) off y = Ok (done ++ y :: rest).
Proof.
  intros ->. unfold store.
  pose proof (len_nonneg done). pose proof (len_nonneg rest).
  rewrite len_app, len_cons.
  destruct (Z.leb_spec 0 (len done)); [|lia].
  destruct (Z.ltb_spec (len done) (len done + (1 + len rest))); [|lia].
  simpl. f_equal. unfold len. rewrite Nat2Z.id.
  rewrite insert_app_r_alt by lia.
  replace (length done - length done)%nat with 0%nat by lia. reflexivity.
Qed.

Lemma store_app_mid (done mid rest : list byte) (x y : byte) (off : Z) :
  off = len done + len mid ->
  store (done ++ mid ++ x :: rest) off y = Ok (done ++ mid ++ y :: rest).
Proof.
  intros E. rewrite !app_assoc. apply store_app. rewrite len_app. exact E.
Qed.

Lemma store_app1 (done rest : list byte) (x0 x y : byte) (off : Z) :
  off = len done + 1 ->
  store (done ++ x0 :: x :: rest) off y = Ok (done ++ x0 :: y :: rest).
Proof. intros E. exact (store_app_mid done [x0] rest x y off E). Qed.

Lemma store_app2 (done rest : list byte) (x0 x1 x y : byte) (off : Z) :
  off = len done + 2 ->
  store (done ++ x0 :: x1 :: x :: rest) off y
  = Ok (done ++ x0 :: x1 :: y :: rest).
Proof. intros E. exact (store_app_mid done [x0; x1] rest x y off E). Qed.

Lemma store_app3 (done rest : list byte) (x0 x1 x2 x y : byte) (off : Z) :
  off = len done + 3 ->
  store (done ++ x0 :: x1 :: x2 :: x :: rest) off y
  = Ok (done ++ x0 :: x1 :: x2 :: y :: rest).
Proof. intros E. exact (store_app_mid done [x0; x1; x2] rest x y off E). Qed.

Lemma PutUint16_app (done rest : list byte) (x0 x1 : byte) (off v : Z) :
  off = len done ->
  PutUint16 (done ++ x0 :: x1 :: rest) off v
  = Ok (done ++ byte_of_Z v :: byte_of_Z (Z.shiftr v 8) :: rest).
Proof.
  intros ->. unfold PutUint16.
  pose proof (len_nonneg done). pose proof (len_nonneg rest).
  rewrite len_app, !len_cons.
  destruct (Z.leb_spec 0 (len done)); [|lia].
  destruct (Z.ltb_spec (len done + 1) (len done + (1 + (1 + len rest)))); [|lia].
  simpl. rewrite store_app by reflexivity. simpl.
  apply store_app1. reflexivity.
Qed.

Lemma PutUint32_app (done rest : list byte) (x0 x1 x2 x3 : byte) (off v : Z) :
  off = len done ->
  PutUint32 (done ++ x0 :: x1 :: x2 :: x3 :: rest) off v
  = Ok (done ++ byte_of_Z v :: byte_of_Z (Z.shiftr v 8)
             :: byte_of_Z (Z.shiftr v 16) :: byte_of_Z (Z.shiftr v 24) :: rest).
Proof.
  intros ->. unfold PutUint32.
  pose proof (len_nonneg done). pose proof (len_nonneg rest).
  rewrite len_app, !len_cons.
  destruct (Z.leb_spec 0 (len done)); [|lia].
  destruct (Z.ltb_spec (len done + 3)
              (len done + (1 + (1 + (1 + (1 + len rest)))))); [|lia].
  simpl. rewrite store_app by reflexivity. simpl.
  rewrite store_app1 by reflexivity. simpl.
  rewrite store_app2 by reflexivity. simpl.
  apply store_app3. reflexivity.
Qed.

(** ** The loop of the synthesizer *)

Ltac bytes_per_sample :=
  try change (PCMBytesPerSample BitDepth4) with 1 in *;
  try change (PCMBytesPerSample BitDepth8) with 1 in *;
  try change (PCMBytesPerSample BitDepth12) with 2 in *;
  try change (PCMBytesPerSample BitDepth16) with 2 in *;
  try change (PCMBytesPerSample BitDepth20) with 3 in *;
  try change (PCMBytesPerSample BitDepth24) with 3 in *;
  try change (PCMBytesPerSample BitDepth32) with 4 in *.

Ltac enumerated_depth := unfold enumerated; simpl; tauto.

Lemma PCMBytesPerSample_enumerated (bitDepth : Z) :
  enumerated bitDepth -> 1 <= PCMBytesPerSample bitDepth <= 4.
Proof.
  unfold enumerated. simpl.
  intros [<-|[<-|[<-|[<-|[<-|[<-|[<-|[]]]]]]]]; vm_compute; split; discriminate.
Qed.

Lemma length_sample_bytes (bitDepth seed : Z) :
  enumerated bitDepth ->
  len (sample_bytes bitDepth seed) = PCMBytesPerSample bitDepth.
Proof.
  unfold enumerated. simpl.
  intros [<-|[<-|[<-|[<-|[<-|[<-|[<-|[]]]]]]]]; reflexivity.
Qed.

Lemma write_sample_app (bitDepth seed : Z) (done rest : list byte) (off : Z) :
  enumerated bitDepth ->
  off = len done ->
  PCMBytesPerSample bitDepth <= len rest ->
  len (done ++ rest) <= GoInt.maxInt ->
  write_sample bitDepth seed (done ++ rest) off
  = Ok (done ++ sample_bytes bitDepth seed
             ++ drop (Z.to_nat (PCMBytesPerSample bitDepth)) rest).
Proof.
  intros Hen -> Hlen Hmax.
  pose proof (len_nonneg done) as Hd.
  pose proof (PCMBytesPerSample_enumerated bitDepth Hen) as Hbps.
  assert (W1 : GoInt.add (len done) 1 = len done + 1).
  { apply wrap_id. revert Hmax. rewrite len_app.
    unfold GoInt.minInt, GoInt.maxInt. lia. }
  assert (W2 : 3 <= len rest -> GoInt.add (len done) 2 = len done + 2).
  { intros H3. apply wrap_id. revert Hmax. rewrite len_app.
    unfold GoInt.minInt, GoInt.maxInt. lia. }
  unfold enumerated in Hen. simpl in Hen.
  destruct Hen as [<-|[<-|[<-|[<-|[<-|[<-|[<-|[]]]]]]]]; bytes_per_sample.
  - destruct rest as [|x0 rest]; [unfold len in Hlen; simpl in Hlen; lia|].
    unfold write_sample, sample_bytes. simpl.
    apply store_app. reflexivity.
  - destruct rest as [|x0 rest]; [unfold len in Hlen; simpl in Hlen; lia|].
    unfold write_sample, sample_bytes. simpl.
    apply store_app. reflexivity.
  - destruct rest as [|x0 [|x1 rest]]; try (unfold len in Hlen; simpl in Hlen; lia).
    unfold write_sample, sample_bytes. simpl.
    apply PutUint16_app. reflexivity.
  - destruct rest as [|x0 [|x1 rest]]; try (unfold len in Hlen; simpl in Hlen; lia).
    unfold write_sample, sample_bytes. simpl.
    apply PutUint16_app. reflexivity.
  - destruct rest as [|x0 [|x1 [|x2 rest]]];
      try (unfold len in Hlen; simpl in Hlen; lia).
    unfold write_sample, sample_bytes. simpl.
    rewrite store_app by reflexivity. simpl.
    rewrite W1, W2 by exact Hlen.
    rewrite store_app1 by reflexivity. simpl.
    apply store_app2. reflexivity.
  - destruct rest as [|x0 [|x1 [|x2 rest]]];
      try (unfold len in Hlen; simpl in Hlen; lia).
    unfold write_sample, sample_bytes. simpl.
    rewrite store_app by reflexivity. simpl.
    rewrite W1, W2 by exact Hlen.
    rewrite store_app1 by reflexivity. simpl.
    apply store_app2. reflexivity.
  - destruct rest as [|x0 [|x1 [|x2 [|x3 rest]]]];
      try (unfold len in Hlen; simpl in Hlen; lia).
    unfold write_sample, sample_bytes. simpl.
    apply PutUint32_app. reflexivity.
Qed.

Lemma len_drop {A : Type} (k : nat) (l : list A) :
  Z.of_nat k <= len l -> len (drop k l) = len l - Z.of_nat k.
Proof. unfold len. rewrite length_drop. lia. Qed.

Lemma noise_loop_app (bitDepth bytesPerSample : Z) :
  enumerated bitDepth ->
  bytesPerSample = PCMBytesPerSample bitDepth ->
  forall (n : nat) (sampleIdx seed : Z) (done rest : list byte),
    0 <= sampleIdx ->
    len done = sampleIdx * bytesPerSample ->
    Z.of_nat n * bytesPerSample <= len rest ->
    len (done ++ rest) <= GoInt.maxInt ->
    noise_loop n sampleIdx bitDepth bytesPerSample seed (done ++ rest)
    = Ok (done ++ noise_bytes n bitDepth seed
               ++ drop (n * Z.to_nat bytesPerSample) rest).
Proof.
  intros Hen ->.
  pose proof (PCMBytesPerSample_enumerated bitDepth Hen) as Hbps.
  set (bps := PCMBytesPerSample bitDepth) in *.
  induction n as [|n IH]; intros sampleIdx seed done rest Hidx Hdone Hrest Hmax.
  - simpl. reflexivity.
  - cbn [noise_loop noise_bytes].
    pose proof (len_nonneg done) as Hd.
    assert (Hoff : GoInt.mul sampleIdx bps = len done).
    { unfold GoInt.mul. rewrite <- Hdone. apply wrap_id.
      revert Hmax. rewrite len_app. pose proof (len_nonneg rest).
      unfold GoInt.minInt, GoInt.maxInt. lia. }
    rewrite Hoff.
    rewrite (write_sample_app bitDepth (xorshift seed) done rest (len done))
      by (try reflexivity; try assumption; fold bps; lia).
    fold bps. cbn [bind_result].
    set (sb := sample_bytes bitDepth (xorshift seed)).
    assert (Hsb : len sb = bps) by (apply length_sample_bytes; exact Hen).
    assert (Hk : Z.of_nat (Z.to_nat bps) = bps) by lia.
    rewrite (app_assoc done sb).
    rewrite IH.
    + rewrite <- app_assoc. rewrite drop_drop. rewrite <- app_assoc.
      reflexivity.
    + lia.
    + rewrite len_app. lia.
    + rewrite len_drop by lia. lia.
    + rewrite len_app, len_app, len_drop by lia.
      revert Hmax. rewrite len_app. lia.
Qed.

Lemma len_noise_bytes (bitDepth : Z) :
  enumerated bitDepth ->
  forall (n : nat) (seed : Z),
    len (noise_bytes n bitDepth seed)
    = Z.of_nat n * PCMBytesPerSample bitDepth.
Proof.
  intros Hen. induction n as [|n IH]; intros seed.
  - reflexivity.
  - cbn [noise_bytes]. rewrite len_app, IH, length_sample_bytes by exact Hen.
    lia.
Qed.

(** For a bit depth of the enumerated set and parameters that are not
    negative and whose byte count is an [int], the synthesizer returns the
    bytes of [sampleRate * durationSec * channels] consecutive samples. *)
Lemma GenerateWhiteNoise_bytes (sampleRate bitDepth channels durationSec : Z) :
  enumerated bitDepth ->
  0 <= sampleRate -> 0 <= durationSec -> 0 <= channels ->
  sampleRate * durationSec * channels * PCMBytesPerSample bitDepth
    <= GoInt.maxInt ->
  GenerateWhiteNoise sampleRate bitDepth channels durationSec
  = Ok (noise_bytes (Z.to_nat (sampleRate * durationSec * channels))
                    bitDepth xorshiftSeed).
Proof.
  intros Hen Hsr Hdur Hch Hmax.
  pose proof (PCMBytesPerSample_enumerated bitDepth Hen) as Hbps.
  unfold GenerateWhiteNoise.
  set (bps := PCMBytesPerSample bitDepth) in *.
  set (n := sampleRate * durationSec * channels) in *.
  assert (Hn : 0 <= n) by (subst n; nia).
  assert (Hnum : GoInt.mul (GoInt.mul sampleRate durationSec) channels = n).
  { unfold GoInt.mul. destruct (Z.eq_dec channels 0) as [->|Hnz].
    - subst n. rewrite !Z.mul_0_r. reflexivity.
    - rewrite (wrap_id (sampleRate * durationSec)).
      + apply wrap_id. unfold GoInt.minInt, GoInt.maxInt in *. nia.
      + unfold GoInt.minInt, GoInt.maxInt in *. nia. }
  rewrite Hnum.
  assert (Htot : GoInt.mul n bps = n * bps).
  { apply wrap_id. unfold GoInt.minInt, GoInt.maxInt in *. nia. }
  rewrite Htot. unfold make.
  destruct (Z.ltb_spec (n * bps) 0); [nia|]. cbn [bind_result].
  set (buf := replicate (Z.to_nat (n * bps)) x00).
  assert (Hbuf : len buf = n * bps).
  { subst buf. unfold len. rewrite length_replicate. nia. }
  change buf with ([] ++ buf).
  rewrite (noise_loop_app bitDepth bps Hen eq_refl).
  - simpl. rewrite drop_ge.
    + rewrite app_nil_r. reflexivity.
    + unfold len in Hbuf. nia.
  - lia.
  - reflexivity.
  - rewrite Hbuf. lia.
  - simpl. rewrite Hbuf. exact Hmax.
Qed.

(** ** Reading samples back *)

Lemma swrap_uwrap (w w' y : Z) :
  0 < w <= w' -> GoInt.swrap w (GoInt.uwrap w' y) = GoInt.swrap w y.
Proof.
  intros Hw. unfold GoInt.swrap, GoInt.uwrap. f_equal.
  rewrite Zplus_mod.
  rewrite Z.mod_mod_divide.
  - rewrite <- Zplus_mod. reflexivity.
  - exists (2 ^ (w' - w)). rewrite <- Z.pow_add_r by lia. f_equal. lia.
Qed.

Lemma swrap_swrap (w y : Z) :
  0 < w -> GoInt.swrap w (GoInt.swrap w y) = GoInt.swrap w y.
Proof. intros Hw. apply swrap_id; [exact Hw|]. apply swrap_range. exact Hw. Qed.

Lemma le16_join (v : Z) :
  0 <= v < 2 ^ 16 ->
  Z.lor (v mod 256) (Z.shiftl ((Z.shiftr v 8) mod 256) 8) = v.
Proof.
  intros Hv. apply Z.bits_inj'. intros n Hn.
  change 256 with (2 ^ 8).
  rewrite Z.lor_spec.
  destruct (Z.ltb_spec n 8) as [Hlt|Hge].
  - rewrite Z.mod_pow2_bits_low by lia.
    rewrite Z.shiftl_spec_low by lia. apply orb_false_r.
  - rewrite Z.mod_pow2_bits_high by lia.
    rewrite Z.shiftl_spec by lia. simpl.
    destruct (Z.ltb_spec n 16) as [Hlt|Hge'].
    + rewrite Z.mod_pow2_bits_low by lia.
      rewrite Z.shiftr_spec by lia. f_equal. lia.
    + rewrite Z.mod_pow2_bits_high by lia.
      rewrite <- (Z.mod_small v (2 ^ 16)) by lia.
      rewrite Z.mod_pow2_bits_high by lia. reflexivity.
Qed.

Lemma index_app_r (pre l : list byte) (off i : Z) :
  0 <= i -> off = len pre + i -> index (pre ++ l) off = index l i.
Proof.
  intros Hi ->. unfold index. rewrite len_app.
  pose proof (len_nonneg pre) as Hp.
  destruct (Z.leb_spec 0 (len pre + i)); [|lia].
  destruct (Z.leb_spec 0 i); [|lia]. simpl.
  destruct (Z.ltb_spec (len pre + i) (len pre + len l));
    destruct (Z.ltb_spec i (len l)); try lia; [|reflexivity].
  rewrite lookup_app_r by (unfold len in *; lia).
  replace (Z.to_nat (len pre + i) - length pre)%nat with (Z.to_nat i)
    by (unfold len in *; lia).
  reflexivity.
Qed.

Lemma Uint16_app_r (pre l : list byte) (off i : Z) :
  0 <= i -> off = len pre + i -> Uint16 (pre ++ l) off = Uint16 l i.
Proof.
  intros Hi ->. unfold Uint16. rewrite len_app.
  pose proof (len_nonneg pre) as Hp.
  destruct (Z.leb_spec 0 (len pre + i)); [|lia].
  destruct (Z.leb_spec 0 i); [|lia]. simpl.
  destruct (Z.ltb_spec (len pre + i + 1) (len pre + len l));
    destruct (Z.ltb_spec (i + 1) (len l)); try lia; [|reflexivity].
  rewrite (index_app_r pre l (len pre + i) i) by lia.
  rewrite (index_app_r pre l (len pre + i + 1) (i + 1)) by lia.
  reflexivity.
Qed.

Lemma Uint16_head (x0 x1 : byte) (l : list byte) :
  Uint16 (x0 :: x1 :: l) 0
  = Ok (Z.lor (Z_of_byte x0) (Z.shiftl (Z_of_byte x1) 8)).
Proof.
  unfold Uint16, index. rewrite !len_cons. pose proof (len_nonneg l).
  change (0 + 1) with 1.
  destruct (Z.ltb_spec 0 (1 + (1 + len l))); [|lia].
  destruct (Z.ltb_spec 1 (1 + (1 + len l))); [|lia].
  reflexivity.
Qed.

(** A 16-bit value stored by [PutUint16] is read back by [Uint16]. *)
Lemma sample16_stored (val : Z) (l : list byte) :
  - 2 ^ 15 <= val < 2 ^ 15 ->
  sample16 (byte_of_Z (uint16 val) :: byte_of_Z (Z.shiftr (uint16 val) 8) :: l) 0
  = Ok val.
Proof.
  intros Hval. unfold sample16. change (2 * 0) with 0.
  rewrite Uint16_head. cbn [bind_result]. f_equal.
  rewrite !Z_of_byte_of_Z.
  assert (Hu : 0 <= uint16 val < 2 ^ 16)
    by (unfold uint16, GoInt.uwrap; apply Z.mod_pos_bound; reflexivity).
  rewrite le16_join by exact Hu.
  unfold int16, uint16. rewrite swrap_uwrap by lia.
  apply swrap_id; [lia|exact Hval].
Qed.

(** A signed byte stored by a single-byte depth is read back. *)
Lemma sample8_stored (val : Z) (l : list byte) :
  - 2 ^ 7 <= val < 2 ^ 7 ->
  sample8 (byte_of_Z (int8 val) :: l) 0 = Ok val.
Proof.
  intros Hval. unfold sample8, index. rewrite len_cons.
  pose proof (len_nonneg l).
  destruct (Z.ltb_spec 0 (1 + len l)); [|lia]. simpl. f_equal.
  unfold signed_byte. rewrite Z_of_byte_of_Z. unfold int8.
  change (GoInt.swrap 8 val mod 256)
    with (GoInt.uwrap 8 (GoInt.swrap 8 val)).
  rewrite (swrap_uwrap 8 8) by lia. rewrite swrap_swrap by lia.
  apply swrap_id; [lia|exact Hval].
Qed.

(** The value of [(seed % m) - h] converted to a signed type of [w] bits,
    when the range [[-h, m - h)] fits the type. *)
Lemma offset_value (w seed m h : Z) :
  0 < w <= 64 -> 0 < m -> - 2 ^ (w - 1) <= - h -> m - h <= 2 ^ (w - 1) ->
  GoInt.swrap w (U64.sub (U64.rem seed m) h) = seed mod m - h /\
  - h <= seed mod m - h < m - h.
Proof.
  intros Hw Hm Hlo Hhi. unfold U64.sub, U64.rem.
  pose proof (Z.mod_pos_bound seed m Hm) as Hb.
  rewrite swrap_uwrap by lia. split; [|lia].
  apply swrap_id; lia.
Qed.

Lemma iter_shift (i : Z) (seed : Z) :
  1 <= i ->
  Nat.iter (S (Z.to_nat (i - 1))) xorshift (xorshift seed)
  = Nat.iter (S (Z.to_nat i)) xorshift seed.
Proof.
  intros Hi. rewrite <- Nat.iter_succ_r. f_equal. lia.
Qed.

(** Sample [i] of a synthesized 16-bit buffer is the state of the
    generator after [i + 1] rounds, reduced modulo 60000 and shifted. *)
Lemma sample16_noise_bytes (n : nat) :
  forall (seed i : Z),
    0 <= i < Z.of_nat n ->
    sample16 (noise_bytes n BitDepth16 seed) i
    = Ok (Nat.iter (S (Z.to_nat i)) xorshift seed mod 60000 - 30000).
Proof.
  induction n as [|n IH]; intros seed i Hi; [lia|].
  cbn [noise_bytes].
  destruct (offset_value 16 (xorshift seed) 60000 30000) as [Hv Hr];
    try lia.
  destruct (Z.eq_dec i 0) as [->|Hnz].
  - change (sample_bytes BitDepth16 (xorshift seed)) with
      (let v := uint16 (int16 (U64.sub (U64.rem (xorshift seed) 60000) 30000)) in
       [byte_of_Z v; byte_of_Z (Z.shiftr v 8)]).
    cbv zeta. cbn [app]. rewrite sample16_stored.
    + unfold int16. rewrite Hv. reflexivity.
    + unfold int16. rewrite Hv. lia.
  - unfold sample16.
    rewrite (Uint16_app_r _ _ (2 * i) (2 * (i - 1))).
    + specialize (IH (xorshift seed) (i - 1)). unfold sample16 in IH.
      rewrite IH by lia. rewrite iter_shift by lia. reflexivity.
    + lia.
    + change (len (sample_bytes BitDepth16 (xorshift seed))) with 2. lia.
Qed.

(** The same for a depth stored in one byte with [(seed % m) - h]. *)
Lemma sample8_noise_bytes (bitDepth m h : Z) :
  (forall s, sample_bytes bitDepth s
             = [byte_of_Z (int8 (U64.sub (U64.rem s m) h))]) ->
  0 < m -> h <= 128 -> m - h <= 128 ->
  forall (n : nat) (seed i : Z),
    0 <= i < Z.of_nat n ->
    sample8 (noise_bytes n bitDepth seed) i
    = Ok (Nat.iter (S (Z.to_nat i)) xorshift seed mod m - h).
Proof.
  intros Hsb Hm Hh Hmh.
  induction n as [|n IH]; intros seed i Hi; [lia|].
  cbn [noise_bytes]. rewrite Hsb.
  destruct (offset_value 8 (xorshift seed) m h) as [Hv Hr]; try lia.
  destruct (Z.eq_dec i 0) as [->|Hnz].
  - cbn [app]. unfold sample8, index. rewrite len_cons.
    pose proof (len_nonneg (noise_bytes n bitDepth (xorshift seed))).
    destruct (Z.ltb_spec 0 (1 + len (noise_bytes n bitDepth (xorshift seed))));
      [|lia].
    simpl. f_equal. unfold signed_byte. rewrite Z_of_byte_of_Z.
    unfold int8.
    change (?x mod 256) with (GoInt.uwrap 8 x).
    rewrite (swrap_uwrap 8 8) by lia. rewrite swrap_swrap by lia.
    exact Hv.
  - unfold sample8.
    rewrite (index_app_r _ _ i (i - 1)).
    + specialize (IH (xorshift seed) (i - 1)). unfold sample8 in IH.
      rewrite IH by lia. rewrite iter_shift by lia. reflexivity.
    + lia.
    + unfold len. simpl. lia.
Qed.

(** ** Range of the synthesized samples *)

(** C6: for parameters that are not negative and a byte count that is an
    [int], the synthesizer returns a 16-bit buffer all of whose samples,
    read as signed little-endian 16-bit integers, lie in [-30000, 29999],
    and an 8-bit buffer all of whose samples, read as signed bytes, lie in
    [-120, 119]. *)
Theorem noise_sample_range (sampleRate channels durationSec : Z) :
  0 <= sampleRate -> 0 <= durationSec -> 0 <= channels ->
  sampleRate * durationSec * channels * 2 <= GoInt.maxInt ->
  let numSamples := sampleRate * durationSec * channels in
  (exists buf,
     GenerateWhiteNoise sampleRate BitDepth16 channels durationSec = Ok buf /\
     len buf = numSamples * 2 /\
     forall i, 0 <= i < numSamples ->
       exists v, sample16 buf i = Ok v /\ -30000 <= v <= 29999) /\
  (exists buf,
     GenerateWhiteNoise sampleRate BitDepth8 channels durationSec = Ok buf /\
     len buf = numSamples /\
     forall i, 0 <= i < numSamples ->
       exists v, sample8 buf i = Ok v /\ -120 <= v <= 119).
Proof.
  intros Hsr Hdur Hch Hmax numSamples.
  assert (Hn : 0 <= numSamples) by (subst numSamples; nia).
  split.
  - eexists. split; [|split].
    + apply GenerateWhiteNoise_bytes; try assumption.
      unfold enumerated. simpl. tauto.
    + rewrite len_noise_bytes by (unfold enumerated; simpl; tauto).
      bytes_per_sample. fold numSamples. lia.
    + intros i Hi. eexists. split.
      * apply sample16_noise_bytes. fold numSamples. lia.
      * pose proof (Z.mod_pos_bound
                      (Nat.iter (S (Z.to_nat i)) xorshift xorshiftSeed) 60000).
        lia.
  - eexists. split; [|split].
    + apply GenerateWhiteNoise_bytes; try assumption.
      * unfold enumerated. simpl. tauto.
      * bytes_per_sample. fold numSamples. lia.
    + rewrite len_noise_bytes by (unfold enumerated; simpl; tauto).
      bytes_per_sample. fold numSamples. lia.
    + intros i Hi. eexists. split.
      * apply (sample8_noise_bytes BitDepth8 240 120); try lia.
        intros s. reflexivity.
      * pose proof (Z.mod_pos_bound
                      (Nat.iter (S (Z.to_nat i)) xorshift xorshiftSeed) 240).
        lia.
Qed.

Lemma noise_sample_range_witness :
  (0 <= 2 /\ 0 <= 1 /\ 0 <= 2 /\ 2 * 1 * 2 * 2 <= GoInt.maxInt) /\
  ((exists buf,
      GenerateWhiteNoise 2 BitDepth16 2 1 = Ok buf /\
      len buf = 2 * 1 * 2 * 2 /\
      forall i, 0 <= i < 2 * 1 * 2 ->
        exists v, sample16 buf i = Ok v /\ -30000 <= v <= 29999) /\
   (exists buf,
      GenerateWhiteNoise 2 BitDepth8 2 1 = Ok buf /\
      len buf = 2 * 1 * 2 /\
      forall i, 0 <= i < 2 * 1 * 2 ->
        exists v, sample8 buf i = Ok v /\ -120 <= v <= 119)).
Proof.
  assert (H : 0 <= 2 /\ 0 <= 1 /\ 0 <= 2 /\ 2 * 1 * 2 * 2 <= GoInt.maxInt)
    by (vm_compute; repeat split; discriminate).
  split; [exact H|].
  destruct H as [H1 [H2 [H3 H4]]].
  exact (noise_sample_range 2 2 1 H1 H2 H3 H4).
Defined.

(** ** Length of the synthesized buffer *)

(** C7: for every bit depth of the enumerated set and parameters that are
    not negative and whose byte count is an [int], the synthesizer returns
    a buffer of [sampleRate * durationSec * channels * bytesPerSample]
    bytes, the bytes per sample being 1, 1, 2, 2, 3, 3, 4 for the depths
    4, 8, 12, 16, 20, 24, 32. *)
Theorem GenerateWhiteNoise_length (sampleRate bitDepth channels durationSec : Z) :
  enumerated bitDepth ->
  0 <= sampleRate -> 0 <= durationSec -> 0 <= channels ->
  sampleRate * durationSec * channels * PCMBytesPerSample bitDepth
    <= GoInt.maxInt ->
  (exists buf,
     GenerateWhiteNoise sampleRate bitDepth channels durationSec = Ok buf /\
     len buf
     = sampleRate * durationSec * channels * PCMBytesPerSample bitDepth) /\
  map PCMBytesPerSample [4; 8; 12; 16; 20; 24; 32] = [1; 1; 2; 2; 3; 3; 4].
Proof.
  intros Hen Hsr Hdur Hch Hmax. split; [|reflexivity].
  eexists. split.
  - apply GenerateWhiteNoise_bytes; assumption.
  - rewrite len_noise_bytes by exact Hen.
    rewrite Z2Nat.id by nia. reflexivity.
Qed.

Lemma GenerateWhiteNoise_length_witness :
  (enumerated 24 /\ 0 <= 3 /\ 0 <= 1 /\ 0 <= 2 /\
   3 * 1 * 2 * PCMBytesPerSample 24 <= GoInt.maxInt) /\
  (exists buf,
     GenerateWhiteNoise 3 24 2 1 = Ok buf /\
     len buf = 3 * 1 * 2 * PCMBytesPerSample 24) /\
  map PCMBytesPerSample [4; 8; 12; 16; 20; 24; 32] = [1; 1; 2; 2; 3; 3; 4].
Proof.
  assert (He : enumerated 24) by (unfold enumerated; simpl; tauto).
  assert (H : 0 <= 3 /\ 0 <= 1 /\ 0 <= 2 /\
              3 * 1 * 2 * PCMBytesPerSample 24 <= GoInt.maxInt)
    by (vm_compute; repeat split; discriminate).
  split; [tauto|].
  destruct H as [H1 [H2 [H3 H4]]].
  exact (GenerateWhiteNoise_length 3 24 2 1 He H1 H2 H3 H4).
Defined.

(** ** The 4-bit depth *)

Lemma lxor_u64 (a c : Z) :
  0 <= a < 2 ^ 64 -> 0 <= c < 2 ^ 64 -> 0 <= Z.lxor a c < 2 ^ 64.
Proof.
  intros Ha Hc.
  assert (Hnn : 0 <= Z.lxor a c) by (apply Z.lxor_nonneg; lia).
  split; [exact Hnn|].
  destruct (Z.eq_dec (Z.lxor a c) 0) as [->|Hnz]; [reflexivity|].
  apply Z.log2_lt_pow2; [lia|].
  pose proof (Z.log2_lxor a c (proj1 Ha) (proj1 Hc)) as Hl.
  assert (La : Z.log2 a < 64).
  { destruct (Z.eq_dec a 0) as [->|]; [reflexivity|].
    apply Z.log2_lt_pow2; lia. }
  assert (Lc : Z.log2 c < 64).
  { destruct (Z.eq_dec c 0) as [->|]; [reflexivity|].
    apply Z.log2_lt_pow2; lia. }
  lia.
Qed.

Lemma xorshift_range (seed : Z) :
  0 <= seed < 2 ^ 64 -> 0 <= xorshift seed < 2 ^ 64.
Proof.
  intros Hs. unfold xorshift, U64.xor, U64.shl, U64.shr, GoInt.uwrap.
  assert (Hm : forall x, 0 <= x mod 2 ^ 64 < 2 ^ 64)
    by (intros x; apply Z.mod_pos_bound; reflexivity).
  assert (Hr : forall x, 0 <= x < 2 ^ 64 -> 0 <= Z.shiftr x xorshiftShiftB < 2 ^ 64).
  { intros x Hx. rewrite Z.shiftr_div_pow2 by (vm_compute; discriminate).
    unfold xorshiftShiftB. change (2 ^ 7) with 128.
    pose proof (Z.div_pos x 128). pose proof (Z.div_le_upper_bound x 128 x).
    lia. }
  cbv zeta.
  apply lxor_u64; [|apply Hm].
  apply lxor_u64; [|apply Hr].
  - apply lxor_u64; [exact Hs|apply Hm].
  - apply lxor_u64; [exact Hs|apply Hm].
Qed.

Lemma seed_after_range (k : nat) : 0 <= seed_after k < 2 ^ 64.
Proof.
  unfold seed_after. induction k as [|k IH].
  - vm_compute. split; [discriminate|reflexivity].
  - cbn [Nat.iter]. apply xorshift_range. exact IH.
Qed.

Lemma index_noise_bytes_one (bitDepth m h : Z) :
  (forall s, sample_bytes bitDepth s
             = [byte_of_Z (int8 (U64.sub (U64.rem s m) h))]) ->
  forall (n : nat) (seed i : Z),
    0 <= i < Z.of_nat n ->
    index (noise_bytes n bitDepth seed) i
    = Ok (byte_of_Z
            (int8 (U64.sub
                     (U64.rem (Nat.iter (S (Z.to_nat i)) xorshift seed) m) h))).
Proof.
  intros Hsb.
  induction n as [|n IH]; intros seed i Hi; [lia|].
  cbn [noise_bytes]. rewrite Hsb.
  destruct (Z.eq_dec i 0) as [->|Hnz].
  - cbn [app]. unfold index. rewrite len_cons.
    pose proof (len_nonneg (noise_bytes n bitDepth (xorshift seed))).
    destruct (Z.ltb_spec 0 (1 + len (noise_bytes n bitDepth (xorshift seed))));
      [|lia].
    reflexivity.
  - rewrite (index_app_r _ _ i (i - 1)).
    + rewrite IH by lia. rewrite iter_shift by lia. reflexivity.
    + lia.
    + unfold len. simpl. lia.
Qed.

(** C10: for parameters that are not negative and a sample count that is
    an [int], every byte of the synthesized 4-bit buffer is
    [(state % 14) - 7], computed on the unsigned 64-bit state of the
    generator and truncated to one byte; read as a signed byte it is
    [state mod 14 - 7], one of the fourteen values of [-7, 6]. *)
Theorem noise_4bit_range (sampleRate channels durationSec : Z) :
  0 <= sampleRate -> 0 <= durationSec -> 0 <= channels ->
  sampleRate * durationSec * channels <= GoInt.maxInt ->
  let numSamples := sampleRate * durationSec * channels in
  exists buf,
    GenerateWhiteNoise sampleRate BitDepth4 channels durationSec = Ok buf /\
    len buf = numSamples /\
    forall i, 0 <= i < numSamples ->
      let state := seed_after (S (Z.to_nat i)) in
      0 <= state < 2 ^ 64 /\
      index buf i = Ok (byte_of_Z (int8 (U64.sub (U64.rem state 14) 7))) /\
      sample8 buf i = Ok (state mod 14 - 7) /\
      -7 <= state mod 14 - 7 <= 6.
Proof.
  intros Hsr Hdur Hch Hmax numSamples.
  assert (Hn : 0 <= numSamples) by (subst numSamples; nia).
  assert (Hen : enumerated BitDepth4) by enumerated_depth.
  eexists. split; [|split].
  - apply GenerateWhiteNoise_bytes; try assumption.
    bytes_per_sample. fold numSamples. lia.
  - rewrite len_noise_bytes by exact Hen.
    bytes_per_sample. fold numSamples. lia.
  - intros i Hi state. fold numSamples. split; [|split; [|split]].
    + apply seed_after_range.
    + apply (index_noise_bytes_one BitDepth4 14 7); [|lia].
      intros s. reflexivity.
    + apply (sample8_noise_bytes BitDepth4 14 7); try lia.
      intros s. reflexivity.
    + pose proof (Z.mod_pos_bound state 14). lia.
Qed.

Lemma noise_4bit_range_witness :
  (0 <= 3 /\ 0 <= 1 /\ 0 <= 2 /\ 3 * 1 * 2 <= GoInt.maxInt) /\
  exists buf,
    GenerateWhiteNoise 3 BitDepth4 2 1 = Ok buf /\
    len buf = 3 * 1 * 2 /\
    forall i, 0 <= i < 3 * 1 * 2 ->
      let state := seed_after (S (Z.to_nat i)) in
      0 <= state < 2 ^ 64 /\
      index buf i = Ok (byte_of_Z (int8 (U64.sub (U64.rem state 14) 7))) /\
      sample8 buf i = Ok (state mod 14 - 7) /\
      -7 <= state mod 14 - 7 <= 6.
Proof.
  assert (H : 0 <= 3 /\ 0 <= 1 /\ 0 <= 2 /\ 3 * 1 * 2 <= GoInt.maxInt)
    by (vm_compute; repeat split; discriminate).
  split; [exact H|].
  destruct H as [H1 [H2 [H3 H4]]].
  exact (noise_4bit_range 3 2 1 H1 H2 H3 H4).
Defined.

(** ** The difference of two samples *)

(** Where the exact difference fits 16 bits, the loop computes it. *)
Lemma sample_diff_exact (sampleA sampleB : Z) :
  Z.abs (sampleA - sampleB) < 2 ^ 15 ->
  sample_diff sampleA sampleB = Z.abs (sampleA - sampleB).
Proof.
  intros H. unfold sample_diff, Int16.sub, Int16.neg.
  rewrite (swrap_id 16 (sampleA - sampleB)) by lia.
  destruct (Z.ltb_spec (sampleA - sampleB) 0).
  - rewrite swrap_id by lia. lia.
  - lia.
Qed.

(** C1: the samples 32767 and -32768 differ by 65535, yet the 16-bit
    subtraction of the loop wraps to -1 and the difference it compares
    with the tolerance is 1: the sample is not counted as a large diff and
    the comparison of the two one-sample buffers passes.  The same happens
    for -32768 and 0, whose difference -32768 has no 16-bit negation. *)
Theorem lossy_diff_wraps_on_far_samples :
  let pcmA := [xff; x7f] in
  let pcmB := [x00; x80] in
  sample16 pcmA 0 = Ok 32767 /\
  sample16 pcmB 0 = Ok (-32768) /\
  Z.abs (32767 - -32768) = 65535 /\
  sample_diff 32767 (-32768) = 1 /\
  lossy_loop 1 0 pcmA pcmB 0 0 = Ok (0, 1) /\
  CompareLossySamples 0 pcmA pcmB BitDepth16 1 newT = (Ok tt, newT) /\
  sample_diff (-32768) 0 = -32768 /\
  lossy_loop 1 0 pcmB [x00; x00] 0 0 = Ok (0, 0).
Proof. vm_compute. repeat split; reflexivity. Qed.

(** ** The frames the diagnostic pass looks at *)

(** C2: two buffers of two 16-bit mono frames that differ in the last
    frame only: the loop of [ShowDiffs] stops before that frame and nothing
    is reported, whatever the fuel beyond the two rounds it needs.  The
    same buffers cut to their first differing frame are not examined at
    all. *)
Theorem ShowDiffs_skips_last_frame (fuel : nat) :
  let expected := [x00; x00; x00; x00] in
  let actual := [x00; x00; x01; x00] in
  ShowDiffs (S (S fuel)) "label" expected actual BitDepth16 1 5 newT
  = (Ok tt, newT) /\
  ShowDiffs (S fuel) "label" [x00; x00] [x01; x00] BitDepth16 1 5 newT
  = (Ok tt, newT) /\
  ShowDiffs (S (S (S fuel))) "label" (expected ++ [x00; x00])
            (actual ++ [x00; x00]) BitDepth16 1 5 newT
  = (Ok tt, mkT false [FrameDiff "label" 1 [x00; x00] [x01; x00]]).
Proof. repeat split; reflexivity. Qed.

(** ** Counting *)

Lemma count_where_bounds (p : Z -> bool) (n : nat) :
  forall idx, 0 <= count_where p idx n <= Z.of_nat n.
Proof.
  induction n as [|n IH]; intros idx; cbn [count_where]; [lia|].
  specialize (IH (idx + 1)). destruct (p idx); lia.
Qed.

Lemma count_where_le (p q : Z -> bool) (n : nat) :
  forall idx,
    (forall i, idx <= i < idx + Z.of_nat n -> p i = true -> q i = true) ->
    count_where p idx n <= count_where q idx n.
Proof.
  induction n as [|n IH]; intros idx H; cbn [count_where]; [lia|].
  assert (IH' : count_where p (idx + 1) n <= count_where q (idx + 1) n).
  { apply IH. intros i Hi. apply H. lia. }
  destruct (p idx) eqn:Ep.
  - rewrite (H idx) by (try exact Ep; lia). lia.
  - destruct (q idx); lia.
Qed.

Lemma count_where_ext (p q : Z -> bool) (n : nat) (idx : Z) :
  (forall i, idx <= i < idx + Z.of_nat n -> p i = q i) ->
  count_where p idx n = count_where q idx n.
Proof.
  intros H. apply Z.le_antisymm; apply count_where_le; intros i Hi Hp.
  - rewrite <- H by exact Hi. exact Hp.
  - rewrite H by exact Hi. exact Hp.
Qed.

Lemma count_where_none (p : Z -> bool) (n : nat) (idx : Z) :
  (forall i, idx <= i < idx + Z.of_nat n -> p i = false) ->
  count_where p idx n = 0.
Proof.
  intros H.
  pose proof (count_where_le p (fun _ => false) n idx) as Hle.
  pose proof (count_where_bounds p n idx).
  assert (Hz : count_where (fun _ => false) idx n = 0).
  { clear. revert idx. induction n as [|n IH]; intros idx; cbn [count_where];
      [reflexivity|]. rewrite IH. reflexivity. }
  rewrite Hz in Hle.
  assert (count_where p idx n <= 0); [|lia].
  apply Hle. intros i Hi Hp. rewrite H in Hp by exact Hi. discriminate.
Qed.

(** ** The loop of the lossy comparator *)

Lemma index_ok (s : list byte) (i : Z) :
  0 <= i < len s -> exists x, index s i = Ok x.
Proof.
  intros Hi. unfold index.
  destruct (Z.leb_spec 0 i); [|lia].
  destruct (Z.ltb_spec i (len s)); [|lia]. simpl.
  destruct (s !! Z.to_nat i) as [x|] eqn:E.
  - exists x. reflexivity.
  - apply lookup_ge_None in E. unfold len in *. lia.
Qed.

Lemma Uint16_sampleAt (buf : list byte) (i : Z) :
  0 <= i -> 2 * i + 2 <= len buf ->
  exists u, Uint16 buf (i * 2) = Ok u /\ int16 u = sampleAt buf i.
Proof.
  intros Hi Hlen. unfold sampleAt, sample16.
  replace (2 * i) with (i * 2) by lia.
  unfold Uint16.
  destruct (Z.leb_spec 0 (i * 2)); [|lia].
  destruct (Z.ltb_spec (i * 2 + 1) (len buf)); [|lia]. simpl.
  destruct (index_ok buf (i * 2)) as [x0 E0]; [lia|].
  destruct (index_ok buf (i * 2 + 1)) as [x1 E1]; [lia|].
  rewrite E0, E1. simpl. eexists. split; reflexivity.
Qed.

Lemma lossy_loop_count (pcmA pcmB : list byte) :
  len pcmA <= GoInt.maxInt ->
  forall (n : nat) (idx largeDiffs maxDiff : Z),
    0 <= idx ->
    2 * (idx + Z.of_nat n) <= len pcmA ->
    2 * (idx + Z.of_nat n) <= len pcmB ->
    0 <= largeDiffs -> largeDiffs + Z.of_nat n <= GoInt.maxInt ->
    exists maxDiff',
      lossy_loop n idx pcmA pcmB largeDiffs maxDiff
      = Ok (largeDiffs
            + count_where (fun i => loop_diff pcmA pcmB i >? maxDiffPerSample)
                          idx n,
            maxDiff').
Proof.
  intros Hmax.
  induction n as [|n IH]; intros idx largeDiffs maxDiff Hidx HA HB Hld Hsum.
  - exists maxDiff. cbn [lossy_loop count_where]. rewrite Z.add_0_r.
    reflexivity.
  - cbn [lossy_loop count_where].
    assert (Hoff : GoInt.mul idx 2 = idx * 2).
    { apply wrap_id. unfold GoInt.minInt, GoInt.maxInt in *. lia. }
    rewrite Hoff.
    destruct (Uint16_sampleAt pcmA idx) as [ua [Ea Sa]]; try lia.
    destruct (Uint16_sampleAt pcmB idx) as [ub [Eb Sb]]; try lia.
    rewrite Ea, Eb. cbn [bind_result]. rewrite Sa, Sb.
    fold (loop_diff pcmA pcmB idx).
    destruct (loop_diff pcmA pcmB idx >? maxDiffPerSample).
    + assert (Hinc : GoInt.add largeDiffs 1 = largeDiffs + 1).
      { apply wrap_id. unfold GoInt.minInt, GoInt.maxInt in *. lia. }
      rewrite Hinc.
      destruct (IH (idx + 1) (largeDiffs + 1)
                  (if loop_diff pcmA pcmB idx >? maxDiff
                   then loop_diff pcmA pcmB idx else maxDiff))
        as [md' E]; try lia.
      exists md'. rewrite E. f_equal. f_equal. lia.
    + destruct (IH (idx + 1) largeDiffs
                  (if loop_diff pcmA pcmB idx >? maxDiff
                   then loop_diff pcmA pcmB idx else maxDiff))
        as [md' E]; try lia.
      exists md'. rewrite E. f_equal.
Qed.

(** For two buffers of one length the lossy comparator counts the samples
    whose computed difference exceeds the tolerance and compares the count
    with a hundredth of the number of samples. *)
Lemma lossy_equal_length (fuel : nat) (pcmA pcmB : list byte) (channels : Z) :
  len pcmA = len pcmB -> len pcmA <= GoInt.maxInt ->
  0 <= channels -> 1152 * channels * 2 <= GoInt.maxInt ->
  let numSamples := Z.quot (len pcmA) 2 in
  let largeDiffs :=
    count_where (fun i => loop_diff pcmA pcmB i >? maxDiffPerSample)
                0 (Z.to_nat numSamples) in
  let run := CompareLossySamples fuel pcmA pcmB BitDepth16 channels newT in
  (largeDiffs <= Z.quot numSamples 100 -> run = (Ok tt, newT)) /\
  (Z.quot numSamples 100 < largeDiffs ->
   failed (snd run) = true /\
   existsb is_lossy_mismatch (output (snd run)) = true).
Proof.
  intros Hlen Hmax Hch Htol numSamples largeDiffs run.
  pose proof (len_nonneg pcmA) as HA.
  assert (Hvals := lossy_length_values pcmA pcmB channels).
  destruct Hvals as [Etol Ediff];
    try (unfold GoInt.minInt, GoInt.maxInt in *; lia).
  cbv zeta in Ediff.
  assert (Hq : 0 <= numSamples /\ 2 * numSamples <= len pcmA).
  { subst numSamples. pose proof (Z.quot_pos (len pcmA) 2).
    pose proof (Z.mul_quot_le (len pcmA) 2). lia. }
  assert (Hq100 : 0 <= Z.quot numSamples 100 <= numSamples).
  { pose proof (Z.quot_pos numSamples 100).
    pose proof (Z.mul_quot_le numSamples 100). lia. }
  assert (Erun : exists maxDiff,
    run = (if largeDiffs >? Z.quot numSamples 100
           then bind (Errorf (LossyMismatch largeDiffs numSamples
                                            maxDiffPerSample maxDiff))
                     (fun _ => ShowDiffs fuel "lossy comparison" pcmA pcmB
                                 BitDepth16 channels defaultMaxDiffSamples)
                     newT
           else (Ok tt, newT))).
  { subst run. unfold CompareLossySamples.
    change (negb (BitDepth16 =? BitDepth16)) with false. cbv iota zeta.
    rewrite Etol, Ediff. rewrite <- Hlen, Z.sub_diag.
    change (Z.abs 0) with 0.
    destruct (Z.gtb_spec 0 (1152 * channels * 2)); [lia|].
    change (0 >? 0) with false. cbv iota.
    rewrite Z.min_id.
    assert (Hns : GoInt.quot (len pcmA) 2 = numSamples).
    { unfold GoInt.quot. apply wrap_id.
      unfold GoInt.minInt, GoInt.maxInt in *. fold numSamples. lia. }
    rewrite Hns.
    assert (Hml : GoInt.quot numSamples lossyLargeDiffPct
                  = Z.quot numSamples 100).
    { unfold GoInt.quot, lossyLargeDiffPct. apply wrap_id.
      unfold GoInt.minInt, GoInt.maxInt in *. lia. }
    rewrite Hml.
    destruct (lossy_loop_count pcmA pcmB Hmax (Z.to_nat numSamples) 0 0 0)
      as [maxDiff Eloop]; try lia.
    exists maxDiff. unfold bind at 1. unfold ret at 1. cbv iota beta.
    unfold bind at 1. unfold lift at 1. rewrite Eloop. cbv iota beta.
    rewrite Z.add_0_l. fold largeDiffs.
    destruct (largeDiffs >? Z.quot numSamples 100); reflexivity. }
  destruct Erun as [maxDiff Erun]. split.
  - intros Hle. rewrite Erun.
    destruct (Z.gtb_spec largeDiffs (Z.quot numSamples 100)); [lia|reflexivity].
  - intros Hgt. rewrite Erun.
    destruct (Z.gtb_spec largeDiffs (Z.quot numSamples 100)); [|lia].
    unfold bind, Errorf. cbv iota beta.
    match goal with
    | |- context [ShowDiffs ?f ?l ?e ?a ?bd ?ch ?md ?t] =>
        destruct (ShowDiffs_adds_frames f l e a bd ch md t) as [Hf [fr [Ho _]]];
        destruct (ShowDiffs f l e a bd ch md t) as [r t2]
    end.
    simpl in Hf, Ho |- *. rewrite Hf, Ho. split; reflexivity.
Qed.

Lemma loop_diff_exact (pcmA pcmB : list byte) (i : Z) :
  exact_diff pcmA pcmB i < 2 ^ 15 ->
  loop_diff pcmA pcmB i = exact_diff pcmA pcmB i.
Proof. apply sample_diff_exact. Qed.

Lemma quot_100 (n : Z) :
  0 <= n -> 100 * Z.quot n 100 <= n < 100 * Z.quot n 100 + 100.
Proof.
  intros Hn. rewrite Z.quot_div_nonneg by lia.
  pose proof (Z.div_mod n 100). pose proof (Z.mod_pos_bound n 100). lia.
Qed.

(** ** The tolerance of the lossy comparator *)

(** C4: for two 16-bit buffers of one length (the length of a slice, the
    channel count not negative and its tolerance an [int]), with the
    differences of the samples taken as exact integers:
    - if every sample differs by exactly 2, nothing is reported;
    - if the samples that differ by 3 are more than 1% of the samples, the
      test is marked as failed and the lossy-mismatch message is written;
    - if no sample differs by more than 3 and those that differ by 3 are
      fewer than 1% of the samples, nothing is reported. *)
Theorem lossy_tolerance_boundary (fuel : nat) (pcmA pcmB : list byte)
    (channels : Z) :
  len pcmA = len pcmB -> len pcmA <= GoInt.maxInt ->
  0 <= channels -> 1152 * channels * 2 <= GoInt.maxInt ->
  let numSamples := Z.quot (len pcmA) 2 in
  let threes :=
    count_where (fun i => exact_diff pcmA pcmB i =? 3)
                0 (Z.to_nat numSamples) in
  let run := CompareLossySamples fuel pcmA pcmB BitDepth16 channels newT in
  ((forall i, 0 <= i < numSamples -> exact_diff pcmA pcmB i = 2) ->
   run = (Ok tt, newT)) /\
  (numSamples < 100 * threes ->
   failed (snd run) = true /\
   existsb is_lossy_mismatch (output (snd run)) = true) /\
  ((forall i, 0 <= i < numSamples -> exact_diff pcmA pcmB i <= 3) ->
   100 * threes < numSamples ->
   run = (Ok tt, newT)).
Proof.
  intros Hlen Hmax Hch Htol numSamples threes run.
  destruct (lossy_equal_length fuel pcmA pcmB channels Hlen Hmax Hch Htol)
    as [Hpass Hfail].
  fold numSamples run in Hpass, Hfail.
  set (largeDiffs :=
         count_where (fun i => loop_diff pcmA pcmB i >? maxDiffPerSample)
                     0 (Z.to_nat numSamples)) in *.
  assert (Hn : 0 <= numSamples).
  { subst numSamples. apply Z.quot_pos; [apply len_nonneg|lia]. }
  pose proof (quot_100 numSamples Hn) as Hq.
  split; [|split].
  - intros Hall. apply Hpass.
    assert (E : largeDiffs = 0).
    { apply count_where_none. intros i Hi.
      rewrite loop_diff_exact by (rewrite Hall by lia; reflexivity).
      rewrite Hall by lia. reflexivity. }
    lia.
  - intros Hmany. apply Hfail.
    assert (Hle : threes <= largeDiffs).
    { apply count_where_le. intros i Hi H3.
      apply Z.eqb_eq in H3.
      rewrite loop_diff_exact by (rewrite H3; reflexivity).
      rewrite H3. reflexivity. }
    lia.
  - intros Hall Hfew. apply Hpass.
    assert (E : largeDiffs = threes).
    { apply count_where_ext. intros i Hi.
      assert (Hd : 0 <= exact_diff pcmA pcmB i <= 3).
      { split; [unfold exact_diff; lia|apply Hall; lia]. }
      rewrite loop_diff_exact by lia.
      unfold maxDiffPerSample.
      destruct (Z.gtb_spec (exact_diff pcmA pcmB i) 2);
        destruct (Z.eqb_spec (exact_diff pcmA pcmB i) 3); lia || reflexivity. }
    lia.
Qed.

Lemma lossy_tolerance_boundary_witness :
  let pcmA := [x02; x00; x00; x00] in
  let pcmB := [x00; x00; x02; x00] in
  (len pcmA = len pcmB /\ len pcmA <= GoInt.maxInt /\
   0 <= 2 /\ 1152 * 2 * 2 <= GoInt.maxInt) /\
  CompareLossySamples 0 pcmA pcmB BitDepth16 2 newT = (Ok tt, newT).
Proof.
  intros pcmA pcmB.
  assert (H1 : len pcmA = len pcmB) by reflexivity.
  assert (H2 : len pcmA <= GoInt.maxInt) by (vm_compute; discriminate).
  assert (H3 : 0 <= 2) by lia.
  assert (H4 : 1152 * 2 * 2 <= GoInt.maxInt) by (vm_compute; discriminate).
  split; [auto|].
  apply (proj1 (lossy_tolerance_boundary 0 pcmA pcmB 2 H1 H2 H3 H4)).
  intros i Hi. change (Z.quot (len pcmA) 2) with 2 in Hi.
  assert (Hc : i = 0 \/ i = 1) by lia.
  destruct Hc as [->| ->]; reflexivity.
Defined.

(** ** The loop of the exact comparator *)

Lemma count_where_pos (p : Z -> bool) (n : nat) :
  forall idx,
    0 < count_where p idx n <->
    exists i, idx <= i < idx + Z.of_nat n /\ p i = true.
Proof.
  induction n as [|n IH]; intros idx; cbn [count_where].
  - split; [lia|]. intros [i [Hi _]]. lia.
  - pose proof (count_where_bounds p n (idx + 1)) as Hb.
    split.
    + intros Hpos. destruct (p idx) eqn:Ep.
      * exists idx. split; [lia|exact Ep].
      * destruct (proj1 (IH (idx + 1))) as [i [Hi Hp]]; [lia|].
        exists i. split; [lia|exact Hp].
    + intros [i [Hi Hp]]. destruct (Z.eq_dec i idx) as [->|Hne].
      * rewrite Hp. lia.
      * assert (0 < count_where p (idx + 1) n).
        { apply IH. exists i. split; [lia|exact Hp]. }
        destruct (p idx); lia.
Qed.

Lemma find_from_first (p : Z -> bool) (n : nat) :
  forall idx,
    (exists i, idx <= i < idx + Z.of_nat n /\ p i = true) ->
    idx <= find_from p idx n < idx + Z.of_nat n /\
    p (find_from p idx n) = true /\
    forall j, idx <= j < find_from p idx n -> p j = false.
Proof.
  induction n as [|n IH]; intros idx [i [Hi Hp]]; [lia|].
  cbn [find_from]. destruct (p idx) eqn:Ep.
  - split; [lia|]. split; [exact Ep|]. intros j Hj. lia.
  - destruct (IH (idx + 1)) as [Hr [Hpr Hbefore]].
    + exists i. split; [|exact Hp].
      destruct (Z.eq_dec i idx) as [->|]; [congruence|lia].
    + split; [lia|]. split; [exact Hpr|].
      intros j Hj. destruct (Z.eq_dec j idx) as [->|]; [exact Ep|].
      apply Hbefore. lia.
Qed.

Lemma lossless_loop_count (expected actual : list byte) :
  forall (n : nat) (idx differences firstDiff : Z),
    0 <= idx ->
    idx + Z.of_nat n <= len expected ->
    idx + Z.of_nat n <= len actual ->
    0 <= differences -> differences + Z.of_nat n <= GoInt.maxInt ->
    lossless_loop n idx expected actual differences firstDiff
    = Ok (differences + count_where (differ_at expected actual) idx n,
          if firstDiff =? -1
          then find_from (differ_at expected actual) idx n
          else firstDiff).
Proof.
  induction n as [|n IH]; intros idx differences firstDiff Hidx He Ha Hd Hsum.
  - cbn [lossless_loop count_where find_from]. rewrite Z.add_0_r.
    destruct (Z.eqb_spec firstDiff (-1)) as [->|]; reflexivity.
  - cbn [lossless_loop count_where find_from]. unfold differ_at at 1 3.
    destruct (index_ok expected idx) as [x Ex]; [lia|].
    destruct (index_ok actual idx) as [y Ey]; [lia|].
    rewrite Ex, Ey. cbn [bind_result].
    destruct (negb (Byte.eqb x y)).
    + assert (Hinc : GoInt.add differences 1 = differences + 1).
      { apply wrap_id. unfold GoInt.minInt, GoInt.maxInt in *. lia. }
      rewrite Hinc, IH by lia. f_equal. f_equal; [lia|].
      destruct (Z.eqb_spec firstDiff (-1)) as [->|Hne].
      * destruct (Z.eqb_spec idx (-1)); [lia|reflexivity].
      * destruct (Z.eqb_spec firstDiff (-1)); [contradiction|reflexivity].
    + rewrite IH by lia. reflexivity.
Qed.

Lemma differ_at_lookup (expected actual : list byte) (i : Z) :
  0 <= i < Z.min (len expected) (len actual) ->
  differ_at expected actual i = true <->
  expected !! Z.to_nat i <> actual !! Z.to_nat i.
Proof.
  intros Hi. unfold differ_at, index.
  destruct (Z.leb_spec 0 i); [|lia].
  destruct (Z.ltb_spec i (len expected)); [|lia].
  destruct (Z.ltb_spec i (len actual)); [|lia]. simpl.
  destruct (expected !! Z.to_nat i) as [x|] eqn:Ex.
  2: { apply lookup_ge_None in Ex. unfold len in *. lia. }
  destruct (actual !! Z.to_nat i) as [y|] eqn:Ey.
  2: { apply lookup_ge_None in Ey. unfold len in *. lia. }
  destruct (Byte.eqb x y) eqn:E; simpl.
  - apply byte_eqb_eq in E. subst. split; [discriminate|congruence].
  - split; [|reflexivity]. intros _ Heq. inversion Heq; subst.
    rewrite (proj2 (byte_eqb_eq y y) eq_refl) in E. discriminate.
Qed.

Lemma differ_at_false (expected actual : list byte) (i : Z) :
  0 <= i < Z.min (len expected) (len actual) ->
  differ_at expected actual i = false ->
  expected !! Z.to_nat i = actual !! Z.to_nat i.
Proof.
  intros Hi. unfold differ_at, index.
  destruct (Z.leb_spec 0 i); [|lia].
  destruct (Z.ltb_spec i (len expected)); [|lia].
  destruct (Z.ltb_spec i (len actual)); [|lia]. simpl.
  destruct (expected !! Z.to_nat i) as [x|] eqn:Ex.
  2: { apply lookup_ge_None in Ex. unfold len in *. lia. }
  destruct (actual !! Z.to_nat i) as [y|] eqn:Ey.
  2: { apply lookup_ge_None in Ey. unfold len in *. lia. }
  destruct (Byte.eqb x y) eqn:E; simpl; [|discriminate].
  apply byte_eqb_eq in E. subst. reflexivity.
Qed.

Lemma quot_bound (a d : Z) :
  d <> 0 -> Z.abs (Z.quot a d) <= Z.abs a.
Proof.
  intros Hd. rewrite <- Z.quot_abs by exact Hd.
  rewrite Z.quot_div_nonneg by lia.
  apply Z.div_le_upper_bound; [lia|]. nia.
Qed.

(** ** The exact comparator *)

(** What the exact comparator does, for a bytes-per-sample and a channel
    count that are not zero: it counts the differing bytes of the common
    length, and when there are some it reports them with the index of the
    first one and goes on to the frame reports. *)
Lemma lossless_run (fuel : nat) (label : string) (expected actual : list byte)
    (bitDepth channels : Z) :
  len expected <= GoInt.maxInt -> len actual <= GoInt.maxInt ->
  PCMBytesPerSample bitDepth <> 0 -> channels <> 0 ->
  let minLen := Z.min (len expected) (len actual) in
  let differences :=
    count_where (differ_at expected actual) 0 (Z.to_nat minLen) in
  let firstDiff :=
    find_from (differ_at expected actual) 0 (Z.to_nat minLen) in
  CompareLosslessSamples fuel label expected actual bitDepth channels newT
  = if differences >? 0 then
      ShowDiffs fuel label expected actual bitDepth channels
        defaultMaxDiffSamples
        (mkT true
           [PCMMismatch label differences minLen firstDiff
              (Z.quot (Z.quot firstDiff (PCMBytesPerSample bitDepth))
                      channels)])
    else (Ok tt, newT).
Proof.
  intros He Ha Hbps Hch minLen differences firstDiff.
  pose proof (len_nonneg expected). pose proof (len_nonneg actual).
  unfold CompareLosslessSamples. fold minLen.
  unfold bind at 1. unfold lift at 1.
  rewrite lossless_loop_count by (unfold GoInt.maxInt in *; lia).
  change (-1 =? -1) with true. cbv iota beta. rewrite Z.add_0_l.
  fold differences firstDiff.
  destruct (Z.gtb_spec differences 0) as [Hpos|Hzero]; [|reflexivity].
  destruct (find_from_first (differ_at expected actual) (Z.to_nat minLen) 0)
    as [Hfd _].
  { apply count_where_pos. fold differences. lia. }
  fold firstDiff in Hfd.
  pose proof (quot_bound firstDiff (PCMBytesPerSample bitDepth) Hbps) as Hq1.
  pose proof (quot_bound (Z.quot firstDiff (PCMBytesPerSample bitDepth))
                channels Hch) as Hq2.
  unfold GoInt.div.
  destruct (Z.eqb_spec (PCMBytesPerSample bitDepth) 0); [contradiction|].
  destruct (Z.eqb_spec channels 0); [contradiction|].
  unfold bind, lift, Errorf. cbv beta iota.
  rewrite (wrap_id (Z.quot firstDiff (PCMBytesPerSample bitDepth)))
    by (unfold GoInt.minInt, GoInt.maxInt in *; lia).
  rewrite (wrap_id (Z.quot (Z.quot firstDiff (PCMBytesPerSample bitDepth))
                           channels))
    by (unfold GoInt.minInt, GoInt.maxInt in *; lia).
  reflexivity.
Qed.

(** C8: for two buffers (slices), a bytes-per-sample and a channel count
    that are not zero,
    - the exact comparator marks the test as failed exactly when some byte
      of the common length differs;
    - the message written then carries the index of the first differing
      byte and that index divided by the bytes per sample and then by the
      channel count; only frame reports follow it;
    - when one buffer is a prefix of the other, nothing is reported,
      whatever the length of the rest. *)
Theorem lossless_failure_iff (fuel : nat) (label : string)
    (expected actual : list byte) (bitDepth channels : Z) :
  len expected <= GoInt.maxInt -> len actual <= GoInt.maxInt ->
  PCMBytesPerSample bitDepth <> 0 -> channels <> 0 ->
  let minLen := Nat.min (length expected) (length actual) in
  let run :=
    CompareLosslessSamples fuel label expected actual bitDepth channels newT in
  (failed (snd run) = true <->
   exists i, (i < minLen)%nat /\ expected !! i <> actual !! i) /\
  (failed (snd run) = true ->
   exists (differences : Z) (firstDiff : nat) (frames : list message),
     output (snd run)
     = PCMMismatch label differences (Z.of_nat minLen) (Z.of_nat firstDiff)
         (Z.quot (Z.quot (Z.of_nat firstDiff) (PCMBytesPerSample bitDepth))
                 channels)
       :: frames /\
     forallb is_frame_diff frames = true /\
     (firstDiff < minLen)%nat /\
     expected !! firstDiff <> actual !! firstDiff /\
     forall j, (j < firstDiff)%nat -> expected !! j = actual !! j) /\
  (forall rest, actual = expected ++ rest \/ expected = actual ++ rest ->
   run = (Ok tt, newT)).
Proof.
  intros He Ha Hbps Hch minLen run.
  pose proof (lossless_run fuel label expected actual bitDepth channels
                He Ha Hbps Hch) as Hrun.
  cbv zeta in Hrun. fold run in Hrun.
  set (zmin := Z.min (len expected) (len actual)) in *.
  assert (Hzmin : zmin = Z.of_nat minLen)
    by (subst zmin minLen; unfold len; lia).
  set (p := differ_at expected actual) in *.
  set (differences := count_where p 0 (Z.to_nat zmin)) in *.
  set (firstDiff := find_from p 0 (Z.to_nat zmin)) in *.
  assert (Hp : forall i, (i < minLen)%nat ->
             (p (Z.of_nat i) = true <-> expected !! i <> actual !! i)).
  { intros i Hi. subst p.
    rewrite differ_at_lookup by (fold zmin; lia).
    rewrite Nat2Z.id. reflexivity. }
  assert (Hex : 0 < differences <->
                exists i, (i < minLen)%nat /\ expected !! i <> actual !! i).
  { subst differences. rewrite count_where_pos. split.
    - intros [i [Hi Hpi]]. exists (Z.to_nat i). split; [lia|].
      apply Hp; [lia|]. rewrite Z2Nat.id by lia. exact Hpi.
    - intros [i [Hi Hne]]. exists (Z.of_nat i). split; [lia|].
      apply Hp; assumption. }
  assert (Hfailed : failed (snd run) = true <-> 0 < differences).
  { rewrite Hrun. destruct (Z.gtb_spec differences 0) as [Hpos|Hz].
    - destruct (ShowDiffs_adds_frames fuel label expected actual bitDepth
                  channels defaultMaxDiffSamples
                  (mkT true
                     [PCMMismatch label differences zmin firstDiff
                        (Z.quot (Z.quot firstDiff (PCMBytesPerSample bitDepth))
                                channels)])) as [Hf _].
      rewrite Hf. simpl. split; [lia|reflexivity].
    - simpl. split; [discriminate|lia]. }
  split; [|split].
  - rewrite Hfailed. exact Hex.
  - intros Hf. apply Hfailed in Hf.
    destruct (find_from_first p (Z.to_nat zmin) 0) as [Hr [Hpr Hbefore]].
    { apply count_where_pos. exact Hf. }
    fold firstDiff in Hr, Hpr, Hbefore.
    rewrite Hrun. destruct (Z.gtb_spec differences 0) as [_|Hz]; [|lia].
    destruct (ShowDiffs_adds_frames fuel label expected actual bitDepth
                channels defaultMaxDiffSamples
                (mkT true
                   [PCMMismatch label differences zmin firstDiff
                      (Z.quot (Z.quot firstDiff (PCMBytesPerSample bitDepth))
                              channels)])) as [_ [frames [Ho Hfr]]].
    exists differences, (Z.to_nat firstDiff), frames.
    rewrite Ho. simpl. rewrite Z2Nat.id by lia. rewrite <- Hzmin.
    split; [reflexivity|]. split; [exact Hfr|]. split; [lia|]. split.
    + apply Hp; [lia|]. rewrite Z2Nat.id by lia. exact Hpr.
    + intros j Hj.
      rewrite <- (Nat2Z.id j). apply differ_at_false; [fold zmin; lia|].
      apply Hbefore. lia.
  - intros rest Hpre. rewrite Hrun.
    destruct (Z.gtb_spec differences 0) as [Hpos|_]; [|reflexivity].
    exfalso. apply Hex in Hpos. destruct Hpos as [i [Hi Hne]].
    apply Hne. subst minLen.
    destruct Hpre as [E|E]; rewrite E in Hi |- *;
      rewrite length_app in Hi.
    + rewrite lookup_app_l by lia. reflexivity.
    + rewrite lookup_app_l by lia. reflexivity.
Qed.

Lemma lossless_failure_iff_witness :
  let expected := [x01; x02; x03; x04] in
  let actual := [x01; x02; x09; x04; x07] in
  (len expected <= GoInt.maxInt /\ len actual <= GoInt.maxInt /\
   PCMBytesPerSample 16 <> 0 /\ 2 <> 0) /\
  (failed (snd (CompareLosslessSamples 3 "a vs b" expected actual 16 2 newT))
   = true <->
   exists i, (i < 4)%nat /\ expected !! i <> actual !! i).
Proof.
  intros expected actual.
  assert (H1 : len expected <= GoInt.maxInt) by (vm_compute; discriminate).
  assert (H2 : len actual <= GoInt.maxInt) by (vm_compute; discriminate).
  assert (H3 : PCMBytesPerSample 16 <> 0) by (vm_compute; discriminate).
  assert (H4 : 2 <> 0) by discriminate.
  split; [auto|].
  exact (proj1 (lossless_failure_iff 3 "a vs b" expected actual 16 2
                  H1 H2 H3 H4)).
Defined.

(** ** Mono to stereo *)

Lemma copy_at_app (done rest src : list byte) (off : Z) :
  off = len done -> (length src <= length rest)%nat ->
  copy_at (done ++ rest) off src
  = Ok (done ++ src ++ drop (length src) rest).
Proof.
  intros -> Hsrc. unfold copy_at. rewrite len_app.
  pose proof (len_nonneg done). pose proof (len_nonneg rest).
  destruct (Z.leb_spec 0 (len done)); [|lia].
  destruct (Z.leb_spec (len done) (len done + len rest)); [|lia].
  simpl. unfold len. rewrite Nat2Z.id. rewrite length_app.
  replace (length done + length rest - length done)%nat
    with (length rest) by lia.
  rewrite Nat.min_r by lia.
  rewrite take_app_length, firstn_all, drop_app_add. reflexivity.
Qed.

Lemma slice_ok (s : list byte) (lo hi : Z) :
  0 <= lo <= hi -> hi <= len s ->
  slice s lo hi = Ok (take (Z.to_nat (hi - lo)) (drop (Z.to_nat lo) s)).
Proof.
  intros Hlo Hhi. unfold slice.
  destruct (Z.leb_spec 0 lo); [|lia].
  destruct (Z.leb_spec lo hi); [|lia].
  destruct (Z.leb_spec hi (len s)); [|lia].
  reflexivity.
Qed.

Lemma length_take_drop (k j : nat) (m : list byte) :
  (j + k <= length m)%nat -> length (take k (drop j m)) = k.
Proof. intros H. rewrite length_take, length_drop. lia. Qed.

Lemma stereo_loop_app (bps : Z) (mono : list byte) :
  1 <= bps ->
  forall (n : nat) (idx : Z) (done rest : list byte),
    0 <= idx ->
    len done = idx * bps * 2 ->
    (idx + Z.of_nat n) * bps <= len mono ->
    Z.of_nat n * bps * 2 <= len rest ->
    len done + len rest <= GoInt.maxInt ->
    stereo_loop n idx bps mono (done ++ rest)
    = Ok (done
          ++ stereo_bytes n (Z.to_nat bps) (drop (Z.to_nat (idx * bps)) mono)
          ++ drop (n * (2 * Z.to_nat bps)) rest).
Proof.
  intros Hbps.
  induction n as [|n IH]; intros idx done rest Hidx Hdone Hmono Hrest Hmax.
  - reflexivity.
  - cbn [stereo_loop stereo_bytes].
    pose proof (len_nonneg done) as Hd. pose proof (len_nonneg rest) as Hr.
    pose proof (len_nonneg mono) as Hm.
    assert (Hall : (idx + Z.of_nat (S n)) * bps * 2 <= GoInt.maxInt) by lia.
    assert (Hin : 0 <= idx * bps <= (idx + 1) * bps) by nia.
    assert (Hnx : (idx + 1) * bps <= (idx + Z.of_nat (S n)) * bps) by nia.
    assert (W1 : GoInt.mul idx bps = idx * bps).
    { apply wrap_id. unfold GoInt.minInt, GoInt.maxInt in *. nia. }
    assert (W2 : GoInt.add idx 1 = idx + 1).
    { apply wrap_id. unfold GoInt.minInt, GoInt.maxInt in *. nia. }
    assert (W3 : GoInt.mul (idx + 1) bps = (idx + 1) * bps).
    { apply wrap_id. unfold GoInt.minInt, GoInt.maxInt in *. nia. }
    assert (W4 : GoInt.mul (idx * bps) 2 = len done).
    { rewrite Hdone. apply wrap_id.
      unfold GoInt.minInt, GoInt.maxInt in *. nia. }
    assert (W5 : GoInt.add (len done) bps = len done + bps).
    { apply wrap_id. unfold GoInt.minInt, GoInt.maxInt in *. nia. }
    rewrite W1, W2, W3, W4, W5.
    rewrite slice_ok by nia. cbn [bind_result].
    replace (Z.to_nat ((idx + 1) * bps - idx * bps)) with (Z.to_nat bps)
      by (f_equal; lia).
    set (k := Z.to_nat bps).
    set (m := drop (Z.to_nat (idx * bps)) mono).
    assert (Hk : length (take k m) = k).
    { subst m k. apply length_take_drop. unfold len in *. nia. }
    rewrite copy_at_app by (try reflexivity; rewrite Hk; unfold len in *; nia).
    cbn [bind_result]. rewrite Hk.
    rewrite (app_assoc done (take k m)).
    rewrite copy_at_app.
    + cbn [bind_result]. rewrite Hk, drop_drop.
      rewrite (app_assoc (done ++ take k m) (take k m)).
      rewrite IH.
      * f_equal. rewrite <- !app_assoc. do 3 f_equal.
        f_equal.
        -- subst m. rewrite drop_drop. f_equal. subst k.
           rewrite <- Z2Nat.inj_add by lia. f_equal. lia.
        -- rewrite drop_drop. f_equal. subst k. lia.
      * lia.
      * rewrite !len_app. unfold len in *. rewrite Hk. subst k. lia.
      * nia.
      * rewrite len_drop by (subst k; unfold len in *; nia). subst k. nia.
      * rewrite !len_app, len_drop by (subst k; unfold len in *; nia).
        unfold len in *. rewrite Hk. subst k. lia.
    + rewrite len_app. unfold len. rewrite Hk. subst k. lia.
    + rewrite Hk, length_drop. subst k. unfold len in *. nia.
Qed.

Lemma length_stereo_bytes (k : nat) :
  forall (n : nat) (m : list byte),
    (n * k <= length m)%nat ->
    length (stereo_bytes n k m) = (2 * (n * k))%nat.
Proof.
  induction n as [|n IH]; intros m Hm; [reflexivity|].
  cbn [stereo_bytes]. rewrite !length_app, IH.
  - rewrite length_take. lia.
  - rewrite length_drop. lia.
Qed.

(** Frame [i] of the expanded bytes: both halves are sample [i]. *)
Lemma stereo_bytes_frame (k : nat) :
  forall (n : nat) (m : list byte) (i : nat),
    (i < n)%nat -> (n * k <= length m)%nat ->
    take k (drop (2 * (i * k)) (stereo_bytes n k m)) = take k (drop (i * k) m)
    /\ take k (drop (2 * (i * k) + k) (stereo_bytes n k m))
       = take k (drop (i * k) m).
Proof.
  induction n as [|n IH]; intros m i Hi Hm; [lia|].
  cbn [stereo_bytes].
  assert (Hk : length (take k m) = k) by (rewrite length_take; lia).
  destruct i as [|i].
  - change (0 * k)%nat with 0%nat. change (2 * 0)%nat with 0%nat.
    rewrite Nat.add_0_l, !drop_0. split.
    + rewrite take_app_length' by (symmetry; exact Hk). reflexivity.
    + rewrite drop_app_length' by (symmetry; exact Hk).
      rewrite take_app_length' by (symmetry; exact Hk). reflexivity.
  - destruct (IH (drop k m) i) as [IHl IHr]; [lia|rewrite length_drop; lia|].
    rewrite app_assoc.
    assert (Hkk : length (take k m ++ take k m) = (k + k)%nat)
      by (rewrite length_app, Hk; reflexivity).
    replace (2 * (S i * k))%nat with (length (take k m ++ take k m)
                                      + 2 * (i * k))%nat by (rewrite Hkk; lia).
    rewrite <- Nat.add_assoc.
    rewrite !drop_app_add. rewrite drop_drop in IHl, IHr.
    replace (S i * k)%nat with (k + i * k)%nat by lia.
    split; assumption.
Qed.

(** For a depth of at least one byte per sample and a buffer whose
    expansion has an [int] length, [MonoToStereo] returns every complete
    sample of the input twice. *)
Lemma MonoToStereo_bytes (mono : list byte) (bitDepth : Z) :
  1 <= PCMBytesPerSample bitDepth ->
  2 * len mono <= GoInt.maxInt ->
  let bps := PCMBytesPerSample bitDepth in
  MonoToStereo mono bitDepth
  = Ok (stereo_bytes (Z.to_nat (len mono / bps)) (Z.to_nat bps) mono).
Proof.
  intros Hbps Hmax bps. fold bps in Hbps.
  pose proof (len_nonneg mono) as Hm.
  unfold MonoToStereo. fold bps. unfold GoInt.div.
  destruct (Z.eqb_spec bps 0); [lia|].
  rewrite Z.quot_div_nonneg by lia.
  set (numSamples := len mono / bps).
  assert (Hns : 0 <= numSamples /\ numSamples * bps <= len mono).
  { subst numSamples. pose proof (Z.div_pos (len mono) bps).
    pose proof (Z.mul_div_le (len mono) bps). lia. }
  assert (Hle : numSamples <= len mono) by nia.
  rewrite (wrap_id numSamples)
    by (unfold GoInt.minInt, GoInt.maxInt in *; lia).
  cbn [bind_result].
  assert (W1 : GoInt.mul numSamples bps = numSamples * bps).
  { apply wrap_id. unfold GoInt.minInt, GoInt.maxInt in *. lia. }
  assert (W2 : GoInt.mul (numSamples * bps) 2 = numSamples * bps * 2).
  { apply wrap_id. unfold GoInt.minInt, GoInt.maxInt in *. lia. }
  rewrite W1, W2. unfold make.
  destruct (Z.ltb_spec (numSamples * bps * 2) 0); [lia|].
  cbn [bind_result].
  set (buf := replicate (Z.to_nat (numSamples * bps * 2)) x00).
  assert (Hbuf : len buf = numSamples * bps * 2).
  { subst buf. unfold len. rewrite length_replicate. lia. }
  change buf with ([] ++ buf).
  rewrite (stereo_loop_app bps mono Hbps).
  - cbn [app]. rewrite Z.mul_0_l. change (Z.to_nat 0) with 0%nat.
    rewrite drop_0. rewrite (drop_ge buf) by (unfold len in Hbuf; nia).
    rewrite app_nil_r. reflexivity.
  - lia.
  - reflexivity.
  - lia.
  - rewrite Hbuf. lia.
  - rewrite Hbuf. change (len (@nil byte)) with 0. lia.
Qed.

(** C3: for a mono buffer of whole samples (its length a multiple of the
    bytes per sample, the length of its expansion an [int]) and every bit
    depth of the enumerated set, [MonoToStereo] returns a buffer of twice
    the length, and for every frame index [i] the left and the right
    sample of frame [i] of the result are the bytes of sample [i] of the
    input. *)
Theorem MonoToStereo_duplicates (mono : list byte) (bitDepth : Z) :
  enumerated bitDepth ->
  2 * len mono <= GoInt.maxInt ->
  len mono mod PCMBytesPerSample bitDepth = 0 ->
  let bps := PCMBytesPerSample bitDepth in
  exists stereo,
    MonoToStereo mono bitDepth = Ok stereo /\
    len stereo = 2 * len mono /\
    forall i, 0 <= i < len mono / bps ->
      exists sample,
        slice mono (i * bps) ((i + 1) * bps) = Ok sample /\
        len sample = bps /\
        slice stereo (2 * i * bps) (2 * i * bps + bps) = Ok sample /\
        slice stereo (2 * i * bps + bps) (2 * i * bps + 2 * bps) = Ok sample.
Proof.
  intros Hen Hmax Hmod bps.
  pose proof (PCMBytesPerSample_enumerated bitDepth Hen) as Hbps.
  fold bps in Hbps, Hmod.
  pose proof (len_nonneg mono) as Hm.
  set (numSamples := len mono / bps).
  assert (Hlen : len mono = numSamples * bps).
  { subst numSamples. pose proof (Z.div_mod (len mono) bps). lia. }
  assert (Hns : 0 <= numSamples) by (subst numSamples; apply Z.div_pos; lia).
  set (n := Z.to_nat numSamples). set (k := Z.to_nat bps).
  assert (Hnk : (n * k)%nat = length mono).
  { subst n k. unfold len in Hlen. nia. }
  exists (stereo_bytes n k mono). split; [|split].
  - apply MonoToStereo_bytes; [lia|exact Hmax].
  - unfold len. rewrite length_stereo_bytes by lia. unfold len in Hlen. lia.
  - intros i Hi.
    assert (Hi' : (Z.to_nat i < n)%nat) by (subst n; lia).
    destruct (stereo_bytes_frame k n mono (Z.to_nat i) Hi') as [Hl Hr]; [lia|].
    assert (Hik : Z.to_nat (i * bps) = (Z.to_nat i * k)%nat)
      by (subst k; rewrite Z2Nat.inj_mul by lia; reflexivity).
    assert (Hsz : len (stereo_bytes n k mono) = 2 * len mono).
    { unfold len. rewrite length_stereo_bytes by lia. unfold len in Hlen. lia. }
    exists (take k (drop (Z.to_nat i * k) mono)).
    split; [|split; [|split]].
    + rewrite slice_ok by nia.
      replace (Z.to_nat ((i + 1) * bps - i * bps)) with k by (subst k; lia).
      rewrite Hik. reflexivity.
    + unfold len. rewrite length_take_drop by nia. subst k. lia.
    + rewrite slice_ok by nia.
      replace (Z.to_nat (2 * i * bps + bps - 2 * i * bps)) with k
        by (subst k; lia).
      replace (Z.to_nat (2 * i * bps)) with (2 * (Z.to_nat i * k))%nat
        by (subst k; nia).
      rewrite Hl. reflexivity.
    + rewrite slice_ok by nia.
      replace (Z.to_nat (2 * i * bps + 2 * bps - (2 * i * bps + bps))) with k
        by (subst k; lia).
      replace (Z.to_nat (2 * i * bps + bps))
        with (2 * (Z.to_nat i * k) + k)%nat by (subst k; nia).
      rewrite Hr. reflexivity.
Qed.

Lemma MonoToStereo_duplicates_witness :
  let mono := [x01; x02; x03; x04; x05; x06] in
  (enumerated 24 /\ 2 * len mono <= GoInt.maxInt /\
   len mono mod PCMBytesPerSample 24 = 0) /\
  exists stereo,
    MonoToStereo mono 24 = Ok stereo /\
    len stereo = 2 * len mono /\
    forall i, 0 <= i < len mono / PCMBytesPerSample 24 ->
      exists sample,
        slice mono (i * PCMBytesPerSample 24) ((i + 1) * PCMBytesPerSample 24)
        = Ok sample /\
        len sample = PCMBytesPerSample 24 /\
        slice stereo (2 * i * PCMBytesPerSample 24)
              (2 * i * PCMBytesPerSample 24 + PCMBytesPerSample 24)
        = Ok sample /\
        slice stereo (2 * i * PCMBytesPerSample 24 + PCMBytesPerSample 24)
              (2 * i * PCMBytesPerSample 24 + 2 * PCMBytesPerSample 24)
        = Ok sample.
Proof.
  intros mono.
  assert (H1 : enumerated 24) by (unfold enumerated; simpl; tauto).
  assert (H2 : 2 * len mono <= GoInt.maxInt) by (vm_compute; discriminate).
  assert (H3 : len mono mod PCMBytesPerSample 24 = 0) by reflexivity.
  split; [auto|].
  exact (MonoToStereo_duplicates mono 24 H1 H2 H3).
Defined.

(** ** The comparators return *)

(** With a frame of at least one byte the loop of [ShowDiffs] ends: fuel
    above the common length is enough. *)
Lemma show_loop_returns (label : string) (expected actual : list byte)
    (frameSize maxDiffs : Z) :
  1 <= frameSize <= GoInt.maxInt ->
  len expected <= GoInt.maxInt -> len actual <= GoInt.maxInt ->
  maxDiffs <= GoInt.maxInt ->
  forall (fuel : nat) (idx shown : Z) (t : T),
    0 <= idx -> 0 <= shown ->
    Z.max 0 (Z.min (len expected) (len actual) - idx) < Z.of_nat fuel ->
    fst (show_loop fuel label expected actual frameSize maxDiffs idx shown t)
    = Ok tt.
Proof.
  intros Hfs He Ha Hmd.
  pose proof (len_nonneg expected) as Hne.
  pose proof (len_nonneg actual) as Hna.
  induction fuel as [|fuel IH]; intros idx shown t Hidx Hshown Hfuel; [lia|].
  cbn [show_loop].
  assert (Wsub : GoInt.sub (Z.min (len expected) (len actual)) frameSize
                 = Z.min (len expected) (len actual) - frameSize).
  { apply wrap_id. unfold GoInt.minInt, GoInt.maxInt in *. lia. }
  rewrite Wsub.
  destruct (Z.ltb_spec idx (Z.min (len expected) (len actual) - frameSize))
    as [Hlt|Hge]; [|reflexivity].
  destruct (Z.ltb_spec shown maxDiffs) as [Hsh|Hsh]; [|reflexivity].
  cbn [andb].
  assert (Wadd : GoInt.add idx frameSize = idx + frameSize).
  { apply wrap_id. unfold GoInt.minInt, GoInt.maxInt in *. lia. }
  assert (Winc : GoInt.add shown 1 = shown + 1).
  { apply wrap_id. unfold GoInt.minInt, GoInt.maxInt in *. lia. }
  rewrite Wadd, Winc.
  unfold bind, lift, ret, Logf, GoInt.div.
  rewrite !slice_ok by lia.
  destruct (Z.eqb_spec frameSize 0); [lia|].
  destruct (negb (bytes_Equal _ _)); apply IH; lia.
Qed.

Lemma ShowDiffs_returns (fuel : nat) (label : string)
    (expected actual : list byte) (bitDepth channels maxDiffs : Z) (t : T) :
  enumerated bitDepth -> 1 <= channels ->
  PCMBytesPerSample bitDepth * channels <= GoInt.maxInt ->
  len expected <= GoInt.maxInt -> len actual <= GoInt.maxInt ->
  maxDiffs <= GoInt.maxInt ->
  Z.min (len expected) (len actual) < Z.of_nat fuel ->
  fst (ShowDiffs fuel label expected actual bitDepth channels maxDiffs t)
  = Ok tt.
Proof.
  intros Hen Hch Hfs He Ha Hmd Hfuel.
  pose proof (PCMBytesPerSample_enumerated bitDepth Hen) as Hbps.
  pose proof (len_nonneg expected). pose proof (len_nonneg actual).
  unfold ShowDiffs.
  assert (W : GoInt.mul (PCMBytesPerSample bitDepth) channels
              = PCMBytesPerSample bitDepth * channels).
  { apply wrap_id. unfold GoInt.minInt, GoInt.maxInt in *. nia. }
  rewrite W. apply show_loop_returns; try assumption; lia.
Qed.

(** The exact comparator returns, for a depth of the enumerated set, at
    least one channel and fuel above the common length. *)
Lemma CompareLosslessSamples_returns (fuel : nat) (label : string)
    (expected actual : list byte) (bitDepth channels : Z) :
  enumerated bitDepth -> 1 <= channels ->
  PCMBytesPerSample bitDepth * channels <= GoInt.maxInt ->
  len expected <= GoInt.maxInt -> len actual <= GoInt.maxInt ->
  Z.min (len expected) (len actual) < Z.of_nat fuel ->
  fst (CompareLosslessSamples fuel label expected actual bitDepth channels newT)
  = Ok tt.
Proof.
  intros Hen Hch Hfs He Ha Hfuel.
  pose proof (PCMBytesPerSample_enumerated bitDepth Hen) as Hbps.
  rewrite lossless_run by (try assumption; lia).
  destruct (_ >? 0); [|reflexivity].
  apply ShowDiffs_returns; try assumption.
  vm_compute. discriminate.
Qed.

(** The lossy comparator returns, for at least one channel and fuel above
    the common length. *)
Lemma CompareLossySamples_returns (fuel : nat) (pcmA pcmB : list byte)
    (bitDepth channels : Z) (t : T) :
  1 <= channels -> 1152 * channels * 2 <= GoInt.maxInt ->
  len pcmA <= GoInt.maxInt -> len pcmB <= GoInt.maxInt ->
  Z.min (len pcmA) (len pcmB) < Z.of_nat fuel ->
  fst (CompareLossySamples fuel pcmA pcmB bitDepth channels t) = Ok tt.
Proof.
  intros Hch Htol HA HB Hfuel.
  pose proof (len_nonneg pcmA) as HnA. pose proof (len_nonneg pcmB) as HnB.
  unfold CompareLossySamples.
  destruct (Z.eqb_spec bitDepth BitDepth16) as [->|Hne]; [|reflexivity].
  cbn [negb]. cbv zeta.
  destruct (_ >? GoInt.mul _ 2); [reflexivity|].
  set (numSamples := GoInt.quot (Z.min (len pcmA) (len pcmB)) 2).
  assert (Hns : numSamples = Z.min (len pcmA) (len pcmB) / 2).
  { subst numSamples. unfold GoInt.quot.
    rewrite Z.quot_div_nonneg by lia. apply wrap_id.
    pose proof (Z.div_pos (Z.min (len pcmA) (len pcmB)) 2).
    pose proof (Z.mul_div_le (Z.min (len pcmA) (len pcmB)) 2).
    unfold GoInt.minInt, GoInt.maxInt in *. lia. }
  assert (Hb : 0 <= numSamples /\ 2 * numSamples <= Z.min (len pcmA) (len pcmB)).
  { rewrite Hns.
    pose proof (Z.div_pos (Z.min (len pcmA) (len pcmB)) 2).
    pose proof (Z.mul_div_le (Z.min (len pcmA) (len pcmB)) 2). lia. }
  unfold bind at 1.
  match goal with
  | |- context [(if ?c then Logf ?m else ret tt) t] =>
      destruct ((if c then Logf m else ret tt) t) as [r1 t1] eqn:E1;
      assert (Hr1 : r1 = Ok tt)
        by (destruct c; inversion E1; reflexivity)
  end.
  subst r1. unfold bind at 1. unfold lift at 1.
  destruct (lossy_loop_count pcmA pcmB HA (Z.to_nat numSamples) 0 0 0)
    as [maxDiff Eloop]; try (unfold GoInt.maxInt in *; lia).
  rewrite Eloop. cbv iota beta.
  destruct (_ >? GoInt.quot numSamples lossyLargeDiffPct); [|reflexivity].
  unfold bind, Errorf. cbv iota beta.
  apply ShowDiffs_returns; try assumption; try lia.
  - enumerated_depth.
  - bytes_per_sample. unfold GoInt.maxInt in *. lia.
  - vm_compute. discriminate.
Qed.

(** ** The frames that are reported *)

(** Every frame that [ShowDiffs] reports ends strictly before the common
    length: the last complete frame of two buffers of whole frames is never
    among them. *)
Lemma show_loop_before_end (label : string) (expected actual : list byte)
    (frameSize maxDiffs : Z) :
  1 <= frameSize <= GoInt.maxInt ->
  len expected <= GoInt.maxInt -> len actual <= GoInt.maxInt ->
  forall (fuel : nat) (idx shown : Z) (t : T),
    0 <= idx ->
    exists l,
      output (snd (show_loop fuel label expected actual frameSize maxDiffs
                             idx shown t))
      = output t ++ l /\
      Forall (frame_before_end frameSize (Z.min (len expected) (len actual))) l.
Proof.
  intros Hfs He Ha.
  pose proof (len_nonneg expected) as Hne.
  pose proof (len_nonneg actual) as Hna.
  assert (Hnil : forall t : T, exists l,
             output t = output t ++ l /\
             Forall (frame_before_end frameSize
                       (Z.min (len expected) (len actual))) l).
  { intros t. exists []. rewrite app_nil_r. split; [reflexivity|constructor]. }
  induction fuel as [|fuel IH]; intros idx shown t Hidx; [apply Hnil|].
  cbn [show_loop].
  assert (Wsub : GoInt.sub (Z.min (len expected) (len actual)) frameSize
                 = Z.min (len expected) (len actual) - frameSize).
  { apply wrap_id. unfold GoInt.minInt, GoInt.maxInt in *. lia. }
  rewrite Wsub.
  destruct (Z.ltb_spec idx (Z.min (len expected) (len actual) - frameSize))
    as [Hlt|Hge]; [|apply Hnil].
  destruct (shown <? maxDiffs); [|apply Hnil].
  cbn [andb].
  assert (Wadd : GoInt.add idx frameSize = idx + frameSize).
  { apply wrap_id. unfold GoInt.minInt, GoInt.maxInt in *. lia. }
  rewrite Wadd.
  unfold bind, lift, ret, Logf, GoInt.div.
  rewrite !slice_ok by lia.
  destruct (Z.eqb_spec frameSize 0); [lia|].
  destruct (negb (bytes_Equal _ _)); [|apply IH; lia].
  cbv iota beta.
  match goal with
  | |- context [show_loop fuel label expected actual frameSize maxDiffs
                          ?i ?s ?t'] =>
      destruct (IH i s t') as [l [Ho Hl]]; [lia|]
  end.
  eexists. split.
  - rewrite Ho. cbn [output]. rewrite <- app_assoc. reflexivity.
  - constructor; [|exact Hl]. cbn [frame_before_end].
    assert (Hq : GoInt.wrap (Z.quot idx frameSize) = idx / frameSize).
    { rewrite Z.quot_div_nonneg by lia. apply wrap_id.
      pose proof (Z.div_pos idx frameSize).
      pose proof (Z.mul_div_le idx frameSize).
      unfold GoInt.minInt, GoInt.maxInt in *. nia. }
    rewrite Hq. pose proof (Z.mul_div_le idx frameSize). nia.
Qed.

(** * Further properties *)

(** ** Bytes per sample *)

(** X1: On every multiple of eight, the enumerated depths included, the bytes
    per sample are the bit depth divided by eight. *)
Theorem PCMBytesPerSample_byte_aligned (k : Z) :
  PCMBytesPerSample (8 * k) = k.
Proof.
  unfold PCMBytesPerSample, BitDepth4, BitDepth8, BitDepth12, BitDepth16,
    BitDepth20, BitDepth24, BitDepth32, bitsPerByte.
  repeat match goal with
         | |- context [?a =? ?c] => destruct (Z.eqb_spec a c)
         end; cbn [orb]; try lia.
  rewrite Z.mul_comm. apply Z.quot_mul. lia.
Qed.

Lemma bytes_per_sample_zero (bitDepth : Z) :
  -8 < bitDepth < 8 -> bitDepth <> 4 -> PCMBytesPerSample bitDepth = 0.
Proof.
  intros Hr H4. unfold PCMBytesPerSample.
  replace (bitDepth =? BitDepth4) with false
    by (symmetry; apply Z.eqb_neq; exact H4).
  repeat match goal with
         | |- context [bitDepth =? ?c] =>
             replace (bitDepth =? c) with false
               by (symmetry; apply Z.eqb_neq; unfold c; lia)
         end.
  cbn [orb]. apply Z.quot_small_iff; unfold bitsPerByte; lia.
Qed.

(** X2: The bytes per sample are zero exactly for the depths strictly between
    -8 and 8 other than 4. *)
Theorem PCMBytesPerSample_zero_iff (bitDepth : Z) :
  PCMBytesPerSample bitDepth = 0 <-> -8 < bitDepth < 8 /\ bitDepth <> 4.
Proof.
  unfold PCMBytesPerSample, BitDepth4, BitDepth8, BitDepth12, BitDepth16,
    BitDepth20, BitDepth24, BitDepth32, bitsPerByte.
  repeat match goal with
         | |- context [?a =? ?c] => destruct (Z.eqb_spec a c)
         end; cbn [orb]; try lia.
  rewrite Z.quot_small_iff by lia. lia.
Qed.

(** ** The synthesizer on other depths and counts *)

Lemma write_sample_other (bitDepth seed : Z) (buf : list byte) (offset : Z) :
  ~ enumerated bitDepth -> write_sample bitDepth seed buf offset = Ok buf.
Proof.
  intros Hne. unfold write_sample.
  repeat match goal with
         | |- context [bitDepth =? ?c] =>
             destruct (Z.eqb_spec bitDepth c) as [->|];
             [exfalso; apply Hne; enumerated_depth|]
         end.
  reflexivity.
Qed.

Lemma noise_loop_other (bitDepth bytesPerSample : Z) (buf : list byte) :
  ~ enumerated bitDepth ->
  forall (n : nat) (sampleIdx seed : Z),
    noise_loop n sampleIdx bitDepth bytesPerSample seed buf = Ok buf.
Proof.
  intros Hne. induction n as [|n IH]; intros sampleIdx seed; [reflexivity|].
  cbn [noise_loop]. rewrite write_sample_other by exact Hne.
  cbn [bind_result]. apply IH.
Qed.

(** X3: For a bit depth outside the enumerated set that is not negative, the
    synthesizer stores nothing: the buffer it returns has
    [sampleRate * durationSec * channels * (bitDepth / 8)] bytes, all of
    them zero. *)
Theorem GenerateWhiteNoise_other_depth
    (sampleRate bitDepth channels durationSec : Z) :
  ~ enumerated bitDepth -> 0 <= bitDepth ->
  0 <= sampleRate -> 0 <= durationSec -> 0 <= channels ->
  sampleRate * durationSec * channels * (bitDepth / 8) <= GoInt.maxInt ->
  GenerateWhiteNoise sampleRate bitDepth channels durationSec
  = Ok (replicate
          (Z.to_nat (sampleRate * durationSec * channels * (bitDepth / 8)))
          x00).
Proof.
  intros Hne Hbd Hsr Hdur Hch Hmax.
  unfold GenerateWhiteNoise.
  assert (Hbps : PCMBytesPerSample bitDepth = bitDepth / 8).
  { unfold PCMBytesPerSample.
    repeat match goal with
           | |- context [bitDepth =? ?c] =>
               destruct (Z.eqb_spec bitDepth c) as [->|];
               [exfalso; apply Hne; enumerated_depth|]
           end.
    cbn [orb]. unfold bitsPerByte. apply Z.quot_div_nonneg; lia. }
  rewrite Hbps.
  set (bps := bitDepth / 8) in *.
  assert (Hb0 : 0 <= bps) by (subst bps; apply Z.div_pos; lia).
  set (n := sampleRate * durationSec * channels) in *.
  assert (Hn : 0 <= n) by (subst n; nia).
  assert (Htot : GoInt.mul (GoInt.mul (GoInt.mul sampleRate durationSec)
                                      channels) bps = n * bps).
  { destruct (Z.eq_dec bps 0) as [->|Hnz].
    - unfold GoInt.mul at 1. rewrite !Z.mul_0_r. reflexivity.
    - assert (Hnum : GoInt.mul (GoInt.mul sampleRate durationSec) channels = n).
      { unfold GoInt.mul. destruct (Z.eq_dec channels 0) as [->|Hcz].
        - subst n. rewrite !Z.mul_0_r. reflexivity.
        - rewrite (wrap_id (sampleRate * durationSec)).
          + apply wrap_id. unfold GoInt.minInt, GoInt.maxInt in *. nia.
          + unfold GoInt.minInt, GoInt.maxInt in *. nia. }
      rewrite Hnum. apply wrap_id.
      unfold GoInt.minInt, GoInt.maxInt in *. nia. }
  rewrite Htot. unfold make.
  destruct (Z.ltb_spec (n * bps) 0); [nia|]. cbn [bind_result].
  apply noise_loop_other. exact Hne.
Qed.

Lemma GenerateWhiteNoise_other_depth_witness :
  (~ enumerated 40 /\ 0 <= 40 /\ 0 <= 2 /\ 0 <= 1 /\ 0 <= 1 /\
   2 * 1 * 1 * (40 / 8) <= GoInt.maxInt) /\
  GenerateWhiteNoise 2 40 1 1 = Ok (replicate 10 x00).
Proof.
  assert (H0 : ~ enumerated 40).
  { unfold enumerated. simpl. intros H.
    repeat (destruct H as [H|H]; [discriminate H|]). exact H. }
  assert (H : 0 <= 40 /\ 0 <= 2 /\ 0 <= 1 /\ 0 <= 1 /\
              2 * 1 * 1 * (40 / 8) <= GoInt.maxInt)
    by (vm_compute; repeat split; discriminate).
  split; [tauto|].
  destruct H as [H1 [H2 [H3 [H4 H5]]]].
  exact (GenerateWhiteNoise_other_depth 2 40 1 1 H0 H1 H2 H3 H4 H5).
Defined.

(** X4: For a depth of the enumerated set the synthesized bytes depend on the
    number of samples only: two parameter sets with the same product
    [sampleRate * durationSec * channels] give the same buffer, so that a
    stereo buffer is the mono buffer of twice the rate. *)
Theorem GenerateWhiteNoise_product_only
    (bitDepth sampleRate channels durationSec
     sampleRate' channels' durationSec' : Z) :
  enumerated bitDepth ->
  0 <= sampleRate -> 0 <= durationSec -> 0 <= channels ->
  0 <= sampleRate' -> 0 <= durationSec' -> 0 <= channels' ->
  sampleRate * durationSec * channels
  = sampleRate' * durationSec' * channels' ->
  sampleRate * durationSec * channels * PCMBytesPerSample bitDepth
    <= GoInt.maxInt ->
  exists buf,
    GenerateWhiteNoise sampleRate bitDepth channels durationSec = Ok buf /\
    GenerateWhiteNoise sampleRate' bitDepth channels' durationSec' = Ok buf.
Proof.
  intros Hen H1 H2 H3 H1' H2' H3' Heq Hmax.
  eexists. split.
  - apply GenerateWhiteNoise_bytes; assumption.
  - rewrite Heq. apply GenerateWhiteNoise_bytes; try assumption.
    rewrite <- Heq. exact Hmax.
Qed.

Lemma GenerateWhiteNoise_product_only_witness :
  (enumerated 16 /\ 0 <= 4 /\ 0 <= 1 /\ 0 <= 2 /\ 0 <= 8 /\ 0 <= 1 /\ 0 <= 1 /\
   4 * 1 * 2 = 8 * 1 * 1 /\
   4 * 1 * 2 * PCMBytesPerSample 16 <= GoInt.maxInt) /\
  exists buf,
    GenerateWhiteNoise 4 16 2 1 = Ok buf /\
    GenerateWhiteNoise 8 16 1 1 = Ok buf.
Proof.
  assert (He : enumerated 16) by (unfold enumerated; simpl; tauto).
  assert (H : 0 <= 4 /\ 0 <= 1 /\ 0 <= 2 /\ 0 <= 8 /\ 0 <= 1 /\ 0 <= 1 /\
              4 * 1 * 2 = 8 * 1 * 1 /\
              4 * 1 * 2 * PCMBytesPerSample 16 <= GoInt.maxInt)
    by (vm_compute; repeat split; discriminate).
  split; [tauto|].
  destruct H as [H1 [H2 [H3 [H4 [H5 [H6 [H7 H8]]]]]]].
  exact (GenerateWhiteNoise_product_only 16 4 2 1 8 1 1
           He H1 H2 H3 H4 H5 H6 H7 H8).
Defined.

Lemma noise_bytes_app (bitDepth : Z) (n m : nat) :
  forall seed,
    noise_bytes (n + m) bitDepth seed
    = noise_bytes n bitDepth seed
      ++ noise_bytes m bitDepth (Nat.iter n xorshift seed).
Proof.
  induction n as [|n IH]; intros seed; [reflexivity|].
  cbn [Nat.add noise_bytes]. rewrite IH, <- app_assoc.
  rewrite Nat.iter_succ_r. reflexivity.
Qed.

(** X5: A longer synthesis extends a shorter one: with the same rate, depth
    and channels, the buffer of a duration is a prefix of the buffer of
    any longer duration. *)
Theorem GenerateWhiteNoise_prefix
    (sampleRate bitDepth channels durationSec durationSec' : Z) :
  enumerated bitDepth ->
  0 <= sampleRate -> 0 <= channels ->
  0 <= durationSec <= durationSec' ->
  sampleRate * durationSec' * channels * PCMBytesPerSample bitDepth
    <= GoInt.maxInt ->
  exists buf rest,
    GenerateWhiteNoise sampleRate bitDepth channels durationSec = Ok buf /\
    GenerateWhiteNoise sampleRate bitDepth channels durationSec'
    = Ok (buf ++ rest).
Proof.
  intros Hen Hsr Hch Hdur Hmax.
  pose proof (PCMBytesPerSample_enumerated bitDepth Hen) as Hbps.
  set (n := sampleRate * durationSec * channels).
  set (n' := sampleRate * durationSec' * channels) in *.
  assert (Hnn : 0 <= n <= n').
  { subst n n'. split.
    - apply Z.mul_nonneg_nonneg; [apply Z.mul_nonneg_nonneg|]; lia.
    - apply Z.mul_le_mono_nonneg_r; [lia|].
      apply Z.mul_le_mono_nonneg_l; lia. }
  exists (noise_bytes (Z.to_nat n) bitDepth xorshiftSeed).
  exists (noise_bytes (Z.to_nat (n' - n)) bitDepth
            (Nat.iter (Z.to_nat n) xorshift xorshiftSeed)).
  split.
  - apply GenerateWhiteNoise_bytes; try assumption; try lia.
    fold n. nia.
  - rewrite <- noise_bytes_app.
    replace (Z.to_nat n + Z.to_nat (n' - n))%nat with (Z.to_nat n') by lia.
    apply GenerateWhiteNoise_bytes; try assumption; lia.
Qed.

Lemma GenerateWhiteNoise_prefix_witness :
  (enumerated 24 /\ 0 <= 2 /\ 0 <= 2 /\ 0 <= 1 <= 3 /\
   2 * 3 * 2 * PCMBytesPerSample 24 <= GoInt.maxInt) /\
  exists buf rest,
    GenerateWhiteNoise 2 24 2 1 = Ok buf /\
    GenerateWhiteNoise 2 24 2 3 = Ok (buf ++ rest).
Proof.
  assert (He : enumerated 24) by (unfold enumerated; simpl; tauto).
  assert (H : 0 <= 2 /\ 0 <= 2 /\ 0 <= 1 <= 3 /\
              2 * 3 * 2 * PCMBytesPerSample 24 <= GoInt.maxInt)
    by (vm_compute; repeat split; discriminate).
  split; [tauto|].
  destruct H as [H1 [H2 [H3 H4]]].
  exact (GenerateWhiteNoise_prefix 2 24 2 1 3 He H1 H2 H3 H4).
Defined.

(** ** Range of the samples of the other depths *)

Lemma join_low_bits (v k : Z) :
  0 <= k ->
  Z.lor (v mod 2 ^ k) (Z.shiftl ((Z.shiftr v k) mod 2 ^ 8) k)
  = v mod 2 ^ (k + 8).
Proof.
  intros Hk. apply Z.bits_inj'. intros n Hn.
  rewrite Z.lor_spec, !Z.testbit_mod_pow2 by lia.
  destruct (Z.ltb_spec n k) as [Hlt|Hge].
  - rewrite Z.shiftl_spec_low by lia.
    destruct (Z.ltb_spec n (k + 8)); [|lia].
    rewrite orb_false_r. reflexivity.
  - rewrite Z.shiftl_spec by lia.
    rewrite Z.testbit_mod_pow2 by lia.
    rewrite Z.shiftr_spec by lia.
    replace (n - k + k) with n by lia. cbn [andb orb].
    destruct (Z.ltb_spec (n - k) 8); destruct (Z.ltb_spec n (k + 8));
      try lia; reflexivity.
Qed.

Lemma sample16_noise_bytes_gen (bitDepth m h : Z) :
  (forall s, sample_bytes bitDepth s
             = [byte_of_Z (uint16 (int16 (U64.sub (U64.rem s m) h)));
                byte_of_Z (Z.shiftr
                             (uint16 (int16 (U64.sub (U64.rem s m) h))) 8)]) ->
  0 < m -> h <= 2 ^ 15 -> m - h <= 2 ^ 15 ->
  forall (n : nat) (seed i : Z),
    0 <= i < Z.of_nat n ->
    sample16 (noise_bytes n bitDepth seed) i
    = Ok (Nat.iter (S (Z.to_nat i)) xorshift seed mod m - h).
Proof.
  intros Hsb Hm Hh Hmh.
  induction n as [|n IH]; intros seed i Hi; [lia|].
  cbn [noise_bytes]. rewrite Hsb.
  destruct (offset_value 16 (xorshift seed) m h) as [Hv Hr]; try lia.
  destruct (Z.eq_dec i 0) as [->|Hnz].
  - cbn [app]. rewrite sample16_stored.
    + unfold int16. rewrite Hv. reflexivity.
    + unfold int16. rewrite Hv. lia.
  - unfold sample16.
    rewrite (Uint16_app_r _ _ (2 * i) (2 * (i - 1))).
    + specialize (IH (xorshift seed) (i - 1)). unfold sample16 in IH.
      rewrite IH by lia. rewrite iter_shift by lia. reflexivity.
    + lia.
    + unfold len. simpl. lia.
Qed.

(** X6: Every sample of a synthesized 12-bit buffer, read as a signed
    little-endian 16-bit integer, lies in [-2000, 1999]. *)
Theorem noise_12bit_range (sampleRate channels durationSec : Z) :
  0 <= sampleRate -> 0 <= durationSec -> 0 <= channels ->
  sampleRate * durationSec * channels * 2 <= GoInt.maxInt ->
  let numSamples := sampleRate * durationSec * channels in
  exists buf,
    GenerateWhiteNoise sampleRate BitDepth12 channels durationSec = Ok buf /\
    len buf = numSamples * 2 /\
    forall i, 0 <= i < numSamples ->
      exists v, sample16 buf i = Ok v /\ -2000 <= v <= 1999.
Proof.
  intros Hsr Hdur Hch Hmax numSamples.
  assert (Hn : 0 <= numSamples) by (subst numSamples; nia).
  assert (Hen : enumerated BitDepth12) by enumerated_depth.
  eexists. split; [|split].
  - apply GenerateWhiteNoise_bytes; assumption.
  - rewrite len_noise_bytes by exact Hen.
    bytes_per_sample. fold numSamples. lia.
  - intros i Hi. eexists. split.
    + apply (sample16_noise_bytes_gen BitDepth12 4000 2000); try lia.
      intros s. reflexivity.
    + pose proof (Z.mod_pos_bound
                    (Nat.iter (S (Z.to_nat i)) xorshift xorshiftSeed) 4000).
      lia.
Qed.

Lemma noise_12bit_range_witness :
  (0 <= 2 /\ 0 <= 1 /\ 0 <= 2 /\ 2 * 1 * 2 * 2 <= GoInt.maxInt) /\
  exists buf,
    GenerateWhiteNoise 2 BitDepth12 2 1 = Ok buf /\
    len buf = 2 * 1 * 2 * 2 /\
    forall i, 0 <= i < 2 * 1 * 2 ->
      exists v, sample16 buf i = Ok v /\ -2000 <= v <= 1999.
Proof.
  assert (H : 0 <= 2 /\ 0 <= 1 /\ 0 <= 2 /\ 2 * 1 * 2 * 2 <= GoInt.maxInt)
    by (vm_compute; repeat split; discriminate).
  split; [exact H|].
  destruct H as [H1 [H2 [H3 H4]]].
  exact (noise_12bit_range 2 2 1 H1 H2 H3 H4).
Defined.

(** Three bytes stored from a 32-bit value are read back as the value,
    when it fits 24 bits. *)
Lemma sample24_stored (val : Z) (l : list byte) :
  - 2 ^ 23 <= val < 2 ^ 23 ->
  sample24 (byte_of_Z val :: byte_of_Z (Z.shiftr val 8)
              :: byte_of_Z (Z.shiftr val 16) :: l) 0
  = Ok val.
Proof.
  intros Hval. unfold sample24, index. rewrite !len_cons.
  pose proof (len_nonneg l).
  change (3 * 0) with 0. change (0 + 1) with 1. change (0 + 2) with 2.
  destruct (Z.ltb_spec 0 (1 + (1 + (1 + len l)))); [|lia].
  destruct (Z.ltb_spec 1 (1 + (1 + (1 + len l)))); [|lia].
  destruct (Z.ltb_spec 2 (1 + (1 + (1 + len l)))); [|lia].
  simpl. f_equal. rewrite !Z_of_byte_of_Z. change 256 with (2 ^ 8).
  rewrite (join_low_bits val 8) by lia. change (8 + 8) with 16.
  rewrite (join_low_bits val 16) by lia.
  change (val mod 2 ^ (16 + 8)) with (GoInt.uwrap 24 val).
  rewrite swrap_uwrap by lia. apply swrap_id; [lia|exact Hval].
Qed.

Lemma sample24_noise_bytes (bitDepth m h : Z) :
  (forall s, sample_bytes bitDepth s
             = [byte_of_Z (int32 (U64.sub (U64.rem s m) h));
                byte_of_Z (Z.shiftr (int32 (U64.sub (U64.rem s m) h)) 8);
                byte_of_Z (Z.shiftr (int32 (U64.sub (U64.rem s m) h)) 16)]) ->
  0 < m -> h <= 2 ^ 23 -> m - h <= 2 ^ 23 ->
  forall (n : nat) (seed i : Z),
    0 <= i < Z.of_nat n ->
    sample24 (noise_bytes n bitDepth seed) i
    = Ok (Nat.iter (S (Z.to_nat i)) xorshift seed mod m - h).
Proof.
  intros Hsb Hm Hh Hmh.
  induction n as [|n IH]; intros seed i Hi; [lia|].
  cbn [noise_bytes]. rewrite Hsb.
  destruct (offset_value 32 (xorshift seed) m h) as [Hv Hr];
    try (simpl; lia).
  destruct (Z.eq_dec i 0) as [->|Hnz].
  - cbn [app]. unfold int32. rewrite Hv.
    rewrite sample24_stored by lia. reflexivity.
  - unfold sample24.
    rewrite (index_app_r _ _ (3 * i) (3 * (i - 1)))
      by (unfold len; simpl; lia).
    rewrite (index_app_r _ _ (3 * i + 1) (3 * (i - 1) + 1))
      by (unfold len; simpl; lia).
    rewrite (index_app_r _ _ (3 * i + 2) (3 * (i - 1) + 2))
      by (unfold len; simpl; lia).
    specialize (IH (xorshift seed) (i - 1)). unfold sample24 in IH.
    rewrite IH by lia. rewrite iter_shift by lia. reflexivity.
Qed.

(** X7: Every sample of a synthesized 20-bit buffer, read as a signed
    little-endian 24-bit integer, lies in [-500000, 499999], and every
    sample of a synthesized 24-bit buffer lies in [-7000000, 6999999]. *)
Theorem noise_24bit_range (sampleRate channels durationSec : Z) :
  0 <= sampleRate -> 0 <= durationSec -> 0 <= channels ->
  sampleRate * durationSec * channels * 3 <= GoInt.maxInt ->
  let numSamples := sampleRate * durationSec * channels in
  (exists buf,
     GenerateWhiteNoise sampleRate BitDepth20 channels durationSec = Ok buf /\
     len buf = numSamples * 3 /\
     forall i, 0 <= i < numSamples ->
       exists v, sample24 buf i = Ok v /\ -500000 <= v <= 499999) /\
  (exists buf,
     GenerateWhiteNoise sampleRate BitDepth24 channels durationSec = Ok buf /\
     len buf = numSamples * 3 /\
     forall i, 0 <= i < numSamples ->
       exists v, sample24 buf i = Ok v /\ -7000000 <= v <= 6999999).
Proof.
  intros Hsr Hdur Hch Hmax numSamples.
  assert (Hn : 0 <= numSamples) by (subst numSamples; nia).
  split.
  - assert (Hen : enumerated BitDepth20) by enumerated_depth.
    eexists. split; [|split].
    + apply GenerateWhiteNoise_bytes; assumption.
    + rewrite len_noise_bytes by exact Hen.
      bytes_per_sample. fold numSamples. lia.
    + intros i Hi. eexists. split.
      * apply (sample24_noise_bytes BitDepth20 1000000 500000); try lia.
        intros s. reflexivity.
      * pose proof (Z.mod_pos_bound
                      (Nat.iter (S (Z.to_nat i)) xorshift xorshiftSeed)
                      1000000).
        lia.
  - assert (Hen : enumerated BitDepth24) by enumerated_depth.
    eexists. split; [|split].
    + apply GenerateWhiteNoise_bytes; assumption.
    + rewrite len_noise_bytes by exact Hen.
      bytes_per_sample. fold numSamples. lia.
    + intros i Hi. eexists. split.
      * apply (sample24_noise_bytes BitDepth24 14000000 7000000); try lia.
        intros s. reflexivity.
      * pose proof (Z.mod_pos_bound
                      (Nat.iter (S (Z.to_nat i)) xorshift xorshiftSeed)
                      14000000).
        lia.
Qed.

Lemma noise_24bit_range_witness :
  (0 <= 2 /\ 0 <= 1 /\ 0 <= 2 /\ 2 * 1 * 2 * 3 <= GoInt.maxInt) /\
  ((exists buf,
      GenerateWhiteNoise 2 BitDepth20 2 1 = Ok buf /\
      len buf = 2 * 1 * 2 * 3 /\
      forall i, 0 <= i < 2 * 1 * 2 ->
        exists v, sample24 buf i = Ok v /\ -500000 <= v <= 499999) /\
   (exists buf,
      GenerateWhiteNoise 2 BitDepth24 2 1 = Ok buf /\
      len buf = 2 * 1 * 2 * 3 /\
      forall i, 0 <= i < 2 * 1 * 2 ->
        exists v, sample24 buf i = Ok v /\ -7000000 <= v <= 6999999)).
Proof.
  assert (H : 0 <= 2 /\ 0 <= 1 /\ 0 <= 2 /\ 2 * 1 * 2 * 3 <= GoInt.maxInt)
    by (vm_compute; repeat split; discriminate).
  split; [exact H|].
  destruct H as [H1 [H2 [H3 H4]]].
  exact (noise_24bit_range 2 2 1 H1 H2 H3 H4).
Defined.

Lemma Uint32_app_r (pre l : list byte) (off i : Z) :
  0 <= i -> off = len pre + i -> Uint32 (pre ++ l) off = Uint32 l i.
Proof.
  intros Hi ->. unfold Uint32. rewrite len_app.
  pose proof (len_nonneg pre) as Hp.
  destruct (Z.leb_spec 0 (len pre + i)); [|lia].
  destruct (Z.leb_spec 0 i); [|lia]. simpl.
  destruct (Z.ltb_spec (len pre + i + 3) (len pre + len l));
    destruct (Z.ltb_spec (i + 3) (len l)); try lia; [|reflexivity].
  rewrite (index_app_r pre l (len pre + i) i) by lia.
  rewrite (index_app_r pre l (len pre + i + 1) (i + 1)) by lia.
  rewrite (index_app_r pre l (len pre + i + 2) (i + 2)) by lia.
  rewrite (index_app_r pre l (len pre + i + 3) (i + 3)) by lia.
  reflexivity.
Qed.

(** A 32-bit value stored by [PutUint32] is read back by [Uint32]. *)
Lemma sample32_stored (val : Z) (l : list byte) :
  - 2 ^ 31 <= val < 2 ^ 31 ->
  sample32 (byte_of_Z (uint32 val) :: byte_of_Z (Z.shiftr (uint32 val) 8)
              :: byte_of_Z (Z.shiftr (uint32 val) 16)
              :: byte_of_Z (Z.shiftr (uint32 val) 24) :: l) 0
  = Ok val.
Proof.
  intros Hval. unfold sample32, Uint32, index. rewrite !len_cons.
  pose proof (len_nonneg l).
  change (4 * 0) with 0. change (0 + 1) with 1. change (0 + 2) with 2.
  change (0 + 3) with 3.
  destruct (Z.ltb_spec 0 (1 + (1 + (1 + (1 + len l))))); [|lia].
  destruct (Z.ltb_spec 1 (1 + (1 + (1 + (1 + len l))))); [|lia].
  destruct (Z.ltb_spec 2 (1 + (1 + (1 + (1 + len l))))); [|lia].
  destruct (Z.ltb_spec 3 (1 + (1 + (1 + (1 + len l))))); [|lia].
  simpl. f_equal. rewrite !Z_of_byte_of_Z. change 256 with (2 ^ 8).
  set (v := uint32 val).
  rewrite (join_low_bits v 8) by lia. change (8 + 8) with 16.
  rewrite (join_low_bits v 16) by lia. change (16 + 8) with 24.
  rewrite (join_low_bits v 24) by lia. change (24 + 8) with 32.
  subst v. unfold int32, uint32.
  change (GoInt.uwrap 32 val mod 2 ^ 32)
    with (GoInt.uwrap 32 (GoInt.uwrap 32 val)).
  rewrite !swrap_uwrap by lia. apply swrap_id; [lia|exact Hval].
Qed.

Lemma sample32_noise_bytes (n : nat) :
  forall (seed i : Z),
    0 <= i < Z.of_nat n ->
    sample32 (noise_bytes n BitDepth32 seed) i
    = Ok (Nat.iter (S (Z.to_nat i)) xorshift seed mod 1800000000 - 900000000).
Proof.
  induction n as [|n IH]; intros seed i Hi; [lia|].
  cbn [noise_bytes].
  destruct (offset_value 32 (xorshift seed) 1800000000 900000000)
    as [Hv Hr]; try (simpl; lia).
  destruct (Z.eq_dec i 0) as [->|Hnz].
  - change (sample_bytes BitDepth32 (xorshift seed)) with
      (let v := uint32 (int32 (U64.sub (U64.rem (xorshift seed) 1800000000)
                                       900000000)) in
       [byte_of_Z v; byte_of_Z (Z.shiftr v 8); byte_of_Z (Z.shiftr v 16);
        byte_of_Z (Z.shiftr v 24)]).
    cbv zeta. cbn [app]. unfold int32. rewrite Hv.
    rewrite sample32_stored by lia. reflexivity.
  - unfold sample32.
    rewrite (Uint32_app_r _ _ (4 * i) (4 * (i - 1))).
    + specialize (IH (xorshift seed) (i - 1)). unfold sample32 in IH.
      rewrite IH by lia. rewrite iter_shift by lia. reflexivity.
    + lia.
    + change (len (sample_bytes BitDepth32 (xorshift seed))) with 4. lia.
Qed.

(** X8: Every sample of a synthesized 32-bit buffer, read as a signed
    little-endian 32-bit integer, lies in [-900000000, 899999999]. *)
Theorem noise_32bit_range (sampleRate channels durationSec : Z) :
  0 <= sampleRate -> 0 <= durationSec -> 0 <= channels ->
  sampleRate * durationSec * channels * 4 <= GoInt.maxInt ->
  let numSamples := sampleRate * durationSec * channels in
  exists buf,
    GenerateWhiteNoise sampleRate BitDepth32 channels durationSec = Ok buf /\
    len buf = numSamples * 4 /\
    forall i, 0 <= i < numSamples ->
      exists v, sample32 buf i = Ok v /\ -900000000 <= v <= 899999999.
Proof.
  intros Hsr Hdur Hch Hmax numSamples.
  assert (Hn : 0 <= numSamples) by (subst numSamples; nia).
  assert (Hen : enumerated BitDepth32) by enumerated_depth.
  eexists. split; [|split].
  - apply GenerateWhiteNoise_bytes; assumption.
  - rewrite len_noise_bytes by exact Hen.
    bytes_per_sample. fold numSamples. lia.
  - intros i Hi. eexists. split.
    + apply sample32_noise_bytes. fold numSamples. lia.
    + pose proof (Z.mod_pos_bound
                    (Nat.iter (S (Z.to_nat i)) xorshift xorshiftSeed)
                    1800000000).
      lia.
Qed.

Lemma noise_32bit_range_witness :
  (0 <= 2 /\ 0 <= 1 /\ 0 <= 2 /\ 2 * 1 * 2 * 4 <= GoInt.maxInt) /\
  exists buf,
    GenerateWhiteNoise 2 BitDepth32 2 1 = Ok buf /\
    len buf = 2 * 1 * 2 * 4 /\
    forall i, 0 <= i < 2 * 1 * 2 ->
      exists v, sample32 buf i = Ok v /\ -900000000 <= v <= 899999999.
Proof.
  assert (H : 0 <= 2 /\ 0 <= 1 /\ 0 <= 2 /\ 2 * 1 * 2 * 4 <= GoInt.maxInt)
    by (vm_compute; repeat split; discriminate).
  split; [exact H|].
  destruct H as [H1 [H2 [H3 H4]]].
  exact (noise_32bit_range 2 2 1 H1 H2 H3 H4).
Defined.

(** ** More on the exact comparator *)

Lemma count_where_single (p : Z -> bool) (i : Z) (n : nat) :
  forall idx,
    idx <= i < idx + Z.of_nat n ->
    (forall j, idx <= j < idx + Z.of_nat n -> (p j = true <-> j = i)) ->
    count_where p idx n = 1.
Proof.
  induction n as [|n IH]; intros idx Hi Hp; [lia|].
  cbn [count_where]. destruct (Z.eq_dec idx i) as [->|Hne].
  - rewrite (proj2 (Hp i Hi) eq_refl).
    rewrite count_where_none; [reflexivity|].
    intros j Hj. destruct (p j) eqn:E; [|reflexivity].
    apply Hp in E; lia.
  - destruct (p idx) eqn:E.
    + apply Hp in E; lia.
    + rewrite IH; [reflexivity|lia|]. intros j Hj. apply Hp. lia.
Qed.

(** X9: One byte changed: the exact comparator counts one differing byte,
    gives its index as the first difference, together with that index
    divided by the bytes per sample and by the channel count, and marks
    the test as failed; only frame reports follow. *)
Theorem lossless_single_flip (fuel : nat) (label : string)
    (expected : list byte) (i : nat) (x y : byte) (bitDepth channels : Z) :
  len expected <= GoInt.maxInt ->
  PCMBytesPerSample bitDepth <> 0 -> channels <> 0 ->
  expected !! i = Some x -> y <> x ->
  exists frames,
    snd (CompareLosslessSamples fuel label expected (<[i:=y]> expected)
           bitDepth channels newT)
    = mkT true
        (PCMMismatch label 1 (len expected) (Z.of_nat i)
           (Z.quot (Z.quot (Z.of_nat i) (PCMBytesPerSample bitDepth)) channels)
         :: frames) /\
    forallb is_frame_diff frames = true.
Proof.
  intros He Hbps Hch Hx Hy.
  assert (Hlen : len (<[i:=y]> expected) = len expected)
    by (unfold len; rewrite length_insert; reflexivity).
  assert (Hi : (i < length expected)%nat)
    by (apply lookup_lt_is_Some; eauto).
  rewrite lossless_run by (try assumption; rewrite Hlen; exact He).
  rewrite Hlen, Z.min_id.
  set (p := differ_at expected (<[i:=y]> expected)).
  assert (Hp : forall j, 0 <= j < 0 + Z.of_nat (Z.to_nat (len expected)) ->
                         (p j = true <-> j = Z.of_nat i)).
  { intros j Hj. subst p.
    rewrite differ_at_lookup by (rewrite Hlen; unfold len in *; lia).
    destruct (decide (Z.to_nat j = i)) as [<-|Hne].
    - rewrite list_lookup_insert_eq by lia. rewrite Hx.
      split; [lia|]. intros _ E. inversion E. congruence.
    - rewrite list_lookup_insert_ne by congruence.
      split; [congruence|lia]. }
  assert (Hc : count_where p 0 (Z.to_nat (len expected)) = 1).
  { apply (count_where_single p (Z.of_nat i)); [unfold len; lia|exact Hp]. }
  assert (Hf : find_from p 0 (Z.to_nat (len expected)) = Z.of_nat i).
  { destruct (find_from_first p (Z.to_nat (len expected)) 0) as [Hr [Hpr _]].
    - exists (Z.of_nat i). split; [unfold len; lia|].
      apply Hp; [unfold len; lia|reflexivity].
    - apply Hp; assumption. }
  rewrite Hc, Hf. change (1 >? 0) with true. cbv iota.
  match goal with
  | |- context [ShowDiffs ?f ?l ?e ?a ?bd ?ch ?md ?t] =>
      destruct (ShowDiffs_adds_frames f l e a bd ch md t) as [Hfl [fr [Ho Hfr]]];
      destruct (ShowDiffs f l e a bd ch md t) as [r [fl out]]
  end.
  simpl in Hfl, Ho |- *. subst fl out. exists fr. split; [reflexivity|exact Hfr].
Qed.

Lemma lossless_single_flip_witness :
  let expected := [x01; x02; x03; x04; x05; x06] in
  (len expected <= GoInt.maxInt /\ PCMBytesPerSample 16 <> 0 /\ 2 <> 0 /\
   expected !! 5%nat = Some x06 /\ x09 <> x06) /\
  exists frames,
    snd (CompareLosslessSamples 9 "a vs b" expected (<[5%nat:=x09]> expected)
           16 2 newT)
    = mkT true (PCMMismatch "a vs b" 1 6 5 1 :: frames) /\
    forallb is_frame_diff frames = true.
Proof.
  intros expected.
  assert (H1 : len expected <= GoInt.maxInt) by (vm_compute; discriminate).
  assert (H2 : PCMBytesPerSample 16 <> 0) by (vm_compute; discriminate).
  assert (H3 : 2 <> 0) by discriminate.
  assert (H4 : expected !! 5%nat = Some x06) by reflexivity.
  assert (H5 : x09 <> x06) by discriminate.
  split; [auto|].
  exact (lossless_single_flip 9 "a vs b" expected 5 x06 x09 16 2
           H1 H2 H3 H4 H5).
Defined.

Lemma differ_at_sym (expected actual : list byte) (i : Z) :
  differ_at expected actual i = differ_at actual expected i.
Proof.
  unfold differ_at.
  destruct (index expected i) as [x| |]; destruct (index actual i) as [y| |];
    try reflexivity.
  f_equal. destruct (Byte.eqb x y) eqn:E.
  - apply byte_eqb_eq in E. subst. symmetry. apply byte_eqb_eq. reflexivity.
  - destruct (Byte.eqb y x) eqn:E'; [|reflexivity].
    apply byte_eqb_eq in E'. subst.
    rewrite (proj2 (byte_eqb_eq x x) eq_refl) in E. discriminate.
Qed.

Lemma lossless_failed (fuel : nat) (label : string)
    (expected actual : list byte) (bitDepth channels : Z) :
  len expected <= GoInt.maxInt -> len actual <= GoInt.maxInt ->
  PCMBytesPerSample bitDepth <> 0 -> channels <> 0 ->
  failed (snd (CompareLosslessSamples fuel label expected actual
                 bitDepth channels newT))
  = (count_where (differ_at expected actual) 0
       (Z.to_nat (Z.min (len expected) (len actual))) >? 0).
Proof.
  intros He Ha Hbps Hch.
  rewrite lossless_run by assumption.
  destruct (_ >? 0); [|reflexivity].
  match goal with
  | |- context [ShowDiffs ?f ?l ?e ?a ?bd ?ch ?md ?t] =>
      destruct (ShowDiffs_adds_frames f l e a bd ch md t) as [Hfl _]
  end.
  rewrite Hfl. reflexivity.
Qed.

(** X10: The verdict of the exact comparator does not depend on which buffer is
    given as expected and which as actual. *)
Theorem lossless_verdict_symmetric (fuel fuel' : nat) (label label' : string)
    (expected actual : list byte) (bitDepth channels : Z) :
  len expected <= GoInt.maxInt -> len actual <= GoInt.maxInt ->
  PCMBytesPerSample bitDepth <> 0 -> channels <> 0 ->
  failed (snd (CompareLosslessSamples fuel label expected actual
                 bitDepth channels newT))
  = failed (snd (CompareLosslessSamples fuel' label' actual expected
                   bitDepth channels newT)).
Proof.
  intros He Ha Hbps Hch.
  rewrite !lossless_failed by assumption.
  rewrite (Z.min_comm (len actual)). f_equal.
  apply count_where_ext. intros i _. apply differ_at_sym.
Qed.

Lemma lossless_verdict_symmetric_witness :
  let expected := [x01; x02; x03] in
  let actual := [x01; x07; x03; x04] in
  (len expected <= GoInt.maxInt /\ len actual <= GoInt.maxInt /\
   PCMBytesPerSample 8 <> 0 /\ 1 <> 0) /\
  failed (snd (CompareLosslessSamples 5 "a" expected actual 8 1 newT))
  = failed (snd (CompareLosslessSamples 5 "b" actual expected 8 1 newT)).
Proof.
  intros expected actual.
  assert (H1 : len expected <= GoInt.maxInt) by (vm_compute; discriminate).
  assert (H2 : len actual <= GoInt.maxInt) by (vm_compute; discriminate).
  assert (H3 : PCMBytesPerSample 8 <> 0) by (vm_compute; discriminate).
  assert (H4 : 1 <> 0) by discriminate.
  split; [auto|].
  exact (lossless_verdict_symmetric 5 5 "a" "b" expected actual 8 1
           H1 H2 H3 H4).
Defined.

(** X11: With a channel count of zero, or a bit depth whose bytes per sample
    are zero, buffers that differ make the exact comparator panic on the
    division for the sample index, before anything is reported. *)
Theorem lossless_zero_divisor_panics (fuel : nat) (label : string)
    (expected actual : list byte) (bitDepth channels : Z) :
  len expected <= GoInt.maxInt -> len actual <= GoInt.maxInt ->
  PCMBytesPerSample bitDepth = 0 \/ channels = 0 ->
  (exists i, (i < Nat.min (length expected) (length actual))%nat /\
             expected !! i <> actual !! i) ->
  CompareLosslessSamples fuel label expected actual bitDepth channels newT
  = (Panic, newT).
Proof.
  intros He Ha Hzero [i [Hi Hne]].
  pose proof (len_nonneg expected). pose proof (len_nonneg actual).
  unfold CompareLosslessSamples.
  unfold bind at 1. unfold lift at 1.
  rewrite lossless_loop_count by (unfold GoInt.maxInt in *; lia).
  change (-1 =? -1) with true. cbv iota beta. rewrite Z.add_0_l.
  set (zmin := Z.min (len expected) (len actual)).
  assert (Hpos : 0 < count_where (differ_at expected actual) 0 (Z.to_nat zmin)).
  { apply count_where_pos. exists (Z.of_nat i).
    split; [subst zmin; unfold len; lia|].
    apply differ_at_lookup; [fold zmin; subst zmin; unfold len; lia|].
    rewrite Nat2Z.id. exact Hne. }
  destruct (Z.gtb_spec (count_where (differ_at expected actual) 0
                          (Z.to_nat zmin)) 0); [|lia].
  unfold bind, lift, GoInt.div.
  destruct Hzero as [-> | ->].
  - reflexivity.
  - destruct (PCMBytesPerSample bitDepth =? 0); reflexivity.
Qed.

Lemma lossless_zero_divisor_panics_witness :
  let expected := [x01; x02] in
  let actual := [x01; x03] in
  (len expected <= GoInt.maxInt /\ len actual <= GoInt.maxInt /\
   (PCMBytesPerSample 16 = 0 \/ 0 = 0) /\
   (exists i, (i < Nat.min (length expected) (length actual))%nat /\
              expected !! i <> actual !! i)) /\
  CompareLosslessSamples 3 "a vs b" expected actual 16 0 newT = (Panic, newT).
Proof.
  intros expected actual.
  assert (H1 : len expected <= GoInt.maxInt) by (vm_compute; discriminate).
  assert (H2 : len actual <= GoInt.maxInt) by (vm_compute; discriminate).
  assert (H3 : PCMBytesPerSample 16 = 0 \/ 0 = 0) by (right; reflexivity).
  assert (H4 : exists i, (i < Nat.min (length expected) (length actual))%nat /\
                         expected !! i <> actual !! i).
  { exists 1%nat. split; [simpl; lia|discriminate]. }
  split; [auto|].
  exact (lossless_zero_divisor_panics 3 "a vs b" expected actual 16 0
           H1 H2 H3 H4).
Defined.

(** ** More on the diagnostic pass *)

Lemma bytes_Equal_eq (a c : list byte) : bytes_Equal a c = true <-> a = c.
Proof.
  revert c. induction a as [|x a IH]; intros [|y c]; cbn [bytes_Equal];
    try (split; congruence).
  rewrite andb_true_iff, byte_eqb_eq, IH. split.
  - intros [-> ->]. reflexivity.
  - intros E. inversion E. split; reflexivity.
Qed.

(** One round of the loop of [ShowDiffs], for a frame of at least one
    byte. *)
Lemma show_loop_step (fuel : nat) (label : string) (expected actual : list byte)
    (frameSize maxDiffs q shown : Z) (t : T) :
  1 <= frameSize <= GoInt.maxInt ->
  len expected <= GoInt.maxInt -> len actual <= GoInt.maxInt ->
  maxDiffs <= GoInt.maxInt -> 0 <= q -> GoInt.minInt <= shown ->
  q * frameSize <= Z.min (len expected) (len actual) ->
  show_loop (S fuel) label expected actual frameSize maxDiffs
            (q * frameSize) shown t
  = if ((q + 1) * frameSize <? Z.min (len expected) (len actual))
       && (shown <? maxDiffs)
    then
      if bytes_Equal (frame_at expected frameSize q)
                     (frame_at actual frameSize q)
      then show_loop fuel label expected actual frameSize maxDiffs
             ((q + 1) * frameSize) shown t
      else show_loop fuel label expected actual frameSize maxDiffs
             ((q + 1) * frameSize) (shown + 1)
             (mkT (failed t)
                  (output t ++ [FrameDiff label q
                                  (frame_at expected frameSize q)
                                  (frame_at actual frameSize q)]))
    else (Ok tt, t).
Proof.
  intros Hfs He Ha Hmd Hq Hsh Hidx.
  pose proof (len_nonneg expected) as Hne.
  pose proof (len_nonneg actual) as Hna.
  cbn [show_loop].
  assert (Wsub : GoInt.sub (Z.min (len expected) (len actual)) frameSize
                 = Z.min (len expected) (len actual) - frameSize).
  { apply wrap_id. unfold GoInt.minInt, GoInt.maxInt in *. lia. }
  rewrite Wsub.
  destruct (Z.ltb_spec (q * frameSize)
              (Z.min (len expected) (len actual) - frameSize)) as [Hlt|Hge];
    destruct (Z.ltb_spec ((q + 1) * frameSize)
                (Z.min (len expected) (len actual))); try lia;
    [|reflexivity].
  destruct (Z.ltb_spec shown maxDiffs) as [Hs|Hs]; [|reflexivity].
  cbn [andb].
  assert (Wadd : GoInt.add (q * frameSize) frameSize = (q + 1) * frameSize).
  { unfold GoInt.add. rewrite wrap_id.
    - lia.
    - unfold GoInt.minInt, GoInt.maxInt in *. nia. }
  assert (Winc : GoInt.add shown 1 = shown + 1).
  { apply wrap_id. unfold GoInt.minInt, GoInt.maxInt in *. lia. }
  rewrite Wadd, Winc.
  unfold bind, lift, ret, Logf, GoInt.div.
  rewrite !slice_ok by nia.
  replace (Z.to_nat ((q + 1) * frameSize - q * frameSize))
    with (Z.to_nat frameSize) by (f_equal; lia).
  fold (frame_at expected frameSize q). fold (frame_at actual frameSize q).
  destruct (Z.eqb_spec frameSize 0); [lia|].
  assert (Hquot : GoInt.wrap (Z.quot (q * frameSize) frameSize) = q).
  { rewrite Z.quot_mul by lia. apply wrap_id.
    unfold GoInt.minInt, GoInt.maxInt in *. nia. }
  rewrite Hquot.
  destruct (bytes_Equal _ _); reflexivity.
Qed.

Lemma show_loop_reports (label : string) (expected actual : list byte)
    (frameSize maxDiffs : Z) :
  1 <= frameSize <= GoInt.maxInt ->
  len expected <= GoInt.maxInt -> len actual <= GoInt.maxInt ->
  maxDiffs <= GoInt.maxInt ->
  forall (fuel : nat) (q shown : Z) (t : T),
    0 <= q -> GoInt.minInt <= shown ->
    q * frameSize <= Z.min (len expected) (len actual) ->
    exists frames,
      snd (show_loop fuel label expected actual frameSize maxDiffs
                     (q * frameSize) shown t)
      = mkT (failed t) (output t ++ frames) /\
      len frames <= Z.max 0 (maxDiffs - shown) /\
      Forall (genuine_report label expected actual frameSize) frames.
Proof.
  intros Hfs He Ha Hmd.
  assert (Hnil : forall (t : T) (shown : Z), exists frames,
             t = mkT (failed t) (output t ++ frames) /\
             len frames <= Z.max 0 (maxDiffs - shown) /\
             Forall (genuine_report label expected actual frameSize) frames).
  { intros [f o] shown. exists []. cbn [failed output]. rewrite app_nil_r.
    split; [reflexivity|]. split; [unfold len; simpl; lia|constructor]. }
  induction fuel as [|fuel IH]; intros q shown t Hq Hsh Hidx;
    [apply Hnil|].
  rewrite show_loop_step by assumption.
  destruct (Z.ltb_spec ((q + 1) * frameSize)
              (Z.min (len expected) (len actual))) as [Hlt|Hge];
    [|apply Hnil].
  destruct (Z.ltb_spec shown maxDiffs) as [Hs|Hs]; [|apply Hnil].
  cbn [andb].
  destruct (bytes_Equal (frame_at expected frameSize q)
                        (frame_at actual frameSize q)) eqn:Eeq.
  - apply IH; lia.
  - destruct (IH (q + 1) (shown + 1)
                (mkT (failed t)
                     (output t ++ [FrameDiff label q
                                     (frame_at expected frameSize q)
                                     (frame_at actual frameSize q)])))
      as [frames [Eo [Hlen Hall]]]; try lia.
    exists (FrameDiff label q (frame_at expected frameSize q)
                      (frame_at actual frameSize q) :: frames).
    split; [|split].
    + rewrite Eo. cbn [failed output]. rewrite <- app_assoc. reflexivity.
    + rewrite len_cons. lia.
    + constructor; [|exact Hall]. cbn [genuine_report].
      repeat split; try lia; try reflexivity.
      intros E. apply bytes_Equal_eq in E. congruence.
Qed.

(** X12: Whatever the fuel, [ShowDiffs] with a frame of at least one byte
    leaves the failed flag as it is and writes at most [maxDiffs]
    messages; each of them reports, under the label given, a frame that
    ends before the common length, with the bytes of that frame in the two
    buffers, which differ. *)
Theorem ShowDiffs_reports (fuel : nat) (label : string)
    (expected actual : list byte) (bitDepth channels maxDiffs : Z) (t : T) :
  1 <= PCMBytesPerSample bitDepth * channels <= GoInt.maxInt ->
  len expected <= GoInt.maxInt -> len actual <= GoInt.maxInt ->
  maxDiffs <= GoInt.maxInt ->
  exists frames,
    snd (ShowDiffs fuel label expected actual bitDepth channels maxDiffs t)
    = mkT (failed t) (output t ++ frames) /\
    len frames <= Z.max 0 maxDiffs /\
    Forall (genuine_report label expected actual
              (PCMBytesPerSample bitDepth * channels)) frames.
Proof.
  intros Hfs He Ha Hmd.
  pose proof (len_nonneg expected). pose proof (len_nonneg actual).
  unfold ShowDiffs.
  assert (W : GoInt.mul (PCMBytesPerSample bitDepth) channels
              = PCMBytesPerSample bitDepth * channels).
  { apply wrap_id. unfold GoInt.minInt, GoInt.maxInt in *. lia. }
  rewrite W.
  destruct (show_loop_reports label expected actual
              (PCMBytesPerSample bitDepth * channels) maxDiffs Hfs He Ha Hmd
              fuel 0 0 t) as [frames [Eo [Hlen Hall]]];
    try (unfold GoInt.minInt; lia).
  rewrite Z.mul_0_l in Eo. rewrite Z.sub_0_r in Hlen.
  exists frames. auto.
Qed.

Lemma ShowDiffs_reports_witness :
  let expected := [x01; x02; x03; x04; x05; x06] in
  let actual := [x01; x09; x03; x04; x05; x06] in
  (1 <= PCMBytesPerSample 16 * 1 <= GoInt.maxInt /\
   len expected <= GoInt.maxInt /\ len actual <= GoInt.maxInt /\
   5 <= GoInt.maxInt) /\
  exists frames,
    snd (ShowDiffs 9 "a vs b" expected actual 16 1 5 newT)
    = mkT (failed newT) (output newT ++ frames) /\
    len frames <= Z.max 0 5 /\
    Forall (genuine_report "a vs b" expected actual
              (PCMBytesPerSample 16 * 1)) frames.
Proof.
  intros expected actual.
  assert (H1 : 1 <= PCMBytesPerSample 16 * 1 <= GoInt.maxInt)
    by (vm_compute; split; discriminate).
  assert (H2 : len expected <= GoInt.maxInt) by (vm_compute; discriminate).
  assert (H3 : len actual <= GoInt.maxInt) by (vm_compute; discriminate).
  assert (H4 : 5 <= GoInt.maxInt) by (vm_compute; discriminate).
  split; [auto|].
  exact (ShowDiffs_reports 9 "a vs b" expected actual 16 1 5 newT
           H1 H2 H3 H4).
Defined.

Lemma show_loop_complete (label : string) (expected actual : list byte)
    (frameSize maxDiffs : Z) :
  1 <= frameSize <= GoInt.maxInt ->
  len expected <= GoInt.maxInt -> len actual <= GoInt.maxInt ->
  maxDiffs <= GoInt.maxInt ->
  forall (fuel : nat) (q shown : Z) (t : T),
    0 <= q -> GoInt.minInt <= shown ->
    q * frameSize <= Z.min (len expected) (len actual) ->
    Z.min (len expected) (len actual) - q * frameSize < Z.of_nat fuel ->
    exists frames,
      show_loop fuel label expected actual frameSize maxDiffs
                (q * frameSize) shown t
      = (Ok tt, mkT (failed t) (output t ++ frames)) /\
      (shown + len frames < maxDiffs ->
       forall s, q <= s ->
         (s + 1) * frameSize < Z.min (len expected) (len actual) ->
         frame_at expected frameSize s <> frame_at actual frameSize s ->
         In (FrameDiff label s (frame_at expected frameSize s)
                       (frame_at actual frameSize s)) frames).
Proof.
  intros Hfs He Ha Hmd.
  induction fuel as [|fuel IH]; intros q shown t Hq Hsh Hidx Hfuel; [lia|].
  rewrite show_loop_step by assumption.
  destruct (Z.ltb_spec ((q + 1) * frameSize)
              (Z.min (len expected) (len actual))) as [Hlt|Hge].
  2: { exists []. destruct t as [f o]. cbn [failed output andb].
       rewrite app_nil_r. split; [reflexivity|].
       intros _ s Hs Hend _. exfalso. nia. }
  destruct (Z.ltb_spec shown maxDiffs) as [Hs|Hs].
  2: { exists []. destruct t as [f o]. cbn [failed output andb].
       rewrite app_nil_r. split; [reflexivity|].
       unfold len. simpl. lia. }
  cbn [andb].
  destruct (bytes_Equal (frame_at expected frameSize q)
                        (frame_at actual frameSize q)) eqn:Eeq.
  - destruct (IH (q + 1) shown t) as [frames [Erun Hall]]; try lia.
    exists frames. split; [exact Erun|].
    intros Hroom s Hqs Hend Hdiff.
    destruct (Z.eq_dec s q) as [->|Hne].
    + apply bytes_Equal_eq in Eeq. contradiction.
    + apply Hall; try assumption. lia.
  - destruct (IH (q + 1) (shown + 1)
                (mkT (failed t)
                     (output t ++ [FrameDiff label q
                                     (frame_at expected frameSize q)
                                     (frame_at actual frameSize q)])))
      as [frames [Erun Hall]]; try lia.
    exists (FrameDiff label q (frame_at expected frameSize q)
                      (frame_at actual frameSize q) :: frames).
    split.
    + rewrite Erun. cbn [failed output]. rewrite <- app_assoc. reflexivity.
    + rewrite len_cons. intros Hroom s Hqs Hend Hdiff.
      destruct (Z.eq_dec s q) as [->|Hne].
      * left. reflexivity.
      * right. apply Hall; try assumption; lia.
Qed.

(** X13: With a frame of at least one byte and fuel above the common length,
    [ShowDiffs] returns, and unless it has written [maxDiffs] reports it
    has reported every frame that ends before the common length and in
    which the two buffers differ. *)
Theorem ShowDiffs_complete (fuel : nat) (label : string)
    (expected actual : list byte) (bitDepth channels maxDiffs : Z) (t : T) :
  1 <= PCMBytesPerSample bitDepth * channels <= GoInt.maxInt ->
  len expected <= GoInt.maxInt -> len actual <= GoInt.maxInt ->
  maxDiffs <= GoInt.maxInt ->
  Z.min (len expected) (len actual) < Z.of_nat fuel ->
  let frameSize := PCMBytesPerSample bitDepth * channels in
  exists frames,
    ShowDiffs fuel label expected actual bitDepth channels maxDiffs t
    = (Ok tt, mkT (failed t) (output t ++ frames)) /\
    (len frames < maxDiffs ->
     forall s, 0 <= s ->
       (s + 1) * frameSize < Z.min (len expected) (len actual) ->
       frame_at expected frameSize s <> frame_at actual frameSize s ->
       In (FrameDiff label s (frame_at expected frameSize s)
                     (frame_at actual frameSize s)) frames).
Proof.
  intros Hfs He Ha Hmd Hfuel frameSize.
  pose proof (len_nonneg expected). pose proof (len_nonneg actual).
  unfold ShowDiffs.
  assert (W : GoInt.mul (PCMBytesPerSample bitDepth) channels = frameSize).
  { apply wrap_id. unfold GoInt.minInt, GoInt.maxInt in *. lia. }
  rewrite W.
  destruct (show_loop_complete label expected actual frameSize maxDiffs
              Hfs He Ha Hmd fuel 0 0 t) as [frames [Erun Hall]];
    try (unfold GoInt.minInt; lia).
  rewrite Z.mul_0_l in Erun. rewrite Z.add_0_l in Hall.
  exists frames. split; [exact Erun|exact Hall].
Qed.

Lemma ShowDiffs_complete_witness :
  let expected := [x01; x02; x03; x04; x05; x06] in
  let actual := [x01; x09; x03; x04; x05; x06] in
  (1 <= PCMBytesPerSample 16 * 1 <= GoInt.maxInt /\
   len expected <= GoInt.maxInt /\ len actual <= GoInt.maxInt /\
   5 <= GoInt.maxInt /\
   Z.min (len expected) (len actual) < Z.of_nat 9) /\
  exists frames,
    ShowDiffs 9 "a vs b" expected actual 16 1 5 newT
    = (Ok tt, mkT (failed newT) (output newT ++ frames)) /\
    (len frames < 5 ->
     forall s, 0 <= s ->
       (s + 1) * (PCMBytesPerSample 16 * 1)
       < Z.min (len expected) (len actual) ->
       frame_at expected (PCMBytesPerSample 16 * 1) s
       <> frame_at actual (PCMBytesPerSample 16 * 1) s ->
       In (FrameDiff "a vs b" s
             (frame_at expected (PCMBytesPerSample 16 * 1) s)
             (frame_at actual (PCMBytesPerSample 16 * 1) s)) frames).
Proof.
  intros expected actual.
  assert (H1 : 1 <= PCMBytesPerSample 16 * 1 <= GoInt.maxInt)
    by (vm_compute; split; discriminate).
  assert (H2 : len expected <= GoInt.maxInt) by (vm_compute; discriminate).
  assert (H3 : len actual <= GoInt.maxInt) by (vm_compute; discriminate).
  assert (H4 : 5 <= GoInt.maxInt) by (vm_compute; discriminate).
  assert (H5 : Z.min (len expected) (len actual) < Z.of_nat 9)
    by (vm_compute; reflexivity).
  split; [auto|].
  exact (ShowDiffs_complete 9 "a vs b" expected actual 16 1 5 newT
           H1 H2 H3 H4 H5).
Defined.

(** X14: With a channel count of zero the frame is empty and the loop of
    [ShowDiffs] never advances: on two buffers that are not empty and a
    positive [maxDiffs] it writes nothing and does not return, whatever
    the fuel. *)
Theorem ShowDiffs_zero_channels_loops (fuel : nat) (label : string)
    (expected actual : list byte) (bitDepth maxDiffs : Z) (t : T) :
  0 < Z.min (len expected) (len actual) ->
  len expected <= GoInt.maxInt -> len actual <= GoInt.maxInt ->
  0 < maxDiffs ->
  ShowDiffs fuel label expected actual bitDepth 0 maxDiffs t = (OutOfFuel, t).
Proof.
  intros Hmin He Ha Hmd. unfold ShowDiffs.
  unfold GoInt.mul. rewrite Z.mul_0_r. change (GoInt.wrap 0) with 0.
  induction fuel as [|fuel IH]; [reflexivity|].
  cbn [show_loop].
  unfold GoInt.sub. rewrite Z.sub_0_r.
  rewrite wrap_id by (unfold GoInt.minInt, GoInt.maxInt in *; lia).
  destruct (Z.ltb_spec 0 (Z.min (len expected) (len actual))); [|lia].
  destruct (Z.ltb_spec 0 maxDiffs); [|lia].
  cbn [andb]. change (GoInt.add 0 0) with 0.
  unfold bind, lift, ret.
  rewrite !slice_ok by lia.
  change (Z.to_nat (0 - 0)) with 0%nat. rewrite !take_0.
  cbn [bytes_Equal negb]. exact IH.
Qed.

Lemma ShowDiffs_zero_channels_loops_witness :
  let expected := [x01; x02] in
  let actual := [x01; x03] in
  (0 < Z.min (len expected) (len actual) /\
   len expected <= GoInt.maxInt /\ len actual <= GoInt.maxInt /\ 0 < 5) /\
  ShowDiffs 100 "a vs b" expected actual 16 0 5 newT = (OutOfFuel, newT).
Proof.
  intros expected actual.
  assert (H1 : 0 < Z.min (len expected) (len actual))
    by (vm_compute; reflexivity).
  assert (H2 : len expected <= GoInt.maxInt) by (vm_compute; discriminate).
  assert (H3 : len actual <= GoInt.maxInt) by (vm_compute; discriminate).
  assert (H4 : 0 < 5) by lia.
  split; [auto|].
  exact (ShowDiffs_zero_channels_loops 100 "a vs b" expected actual 16 5 newT
           H1 H2 H3 H4).
Defined.

(** ** More on the lossy comparator *)

Lemma lossy_loop_max (pcmA pcmB : list byte) :
  len pcmA <= GoInt.maxInt ->
  forall (n : nat) (idx largeDiffs maxDiff : Z),
    0 <= idx ->
    2 * (idx + Z.of_nat n) <= len pcmA ->
    2 * (idx + Z.of_nat n) <= len pcmB ->
    0 <= largeDiffs -> largeDiffs + Z.of_nat n <= GoInt.maxInt ->
    exists maxDiff',
      lossy_loop n idx pcmA pcmB largeDiffs maxDiff
      = Ok (largeDiffs
            + count_where (fun i => loop_diff pcmA pcmB i >? maxDiffPerSample)
                          idx n,
            maxDiff') /\
      maxDiff <= maxDiff' /\
      (forall i, idx <= i < idx + Z.of_nat n ->
                 loop_diff pcmA pcmB i <= maxDiff') /\
      (maxDiff' = maxDiff \/
       exists i, idx <= i < idx + Z.of_nat n /\
                 maxDiff' = loop_diff pcmA pcmB i).
Proof.
  intros Hmax.
  induction n as [|n IH]; intros idx largeDiffs maxDiff Hidx HA HB Hld Hsum.
  - exists maxDiff. cbn [lossy_loop count_where]. rewrite Z.add_0_r.
    split; [reflexivity|]. split; [lia|]. split; [intros i Hi; lia|].
    left. reflexivity.
  - cbn [lossy_loop count_where].
    assert (Hoff : GoInt.mul idx 2 = idx * 2).
    { apply wrap_id. unfold GoInt.minInt, GoInt.maxInt in *. lia. }
    rewrite Hoff.
    destruct (Uint16_sampleAt pcmA idx) as [ua [Ea Sa]]; try lia.
    destruct (Uint16_sampleAt pcmB idx) as [ub [Eb Sb]]; try lia.
    rewrite Ea, Eb. cbn [bind_result]. rewrite Sa, Sb.
    fold (loop_diff pcmA pcmB idx).
    set (d := loop_diff pcmA pcmB idx).
    set (md1 := if d >? maxDiff then d else maxDiff).
    assert (Hmd1 : maxDiff <= md1 /\ d <= md1 /\ (md1 = maxDiff \/ md1 = d)).
    { subst md1. destruct (Z.gtb_spec d maxDiff); lia. }
    assert (Hstep : forall ld1, 0 <= ld1 -> ld1 + Z.of_nat n <= GoInt.maxInt ->
      exists maxDiff',
        lossy_loop n (idx + 1) pcmA pcmB ld1 md1
        = Ok (ld1 + count_where
                      (fun i => loop_diff pcmA pcmB i >? maxDiffPerSample)
                      (idx + 1) n, maxDiff') /\
        maxDiff <= maxDiff' /\
        (forall i, idx <= i < idx + Z.of_nat (S n) ->
                   loop_diff pcmA pcmB i <= maxDiff') /\
        (maxDiff' = maxDiff \/
         exists i, idx <= i < idx + Z.of_nat (S n) /\
                   maxDiff' = loop_diff pcmA pcmB i)).
    { intros ld1 H0 H1.
      destruct (IH (idx + 1) ld1 md1) as [md' [E [Hle [Hub Hatt]]]]; try lia.
      exists md'. split; [exact E|]. split; [lia|]. split.
      - intros i Hi. destruct (Z.eq_dec i idx) as [->|Hne].
        + fold d. lia.
        + apply Hub. lia.
      - destruct Hatt as [->|[i [Hi ->]]].
        + destruct Hmd1 as [_ [_ [-> | ->]]].
          * left. reflexivity.
          * right. exists idx. split; [lia|reflexivity].
        + right. exists i. split; [lia|reflexivity]. }
    destruct (d >? maxDiffPerSample).
    + assert (Hinc : GoInt.add largeDiffs 1 = largeDiffs + 1).
      { apply wrap_id. unfold GoInt.minInt, GoInt.maxInt in *. lia. }
      rewrite Hinc.
      destruct (Hstep (largeDiffs + 1)) as [md' [E Hrest]]; try lia.
      exists md'. split; [|exact Hrest]. rewrite E. f_equal. f_equal. lia.
    + destruct (Hstep largeDiffs) as [md' [E Hrest]]; try lia.
      exists md'. split; [|exact Hrest]. rewrite E. f_equal.
Qed.

(** What the lossy comparator does on 16-bit buffers whose lengths are
    within the tolerance. *)
Lemma lossy_run (fuel : nat) (pcmA pcmB : list byte) (channels : Z) :
  len pcmA <= GoInt.maxInt -> len pcmB <= GoInt.maxInt ->
  GoInt.minInt <= 1152 * channels * 2 <= GoInt.maxInt ->
  Z.abs (len pcmA - len pcmB) <= 1152 * channels * 2 ->
  let lengthDiff := Z.abs (len pcmA - len pcmB) in
  let numSamples := Z.min (len pcmA) (len pcmB) / 2 in
  let largeDiffs :=
    count_where (fun i => loop_diff pcmA pcmB i >? maxDiffPerSample)
                0 (Z.to_nat numSamples) in
  let t1 := mkT false (if lengthDiff >? 0
                       then [LengthDiffTolerated (len pcmA) (len pcmB)
                                                 lengthDiff]
                       else []) in
  exists maxDiff,
    (0 <= maxDiff /\
     (forall i, 0 <= i < numSamples -> loop_diff pcmA pcmB i <= maxDiff) /\
     (maxDiff = 0 \/
      exists i, 0 <= i < numSamples /\ maxDiff = loop_diff pcmA pcmB i)) /\
    CompareLossySamples fuel pcmA pcmB BitDepth16 channels newT
    = if largeDiffs >? numSamples / 100 then
        ShowDiffs fuel "lossy comparison" pcmA pcmB BitDepth16 channels
          defaultMaxDiffSamples
          (mkT true (output t1 ++ [LossyMismatch largeDiffs numSamples
                                     maxDiffPerSample maxDiff]))
      else (Ok tt, t1).
Proof.
  intros HA HB Htol Hwithin lengthDiff numSamples largeDiffs t1.
  pose proof (len_nonneg pcmA) as HnA. pose proof (len_nonneg pcmB) as HnB.
  destruct (lossy_length_values pcmA pcmB channels HA HB Htol) as [Etol Ediff].
  cbv zeta in Ediff.
  assert (Hns : 0 <= numSamples /\
                2 * numSamples <= Z.min (len pcmA) (len pcmB)).
  { subst numSamples.
    pose proof (Z.div_pos (Z.min (len pcmA) (len pcmB)) 2).
    pose proof (Z.mul_div_le (Z.min (len pcmA) (len pcmB)) 2). lia. }
  destruct (lossy_loop_max pcmA pcmB HA (Z.to_nat numSamples) 0 0 0)
    as [maxDiff [Eloop [Hle [Hub Hatt]]]];
    try (unfold GoInt.maxInt in *; lia).
  exists maxDiff. split.
  { split; [exact Hle|]. split.
    - intros i Hi. apply Hub. lia.
    - destruct Hatt as [->|[i [Hi ->]]]; [left; reflexivity|].
      right. exists i. split; [lia|reflexivity]. }
  unfold CompareLossySamples.
  change (negb (BitDepth16 =? BitDepth16)) with false. cbv iota zeta.
  rewrite Etol, Ediff. fold lengthDiff.
  destruct (Z.gtb_spec lengthDiff (1152 * channels * 2)); [lia|].
  assert (Enum : GoInt.quot (Z.min (len pcmA) (len pcmB)) 2 = numSamples).
  { unfold GoInt.quot. rewrite Z.quot_div_nonneg by lia. fold numSamples.
    apply wrap_id. unfold GoInt.minInt, GoInt.maxInt in *. lia. }
  rewrite Enum.
  assert (Eml : GoInt.quot numSamples lossyLargeDiffPct = numSamples / 100).
  { unfold GoInt.quot, lossyLargeDiffPct.
    rewrite Z.quot_div_nonneg by lia. apply wrap_id.
    pose proof (Z.div_pos numSamples 100).
    pose proof (Z.mul_div_le numSamples 100).
    unfold GoInt.minInt, GoInt.maxInt in *. lia. }
  rewrite Eml.
  assert (Et1 : (if lengthDiff >? 0
                 then Logf (LengthDiffTolerated (len pcmA) (len pcmB)
                                                lengthDiff)
                 else ret tt) newT = (Ok tt, t1)).
  { subst t1. destruct (lengthDiff >? 0); reflexivity. }
  unfold bind at 1. rewrite Et1. cbv iota beta.
  unfold bind at 1. unfold lift at 1. rewrite Eloop. cbv iota beta.
  rewrite Z.add_0_l. fold largeDiffs.
  destruct (largeDiffs >? numSamples / 100); reflexivity.
Qed.

(** X15: For 16-bit buffers whose lengths are within the tolerance, the lossy
    comparator marks the test as failed exactly when the samples whose
    computed difference exceeds 2 are more than a hundredth, rounded down,
    of the samples of the common length. *)
Theorem lossy_verdict (fuel : nat) (pcmA pcmB : list byte) (channels : Z) :
  len pcmA <= GoInt.maxInt -> len pcmB <= GoInt.maxInt ->
  GoInt.minInt <= 1152 * channels * 2 <= GoInt.maxInt ->
  Z.abs (len pcmA - len pcmB) <= 1152 * channels * 2 ->
  let numSamples := Z.min (len pcmA) (len pcmB) / 2 in
  let largeDiffs :=
    count_where (fun i => loop_diff pcmA pcmB i >? maxDiffPerSample)
                0 (Z.to_nat numSamples) in
  failed (snd (CompareLossySamples fuel pcmA pcmB BitDepth16 channels newT))
  = true
  <-> numSamples / 100 < largeDiffs.
Proof.
  intros HA HB Htol Hwithin numSamples largeDiffs.
  destruct (lossy_run fuel pcmA pcmB channels HA HB Htol Hwithin)
    as [maxDiff [_ Erun]].
  cbv zeta in Erun. fold numSamples largeDiffs in Erun. rewrite Erun.
  destruct (Z.gtb_spec largeDiffs (numSamples / 100)) as [Hgt|Hle].
  - match goal with
    | |- context [ShowDiffs ?f ?l ?e ?a ?bd ?ch ?md ?t] =>
        destruct (ShowDiffs_adds_frames f l e a bd ch md t) as [Hfl _]
    end.
    rewrite Hfl. cbn [failed]. split; [lia|reflexivity].
  - cbn [snd failed]. split; [discriminate|lia].
Qed.

Lemma lossy_verdict_witness :
  let pcmA := [x05; x00; x01; x00; x07] in
  let pcmB := [x00; x00; x01; x00] in
  (len pcmA <= GoInt.maxInt /\ len pcmB <= GoInt.maxInt /\
   GoInt.minInt <= 1152 * 1 * 2 <= GoInt.maxInt /\
   Z.abs (len pcmA - len pcmB) <= 1152 * 1 * 2) /\
  (failed (snd (CompareLossySamples 9 pcmA pcmB BitDepth16 1 newT)) = true
   <-> Z.min (len pcmA) (len pcmB) / 2 / 100
       < count_where (fun i => loop_diff pcmA pcmB i >? maxDiffPerSample)
                     0 (Z.to_nat (Z.min (len pcmA) (len pcmB) / 2))).
Proof.
  intros pcmA pcmB.
  assert (H1 : len pcmA <= GoInt.maxInt) by (vm_compute; discriminate).
  assert (H2 : len pcmB <= GoInt.maxInt) by (vm_compute; discriminate).
  assert (H3 : GoInt.minInt <= 1152 * 1 * 2 <= GoInt.maxInt)
    by (vm_compute; split; discriminate).
  assert (H4 : Z.abs (len pcmA - len pcmB) <= 1152 * 1 * 2)
    by (vm_compute; discriminate).
  split; [auto|].
  exact (lossy_verdict 9 pcmA pcmB 1 H1 H2 H3 H4).
Defined.

(** X16: A difference of the lengths that is within the tolerance is written
    as the first message and does not fail the test: when the large
    differences are within their bound, that message is all there is. *)
Theorem lossy_tolerated_length_logged (fuel : nat) (pcmA pcmB : list byte)
    (channels : Z) :
  len pcmA <= GoInt.maxInt -> len pcmB <= GoInt.maxInt ->
  GoInt.minInt <= 1152 * channels * 2 <= GoInt.maxInt ->
  0 < Z.abs (len pcmA - len pcmB) <= 1152 * channels * 2 ->
  let lengthDiff := Z.abs (len pcmA - len pcmB) in
  let numSamples := Z.min (len pcmA) (len pcmB) / 2 in
  let largeDiffs :=
    count_where (fun i => loop_diff pcmA pcmB i >? maxDiffPerSample)
                0 (Z.to_nat numSamples) in
  let run := CompareLossySamples fuel pcmA pcmB BitDepth16 channels newT in
  (exists rest,
     output (snd run)
     = LengthDiffTolerated (len pcmA) (len pcmB) lengthDiff :: rest) /\
  (largeDiffs <= numSamples / 100 ->
   run = (Ok tt, mkT false [LengthDiffTolerated (len pcmA) (len pcmB)
                                                lengthDiff])).
Proof.
  intros HA HB Htol Hwithin lengthDiff numSamples largeDiffs run.
  destruct (lossy_run fuel pcmA pcmB channels HA HB Htol (proj2 Hwithin))
    as [maxDiff [_ Erun]].
  cbv zeta in Erun. fold lengthDiff numSamples largeDiffs run in Erun.
  destruct (Z.gtb_spec lengthDiff 0) as [_|Hz]; [|subst lengthDiff; lia].
  rewrite Erun.
  destruct (Z.gtb_spec largeDiffs (numSamples / 100)) as [Hgt|Hle].
  - split; [|lia].
    match goal with
    | |- context [ShowDiffs ?f ?l ?e ?a ?bd ?ch ?md ?t] =>
        destruct (ShowDiffs_adds_frames f l e a bd ch md t)
          as [_ [frames [Eo _]]]
    end.
    rewrite Eo. cbn [output app]. eexists. reflexivity.
  - split; [|reflexivity]. cbn [snd output]. eexists. reflexivity.
Qed.

Lemma lossy_tolerated_length_logged_witness :
  let pcmA := [x01; x00; x01; x00; x07] in
  let pcmB := [x00; x00; x01; x00] in
  (len pcmA <= GoInt.maxInt /\ len pcmB <= GoInt.maxInt /\
   GoInt.minInt <= 1152 * 1 * 2 <= GoInt.maxInt /\
   0 < Z.abs (len pcmA - len pcmB) <= 1152 * 1 * 2) /\
  CompareLossySamples 9 pcmA pcmB BitDepth16 1 newT
  = (Ok tt, mkT false [LengthDiffTolerated 5 4 1]).
Proof.
  intros pcmA pcmB.
  assert (H1 : len pcmA <= GoInt.maxInt) by (vm_compute; discriminate).
  assert (H2 : len pcmB <= GoInt.maxInt) by (vm_compute; discriminate).
  assert (H3 : GoInt.minInt <= 1152 * 1 * 2 <= GoInt.maxInt)
    by (vm_compute; split; discriminate).
  assert (H4 : 0 < Z.abs (len pcmA - len pcmB) <= 1152 * 1 * 2)
    by (vm_compute; split; [reflexivity|discriminate]).
  split; [auto|].
  apply (proj2 (lossy_tolerated_length_logged 9 pcmA pcmB 1 H1 H2 H3 H4)).
  vm_compute. discriminate.
Defined.

(** X17: When the lossy comparator fails on the samples, its message gives the
    number of large differences, the number of samples compared and the
    greatest difference the loop has computed (0 when none is positive);
    only frame reports follow it. *)
Theorem lossy_reports_max (fuel : nat) (pcmA pcmB : list byte)
    (channels : Z) :
  len pcmA <= GoInt.maxInt -> len pcmB <= GoInt.maxInt ->
  GoInt.minInt <= 1152 * channels * 2 <= GoInt.maxInt ->
  Z.abs (len pcmA - len pcmB) <= 1152 * channels * 2 ->
  let lengthDiff := Z.abs (len pcmA - len pcmB) in
  let numSamples := Z.min (len pcmA) (len pcmB) / 2 in
  let largeDiffs :=
    count_where (fun i => loop_diff pcmA pcmB i >? maxDiffPerSample)
                0 (Z.to_nat numSamples) in
  numSamples / 100 < largeDiffs ->
  exists maxDiff frames,
    output (snd (CompareLossySamples fuel pcmA pcmB BitDepth16 channels newT))
    = (if lengthDiff >? 0
       then [LengthDiffTolerated (len pcmA) (len pcmB) lengthDiff]
       else [])
      ++ LossyMismatch largeDiffs numSamples 2 maxDiff :: frames /\
    forallb is_frame_diff frames = true /\
    0 <= maxDiff /\
    (forall i, 0 <= i < numSamples -> loop_diff pcmA pcmB i <= maxDiff) /\
    (maxDiff = 0 \/
     exists i, 0 <= i < numSamples /\ maxDiff = loop_diff pcmA pcmB i).
Proof.
  intros HA HB Htol Hwithin lengthDiff numSamples largeDiffs Hmany.
  destruct (lossy_run fuel pcmA pcmB channels HA HB Htol Hwithin)
    as [maxDiff [[H0 [Hub Hatt]] Erun]].
  cbv zeta in Erun. fold lengthDiff numSamples largeDiffs in Erun.
  rewrite Erun.
  destruct (Z.gtb_spec largeDiffs (numSamples / 100)); [|lia].
  match goal with
  | |- context [ShowDiffs ?f ?l ?e ?a ?bd ?ch ?md ?t] =>
      destruct (ShowDiffs_adds_frames f l e a bd ch md t)
        as [_ [frames [Eo Hfr]]]
  end.
  exists maxDiff, frames. rewrite Eo. cbn [output].
  rewrite <- app_assoc. repeat split; try assumption.
Qed.

Lemma lossy_reports_max_witness :
  let pcmA := [x05; x00; x01; x00] in
  let pcmB := [x00; x00; x01; x00] in
  (len pcmA <= GoInt.maxInt /\ len pcmB <= GoInt.maxInt /\
   GoInt.minInt <= 1152 * 1 * 2 <= GoInt.maxInt /\
   Z.abs (len pcmA - len pcmB) <= 1152 * 1 * 2 /\
   Z.min (len pcmA) (len pcmB) / 2 / 100
   < count_where (fun i => loop_diff pcmA pcmB i >? maxDiffPerSample)
                 0 (Z.to_nat (Z.min (len pcmA) (len pcmB) / 2))) /\
  exists maxDiff frames,
    output (snd (CompareLossySamples 9 pcmA pcmB BitDepth16 1 newT))
    = LossyMismatch 1 2 2 maxDiff :: frames /\
    forallb is_frame_diff frames = true /\
    0 <= maxDiff /\
    (forall i, 0 <= i < 2 -> loop_diff pcmA pcmB i <= maxDiff) /\
    (maxDiff = 0 \/
     exists i, 0 <= i < 2 /\ maxDiff = loop_diff pcmA pcmB i).
Proof.
  intros pcmA pcmB.
  assert (H1 : len pcmA <= GoInt.maxInt) by (vm_compute; discriminate).
  assert (H2 : len pcmB <= GoInt.maxInt) by (vm_compute; discriminate).
  assert (H3 : GoInt.minInt <= 1152 * 1 * 2 <= GoInt.maxInt)
    by (vm_compute; split; discriminate).
  assert (H4 : Z.abs (len pcmA - len pcmB) <= 1152 * 1 * 2)
    by (vm_compute; discriminate).
  assert (H5 : Z.min (len pcmA) (len pcmB) / 2 / 100
               < count_where
                   (fun i => loop_diff pcmA pcmB i >? maxDiffPerSample)
                   0 (Z.to_nat (Z.min (len pcmA) (len pcmB) / 2)))
    by (vm_compute; reflexivity).
  split; [auto|].
  exact (lossy_reports_max 9 pcmA pcmB 1 H1 H2 H3 H4 H5).
Defined.

Lemma loop_diff_same (pcm : list byte) (i : Z) : loop_diff pcm pcm i = 0.
Proof.
  unfold loop_diff, sample_diff, Int16.sub. rewrite Z.sub_diag. reflexivity.
Qed.

(** X18: A 16-bit buffer compared with itself passes the lossy comparator and
    nothing is written, for every channel count that is not negative. *)
Theorem lossy_identical_pass (fuel : nat) (pcm : list byte) (channels : Z) :
  len pcm <= GoInt.maxInt ->
  0 <= channels -> 1152 * channels * 2 <= GoInt.maxInt ->
  CompareLossySamples fuel pcm pcm BitDepth16 channels newT = (Ok tt, newT).
Proof.
  intros Hlen Hch Htol.
  destruct (lossy_equal_length fuel pcm pcm channels eq_refl Hlen Hch Htol)
    as [Hpass _].
  apply Hpass.
  rewrite count_where_none by (intros i _; rewrite loop_diff_same; reflexivity).
  apply Z.quot_pos; [|lia]. apply Z.quot_pos; [apply len_nonneg|lia].
Qed.

Lemma lossy_identical_pass_witness :
  let pcm := [x05; x80; x01; xff] in
  (len pcm <= GoInt.maxInt /\ 0 <= 2 /\ 1152 * 2 * 2 <= GoInt.maxInt) /\
  CompareLossySamples 0 pcm pcm BitDepth16 2 newT = (Ok tt, newT).
Proof.
  intros pcm.
  assert (H1 : len pcm <= GoInt.maxInt) by (vm_compute; discriminate).
  assert (H2 : 0 <= 2) by lia.
  assert (H3 : 1152 * 2 * 2 <= GoInt.maxInt) by (vm_compute; discriminate).
  split; [auto|].
  exact (lossy_identical_pass 0 pcm 2 H1 H2 H3).
Defined.

(** ** The computed difference of two samples *)

Lemma swrap16_cases (x : Z) :
  -65536 <= x < 65536 ->
  GoInt.swrap 16 x
  = if x <? -32768 then x + 65536
    else if x <? 32768 then x else x - 65536.
Proof.
  intros Hx. unfold GoInt.swrap.
  change (2 ^ (16 - 1)) with 32768. change (2 ^ 16) with 65536.
  destruct (Z.ltb_spec x (-32768)); [|destruct (Z.ltb_spec x 32768)].
  - rewrite <- (Z_mod_plus_full (x + 32768) 1 65536).
    rewrite Z.mod_small; lia.
  - rewrite Z.mod_small; lia.
  - rewrite <- (Z_mod_plus_full (x + 32768) (-1) 65536).
    rewrite Z.mod_small; lia.
Qed.

(** X19: For two 16-bit samples the loop of the lossy comparator counts a
    large difference exactly when the exact difference is above 2, below
    65534 and not 32768: beyond 32767 the 16-bit subtraction wraps, and
    differences of 65534 and 65535 come out as 2 and 1. *)
Theorem sample_diff_large_iff (sampleA sampleB : Z) :
  -32768 <= sampleA <= 32767 -> -32768 <= sampleB <= 32767 ->
  (sample_diff sampleA sampleB >? maxDiffPerSample) = true <->
  2 < Z.abs (sampleA - sampleB) < 65534 /\
  Z.abs (sampleA - sampleB) <> 32768.
Proof.
  intros HA HB. unfold sample_diff, Int16.sub, Int16.neg, maxDiffPerSample.
  rewrite (swrap16_cases (sampleA - sampleB)) by lia.
  destruct (Z.ltb_spec (sampleA - sampleB) (-32768)).
  - destruct (Z.ltb_spec (sampleA - sampleB + 65536) 0); [lia|].
    destruct (Z.gtb_spec (sampleA - sampleB + 65536) 2); split; lia.
  - destruct (Z.ltb_spec (sampleA - sampleB) 32768).
    + destruct (Z.ltb_spec (sampleA - sampleB) 0).
      * rewrite (swrap16_cases (- (sampleA - sampleB)))
          by lia.
        destruct (Z.ltb_spec (- (sampleA - sampleB)) (-32768)); [lia|].
        destruct (Z.ltb_spec (- (sampleA - sampleB)) 32768).
        -- destruct (Z.gtb_spec (- (sampleA - sampleB)) 2); split; lia.
        -- destruct (Z.gtb_spec (- (sampleA - sampleB) - 65536) 2);
             split; lia.
      * destruct (Z.gtb_spec (sampleA - sampleB) 2); split; lia.
    + destruct (Z.ltb_spec (sampleA - sampleB - 65536) 0); [|lia].
      rewrite (swrap16_cases (- (sampleA - sampleB - 65536)))
        by lia.
      destruct (Z.ltb_spec (- (sampleA - sampleB - 65536)) (-32768)); [lia|].
      destruct (Z.ltb_spec (- (sampleA - sampleB - 65536)) 32768).
      * destruct (Z.gtb_spec (- (sampleA - sampleB - 65536)) 2); split; lia.
      * destruct (Z.gtb_spec (- (sampleA - sampleB - 65536) - 65536) 2);
          split; lia.
Qed.

Lemma sample_diff_large_iff_witness :
  (-32768 <= 20000 <= 32767 /\ -32768 <= -20000 <= 32767) /\
  ((sample_diff 20000 (-20000) >? maxDiffPerSample) = true <->
   2 < Z.abs (20000 - -20000) < 65534 /\ Z.abs (20000 - -20000) <> 32768).
Proof.
  assert (H1 : -32768 <= 20000 <= 32767) by lia.
  assert (H2 : -32768 <= -20000 <= 32767) by lia.
  split; [auto|].
  exact (sample_diff_large_iff 20000 (-20000) H1 H2).
Defined.

(** ** More on the mono to stereo expansion *)

(** X20: For a bit depth strictly between -8 and 8 other than 4 the bytes per
    sample are zero and [MonoToStereo] panics on the division by them,
    whatever the buffer. *)
Theorem MonoToStereo_zero_depth_panics (mono : list byte) (bitDepth : Z) :
  -8 < bitDepth < 8 -> bitDepth <> 4 ->
  MonoToStereo mono bitDepth = Panic.
Proof.
  intros Hr H4. unfold MonoToStereo.
  rewrite (bytes_per_sample_zero bitDepth Hr H4).
  reflexivity.
Qed.

Lemma MonoToStereo_zero_depth_panics_witness :
  (-8 < 7 < 8 /\ 7 <> 4) /\ MonoToStereo [x01; x02] 7 = Panic.
Proof.
  assert (H1 : -8 < 7 < 8) by lia.
  assert (H2 : 7 <> 4) by discriminate.
  split; [auto|].
  exact (MonoToStereo_zero_depth_panics [x01; x02] 7 H1 H2).
Defined.

Lemma stereo_bytes_take (k : nat) :
  forall (n : nat) (m : list byte),
    stereo_bytes n k (take (n * k) m) = stereo_bytes n k m.
Proof.
  induction n as [|n IH]; intros m; [reflexivity|].
  cbn [stereo_bytes].
  rewrite take_take. replace (Nat.min k (S n * k)) with k by lia.
  replace (S n * k)%nat with (k + n * k)%nat by lia.
  rewrite <- take_drop_commute, IH. reflexivity.
Qed.

(** X21: The bytes after the last whole sample do not count: for a depth of at
    least one byte per sample, [MonoToStereo] returns what it returns on
    the buffer cut to its whole samples, twice the length of that. *)
Theorem MonoToStereo_ignores_partial (mono : list byte) (bitDepth : Z) :
  1 <= PCMBytesPerSample bitDepth ->
  2 * len mono <= GoInt.maxInt ->
  let bps := PCMBytesPerSample bitDepth in
  let whole := take (Z.to_nat (bps * (len mono / bps))) mono in
  exists stereo,
    MonoToStereo mono bitDepth = Ok stereo /\
    MonoToStereo whole bitDepth = Ok stereo /\
    len stereo = 2 * (bps * (len mono / bps)).
Proof.
  intros Hbps Hmax bps whole. fold bps in Hbps.
  pose proof (len_nonneg mono) as Hm.
  set (q := len mono / bps).
  assert (Hq : 0 <= q /\ bps * q <= len mono).
  { subst q. pose proof (Z.div_pos (len mono) bps).
    pose proof (Z.mul_div_le (len mono) bps). lia. }
  assert (Hw : len whole = bps * q).
  { subst whole. fold q. unfold len in *. rewrite length_take. lia. }
  assert (Hwq : len whole / bps = q).
  { rewrite Hw, Z.mul_comm. apply Z.div_mul. lia. }
  exists (stereo_bytes (Z.to_nat q) (Z.to_nat bps) mono).
  split; [|split].
  - apply MonoToStereo_bytes; assumption.
  - rewrite MonoToStereo_bytes by (try assumption; lia).
    cbv zeta. fold bps. rewrite Hwq. f_equal. subst whole. fold q.
    replace (Z.to_nat (bps * q)) with (Z.to_nat q * Z.to_nat bps)%nat by nia.
    apply stereo_bytes_take.
  - unfold len. rewrite length_stereo_bytes by (unfold len in *; nia). nia.
Qed.

Lemma MonoToStereo_ignores_partial_witness :
  let mono := [x01; x02; x03; x04; x05] in
  (1 <= PCMBytesPerSample 16 /\ 2 * len mono <= GoInt.maxInt) /\
  exists stereo,
    MonoToStereo mono 16 = Ok stereo /\
    MonoToStereo [x01; x02; x03; x04] 16 = Ok stereo /\
    len stereo = 8.
Proof.
  intros mono.
  assert (H1 : 1 <= PCMBytesPerSample 16) by (vm_compute; discriminate).
  assert (H2 : 2 * len mono <= GoInt.maxInt) by (vm_compute; discriminate).
  split; [auto|].
  exact (MonoToStereo_ignores_partial mono 16 H1 H2).
Defined.

Lemma stereo_bytes_app (k : nat) (rest : list byte) (n : nat) :
  forall (na : nat) (a : list byte),
    length a = (na * k)%nat ->
    stereo_bytes (na + n) k (a ++ rest)
    = stereo_bytes na k a ++ stereo_bytes n k rest.
Proof.
  induction na as [|na IH]; intros a Ha.
  - destruct a; [reflexivity|discriminate].
  - cbn [Nat.add stereo_bytes].
    rewrite take_app_le by lia. rewrite drop_app_le by lia.
    rewrite IH by (rewrite length_drop; lia).
    rewrite <- !app_assoc. reflexivity.
Qed.

(** X22: The expansion goes through concatenation: for a depth of the
    enumerated set and a first buffer of whole samples, expanding two
    buffers one after the other is expanding each and joining the
    results. *)
Theorem MonoToStereo_app (a rest : list byte) (bitDepth : Z) :
  enumerated bitDepth ->
  len a mod PCMBytesPerSample bitDepth = 0 ->
  2 * (len a + len rest) <= GoInt.maxInt ->
  exists sa sr,
    MonoToStereo a bitDepth = Ok sa /\
    MonoToStereo rest bitDepth = Ok sr /\
    MonoToStereo (a ++ rest) bitDepth = Ok (sa ++ sr).
Proof.
  intros Hen Hmod Hmax.
  pose proof (PCMBytesPerSample_enumerated bitDepth Hen) as Hbps.
  pose proof (len_nonneg a) as Hna. pose proof (len_nonneg rest) as Hnr.
  set (bps := PCMBytesPerSample bitDepth) in *.
  set (qa := len a / bps). set (qr := len rest / bps).
  assert (Ha : len a = qa * bps).
  { subst qa. pose proof (Z.div_mod (len a) bps). lia. }
  assert (Hqa : 0 <= qa) by (subst qa; apply Z.div_pos; lia).
  assert (Hqr : 0 <= qr) by (subst qr; apply Z.div_pos; lia).
  assert (Hsum : len (a ++ rest) / bps = qa + qr).
  { rewrite len_app, Ha. subst qr. rewrite Z.div_add_l by lia. reflexivity. }
  exists (stereo_bytes (Z.to_nat qa) (Z.to_nat bps) a).
  exists (stereo_bytes (Z.to_nat qr) (Z.to_nat bps) rest).
  split; [|split].
  - apply MonoToStereo_bytes; lia.
  - apply MonoToStereo_bytes; lia.
  - rewrite MonoToStereo_bytes by (try rewrite len_app; lia).
    cbv zeta. fold bps. rewrite Hsum.
    rewrite Z2Nat.inj_add by lia. f_equal.
    apply stereo_bytes_app. unfold len in Ha. nia.
Qed.

Lemma MonoToStereo_app_witness :
  let a := [x01; x02; x03; x04] in
  let rest := [x05; x06; x07] in
  (enumerated 16 /\ len a mod PCMBytesPerSample 16 = 0 /\
   2 * (len a + len rest) <= GoInt.maxInt) /\
  exists sa sr,
    MonoToStereo a 16 = Ok sa /\
    MonoToStereo rest 16 = Ok sr /\
    MonoToStereo (a ++ rest) 16 = Ok (sa ++ sr).
Proof.
  intros a rest.
  assert (H1 : enumerated 16) by (unfold enumerated; simpl; tauto).
  assert (H2 : len a mod PCMBytesPerSample 16 = 0) by reflexivity.
  assert (H3 : 2 * (len a + len rest) <= GoInt.maxInt)
    by (vm_compute; discriminate).
  split; [auto|].
  exact (MonoToStereo_app a rest 16 H1 H2 H3).
Defined.

(** ** Raw format and codec names *)

(** X23: For every bit depth the codec name is the format name behind the
    prefix [pcm_]: the two lookups agree on the depth they fall back to. *)
Theorem RawPCMCodec_of_format (bitDepth : Z) :
  RawPCMCodec bitDepth = "pcm_" +:+ RawPCMFormat bitDepth.
Proof.
  unfold RawPCMCodec, RawPCMFormat.
  destruct (bitDepth =? BitDepth8); [reflexivity|].
  destruct (bitDepth =? BitDepth24); [reflexivity|].
  destruct (bitDepth =? BitDepth32); reflexivity.
Qed.

(** ** Benchmark options *)

(** X24: [WithDefaults] leaves no field at zero, keeps every field that is not
    zero (a negative one too), and applying it twice is applying it
    once. *)
Theorem WithDefaults_fills (o : BenchOptions) :
  Iterations (WithDefaults o) <> 0 /\
  Duration (WithDefaults o) <> 0 /\
  (Iterations o <> 0 -> Iterations (WithDefaults o) = Iterations o) /\
  (Duration o <> 0 -> Duration (WithDefaults o) = Duration o) /\
  WithDefaults (WithDefaults o) = WithDefaults o.
Proof.
  destruct o as [it du]. unfold WithDefaults. cbn [Iterations Duration].
  assert (Hi : (DefaultBenchIterations =? 0) = false) by reflexivity.
  assert (Hd : (DefaultBenchDuration =? 0) = false) by reflexivity.
  destruct (Z.eqb_spec it 0) as [->|Hit]; cbn [Iterations Duration];
    destruct (Z.eqb_spec du 0) as [->|Hdu]; cbn [Iterations Duration];
    rewrite ?Hi, ?Hd; cbn [Iterations Duration]; rewrite ?Hi, ?Hd;
    try (destruct (Z.eqb_spec it 0); [contradiction|]);
    cbn [Iterations Duration];
    try (destruct (Z.eqb_spec du 0); [contradiction|]);
    repeat split; try (intros; reflexivity); try assumption;
    try (intros E; discriminate E); try (intros; congruence).
Qed.

(** ** Benchmark statistics *)

Lemma sorted_lookup_le (l : list Z) :
  StronglySorted Z.le l ->
  forall (i j : nat) (x y : Z),
    (i <= j)%nat -> l !! i = Some x -> l !! j = Some y -> x <= y.
Proof.
  induction 1 as [|a l Hs IH Hall]; intros i j x y Hij Hi Hj.
  - rewrite lookup_nil in Hi. discriminate.
  - destruct i as [|i]; destruct j as [|j]; simpl in Hi, Hj.
    + inversion Hi; inversion Hj; subst. lia.
    + inversion Hi; subst. rewrite Forall_forall in Hall.
      apply Hall. eapply list_elem_of_lookup_2. exact Hj.
    + lia.
    + apply (IH i j); [lia|assumption|assumption].
Qed.

Lemma duration_at_ok (s : list Z) (i : Z) :
  0 <= i < len s ->
  exists d, duration_at s i = Ok d /\ s !! Z.to_nat i = Some d.
Proof.
  intros Hi. unfold duration_at.
  destruct (Z.leb_spec 0 i); [|lia].
  destruct (Z.ltb_spec i (len s)); [|lia]. simpl.
  destruct (s !! Z.to_nat i) as [d|] eqn:E.
  - exists d. split; reflexivity.
  - apply lookup_ge_None in E. unfold len in *. lia.
Qed.

Section ComputeResultProperties.

Variable float_mean : list Z -> Z.
Variable float_stddev : list Z -> Z.

(** What [ComputeResult] returns on durations that are not empty. *)
Lemma ComputeResult_sorted (format : BenchFormat) (tool operation : string)
    (durations : list Z) (pcmSize : Z) :
  durations <> [] -> len durations <= GoInt.maxInt ->
  let sorted := merge_sort Z.le durations in
  let n := length durations in
  exists median min max,
    ComputeResult float_mean float_stddev format tool operation durations
                  pcmSize
    = Ok (mkBenchResult format tool operation median
            (float_mean durations) min max (float_stddev durations) pcmSize) /\
    sorted !! (n / 2)%nat = Some median /\
    sorted !! 0%nat = Some min /\
    sorted !! (n - 1)%nat = Some max.
Proof.
  intros Hne Hmax sorted n.
  assert (Hlen : length sorted = n).
  { subst sorted n. apply Permutation_length, merge_sort_Permutation. }
  assert (Hn : (1 <= n)%nat).
  { subst n. destruct durations; [contradiction|simpl; lia]. }
  assert (Hls : len sorted = Z.of_nat n) by (unfold len; lia).
  assert (Hnz : Z.of_nat n <= GoInt.maxInt) by (subst n; exact Hmax).
  unfold ComputeResult. fold sorted. rewrite Hls.
  assert (Hq : GoInt.quot (Z.of_nat n) 2 = Z.of_nat (n / 2)).
  { unfold GoInt.quot. rewrite Z.quot_div_nonneg by lia.
    replace (Z.of_nat n / 2) with (Z.of_nat (n / 2))
      by (rewrite Nat2Z.inj_div; reflexivity).
    apply wrap_id.
    assert (n / 2 < n)%nat by (apply Nat.div_lt; lia).
    unfold GoInt.minInt, GoInt.maxInt in *. lia. }
  assert (Hs : GoInt.sub (Z.of_nat n) 1 = Z.of_nat (n - 1)).
  { unfold GoInt.sub. rewrite wrap_id.
    - lia.
    - unfold GoInt.minInt, GoInt.maxInt in *. lia. }
  rewrite Hq, Hs.
  assert (Hhalf : (n / 2 < n)%nat) by (apply Nat.div_lt; lia).
  destruct (duration_at_ok sorted (Z.of_nat (n / 2))) as [median [E1 L1]];
    [lia|].
  destruct (duration_at_ok sorted 0) as [min [E2 L2]]; [lia|].
  destruct (duration_at_ok sorted (Z.of_nat (n - 1))) as [max [E3 L3]];
    [lia|].
  rewrite E1, E2, E3. cbn [bind_result].
  rewrite Nat2Z.id in L1, L3. change (Z.to_nat 0) with 0%nat in L2.
  exists median, min, max. auto.
Qed.

(** X25: [ComputeResult] panics exactly when there are no durations, on
    the index into the empty sorted slice. *)
Theorem ComputeResult_panics_iff (format : BenchFormat)
    (tool operation : string) (durations : list Z) (pcmSize : Z) :
  len durations <= GoInt.maxInt ->
  ComputeResult float_mean float_stddev format tool operation durations
                pcmSize = Panic
  <-> durations = [].
Proof.
  intros Hmax. split.
  - intros E. destruct durations as [|d l]; [reflexivity|].
    destruct (ComputeResult_sorted format tool operation (d :: l) pcmSize)
      as [median [min [max [E' _]]]]; [discriminate|exact Hmax|].
    rewrite E' in E. discriminate.
  - intros ->. reflexivity.
Qed.

(** X26: With at least one duration [ComputeResult] returns; its minimum and
    maximum are durations of the input that bound all of them, its median
    is a duration of the input between the two, and the format, the tool,
    the operation and the size are passed through. *)
Theorem ComputeResult_bounds (format : BenchFormat) (tool operation : string)
    (durations : list Z) (pcmSize : Z) :
  durations <> [] -> len durations <= GoInt.maxInt ->
  exists r,
    ComputeResult float_mean float_stddev format tool operation durations
                  pcmSize = Ok r /\
    In (Min r) durations /\ In (Max r) durations /\
    In (Median r) durations /\
    (forall d, In d durations -> Min r <= d <= Max r) /\
    Min r <= Median r <= Max r /\
    Format r = format /\ Tool r = tool /\ Op r = operation /\
    PCMSize r = pcmSize.
Proof.
  intros Hne Hmax.
  destruct (ComputeResult_sorted format tool operation durations pcmSize
              Hne Hmax) as [median [min [max [E [L1 [L2 L3]]]]]].
  set (sorted := merge_sort Z.le durations) in *.
  set (n := length durations) in *.
  assert (Hperm : sorted ≡ₚ durations) by apply merge_sort_Permutation.
  assert (Hss : StronglySorted Z.le sorted)
    by (apply StronglySorted_merge_sort; apply _).
  assert (Hlen : length sorted = n) by (apply Permutation_length, Hperm).
  assert (Hin : forall i d, sorted !! i = Some d -> In d durations).
  { intros i d Hl. apply list_elem_of_In. rewrite <- Hperm.
    eapply list_elem_of_lookup_2. exact Hl. }
  eexists. split; [exact E|]. cbn [Min Max Median Format Tool Op PCMSize].
  repeat split; eauto.
  - apply list_elem_of_In in H. rewrite <- Hperm in H.
    apply list_elem_of_lookup_1 in H as [i Hi].
    apply (sorted_lookup_le sorted Hss 0 i); [lia|exact L2|exact Hi].
  - apply list_elem_of_In in H. rewrite <- Hperm in H.
    apply list_elem_of_lookup_1 in H as [i Hi].
    pose proof (lookup_lt_Some _ _ _ Hi).
    apply (sorted_lookup_le sorted Hss i (n - 1)); [lia|exact Hi|exact L3].
  - apply (sorted_lookup_le sorted Hss 0 (n / 2)); [lia|exact L2|exact L1].
  - pose proof (lookup_lt_Some _ _ _ L1).
    apply (sorted_lookup_le sorted Hss (n / 2) (n - 1));
      [lia|exact L1|exact L3].
Qed.

End ComputeResultProperties.

Lemma ComputeResult_panics_iff_witness :
  let float_mean := fun _ : list Z => 0 in
  let float_stddev := fun _ : list Z => 0 in
  let format := mkBenchFormat "flac" 44100 16 2 in
  len (@nil Z) <= GoInt.maxInt /\
  (ComputeResult float_mean float_stddev format "tool" "decode" [] 7 = Panic
   <-> @nil Z = []).
Proof.
  intros float_mean float_stddev format.
  assert (H : len (@nil Z) <= GoInt.maxInt) by (vm_compute; discriminate).
  split; [exact H|].
  exact (ComputeResult_panics_iff float_mean float_stddev format
           "tool" "decode" [] 7 H).
Defined.

Lemma ComputeResult_bounds_witness :
  let float_mean := fun _ : list Z => 0 in
  let float_stddev := fun _ : list Z => 0 in
  let format := mkBenchFormat "flac" 44100 16 2 in
  let durations := [30; 10; 20; 40] in
  (durations <> [] /\ len durations <= GoInt.maxInt) /\
  exists r,
    ComputeResult float_mean float_stddev format "tool" "decode" durations 7
    = Ok r /\
    In (Min r) durations /\ In (Max r) durations /\
    In (Median r) durations /\
    (forall d, In d durations -> Min r <= d <= Max r) /\
    Min r <= Median r <= Max r /\
    Format r = format /\ Tool r = "tool" /\ Op r = "decode" /\
    PCMSize r = 7.
Proof.
  intros float_mean float_stddev format durations.
  assert (H1 : durations <> []) by discriminate.
  assert (H2 : len durations <= GoInt.maxInt) by (vm_compute; discriminate).
  split; [auto|].
  exact (ComputeResult_bounds float_mean float_stddev format "tool" "decode"
           durations 7 H1 H2).
Defined.

Lemma filter_all (P : Z -> Prop) `{forall x, Decision (P x)} (l : list Z) :
  Forall P l -> filter P l = l.
Proof.
  induction 1 as [|x l Hx _ IH]; [reflexivity|].
  rewrite filter_cons_True by exact Hx. rewrite IH. reflexivity.
Qed.

(** X27: The median of [ComputeResult] is the upper one: of [n] durations, more
    than half (at least [n / 2 + 1]) are at most the median, and at least
    [n - n / 2] are at least the median. *)
Theorem ComputeResult_median_middle (float_mean float_stddev : list Z -> Z)
    (format : BenchFormat) (tool operation : string)
    (durations : list Z) (pcmSize : Z) :
  durations <> [] -> len durations <= GoInt.maxInt ->
  let n := length durations in
  exists r,
    ComputeResult float_mean float_stddev format tool operation durations
                  pcmSize = Ok r /\
    (n / 2 + 1 <= length (filter (fun d => (d <= Median r)%Z) durations))%nat /\
    (n - n / 2 <= length (filter (fun d => (Median r <= d)%Z) durations))%nat.
Proof.
  intros Hne Hmax n.
  destruct (ComputeResult_sorted float_mean float_stddev format tool
              operation durations pcmSize Hne Hmax)
    as [median [min [max [E [L1 _]]]]].
  set (sorted := merge_sort Z.le durations) in *. fold n in L1.
  assert (Hperm : sorted ≡ₚ durations) by apply merge_sort_Permutation.
  assert (Hss : StronglySorted Z.le sorted)
    by (apply StronglySorted_merge_sort; apply _).
  assert (Hlen : length sorted = n) by (apply Permutation_length, Hperm).
  pose proof (lookup_lt_Some _ _ _ L1) as Hk.
  eexists. split; [exact E|]. cbn [Median]. split.
  - rewrite <- (Permutation_length
                  (filter_Permutation (fun d => d <= median) _ _ Hperm)).
    rewrite <- (take_drop (n / 2 + 1) sorted), filter_app, length_app.
    rewrite filter_all.
    + rewrite length_take. lia.
    + apply Forall_forall. intros d Hd.
      apply elem_of_take in Hd as [i [Hi Hlt]].
      apply (sorted_lookup_le sorted Hss i (n / 2)); [lia|exact Hi|exact L1].
  - rewrite <- (Permutation_length
                  (filter_Permutation (fun d => median <= d) _ _ Hperm)).
    rewrite <- (take_drop (n / 2) sorted), filter_app, length_app.
    rewrite (filter_all _ (drop (n / 2) sorted)).
    + rewrite length_drop. lia.
    + apply Forall_forall. intros d Hd.
      apply list_elem_of_lookup_1 in Hd as [i Hi].
      rewrite lookup_drop in Hi.
      apply (sorted_lookup_le sorted Hss (n / 2) (n / 2 + i));
        [lia|exact L1|exact Hi].
Qed.

Lemma ComputeResult_median_middle_witness :
  let float_mean := fun _ : list Z => 0 in
  let float_stddev := fun _ : list Z => 0 in
  let format := mkBenchFormat "flac" 44100 16 2 in
  let durations := [30; 10; 20; 40] in
  (durations <> [] /\ len durations <= GoInt.maxInt) /\
  exists r,
    ComputeResult float_mean float_stddev format "tool" "decode" durations 7
    = Ok r /\
    (4 / 2 + 1 <= length (filter (fun d => (d <= Median r)%Z) durations))%nat /\
    (4 - 4 / 2 <= length (filter (fun d => (Median r <= d)%Z) durations))%nat.
Proof.
  intros float_mean float_stddev format durations.
  assert (H1 : durations <> []) by discriminate.
  assert (H2 : len durations <= GoInt.maxInt) by (vm_compute; discriminate).
  split; [auto|].
  exact (ComputeResult_median_middle float_mean float_stddev format
           "tool" "decode" durations 7 H1 H2).
Defined.

(** X28: The median, the minimum and the maximum of [ComputeResult] do not
    depend on the order of the durations. *)
Theorem ComputeResult_order_independent
    (float_mean float_stddev : list Z -> Z)
    (format : BenchFormat) (tool operation : string)
    (durations durations' : list Z) (pcmSize : Z) :
  durations <> [] -> len durations <= GoInt.maxInt ->
  Permutation durations durations' ->
  exists r r',
    ComputeResult float_mean float_stddev format tool operation durations
                  pcmSize = Ok r /\
    ComputeResult float_mean float_stddev format tool operation durations'
                  pcmSize = Ok r' /\
    Median r' = Median r /\ Min r' = Min r /\ Max r' = Max r.
Proof.
  intros Hne Hmax Hperm.
  assert (Hne' : durations' <> []).
  { intros ->. apply Permutation_nil_r in Hperm. contradiction. }
  assert (Hl : length durations' = length durations)
    by (symmetry; apply Permutation_length, Hperm).
  assert (Hmax' : len durations' <= GoInt.maxInt)
    by (unfold len in *; rewrite Hl; exact Hmax).
  destruct (ComputeResult_sorted float_mean float_stddev format tool
              operation durations pcmSize Hne Hmax)
    as [median [min [max [E [L1 [L2 L3]]]]]].
  destruct (ComputeResult_sorted float_mean float_stddev format tool
              operation durations' pcmSize Hne' Hmax')
    as [median' [min' [max' [E' [L1' [L2' L3']]]]]].
  assert (Hsame : merge_sort Z.le durations' = merge_sort Z.le durations).
  { apply (Sorted_unique Z.le).
    - apply Sorted_merge_sort. apply _.
    - apply Sorted_merge_sort. apply _.
    - rewrite !merge_sort_Permutation. symmetry. exact Hperm. }
  rewrite Hsame in L1', L2', L3'. rewrite Hl in L1', L3'.
  eexists. eexists. split; [exact E|]. split; [exact E'|].
  cbn [Median Min Max]. repeat split; congruence.
Qed.

Lemma ComputeResult_order_independent_witness :
  let float_mean := fun _ : list Z => 0 in
  let float_stddev := fun _ : list Z => 0 in
  let format := mkBenchFormat "flac" 44100 16 2 in
  let durations := [30; 10; 20] in
  let durations' := [10; 20; 30] in
  (durations <> [] /\ len durations <= GoInt.maxInt /\
   Permutation durations durations') /\
  exists r r',
    ComputeResult float_mean float_stddev format "tool" "decode" durations 7
    = Ok r /\
    ComputeResult float_mean float_stddev format "tool" "decode" durations' 7
    = Ok r' /\
    Median r' = Median r /\ Min r' = Min r /\ Max r' = Max r.
Proof.
  intros float_mean float_stddev format durations durations'.
  assert (H1 : durations <> []) by discriminate.
  assert (H2 : len durations <= GoInt.maxInt) by (vm_compute; discriminate).
  assert (H3 : Permutation durations durations').
  { subst durations durations'.
    apply (Permutation_cons_app [10; 20] [] 30). apply Permutation_refl. }
  split; [auto|].
  exact (ComputeResult_order_independent float_mean float_stddev format
           "tool" "decode" durations durations' 7 H1 H2 H3).
Defined.

(** ** Format labels *)

Lemma append_assoc (a c d : string) : (a +:+ c) +:+ d = a +:+ (c +:+ d).
Proof.
  induction a as [|x a IH]; [reflexivity|].
  change (String x ((a +:+ c) +:+ d) = String x (a +:+ (c +:+ d))).
  f_equal. exact IH.
Qed.

Lemma has_char_app (c : Ascii.ascii) (a d : string) :
  has_char c (a +:+ d) = has_char c a || has_char c d.
Proof.
  induction a as [|x a IH]; [reflexivity|].
  change (Ascii.eqb c x || has_char c (a +:+ d)
          = (Ascii.eqb c x || has_char c a) || has_char c d).
  rewrite IH, orb_assoc. reflexivity.
Qed.

Lemma has_underscore_pretty_N_go (x : N) :
  forall s, has_char "_"%char (pretty_N_go x s) = has_char "_"%char s.
Proof.
  induction (N.lt_wf_0 x) as [x _ IH]. intros s.
  destruct (N.eq_dec x 0%N) as [->|Hnz].
  - rewrite pretty_N_go_0. reflexivity.
  - rewrite pretty_N_go_step by lia.
    rewrite IH by (apply N.div_lt; lia).
    cbn [has_char].
    assert (Hc : Ascii.eqb "_"%char (pretty_N_char (x mod 10)%N) = false).
    { unfold pretty_N_char. repeat case_match; reflexivity. }
    rewrite Hc. reflexivity.
Qed.

Lemma has_underscore_pretty_Z (z : Z) : has_char "_"%char (pretty z) = false.
Proof.
  unfold pretty, pretty_Z. destruct z as [|p|p].
  - reflexivity.
  - unfold pretty, pretty_positive, pretty, pretty_N.
    destruct (decide (N.pos p = 0%N)); [reflexivity|].
    apply has_underscore_pretty_N_go.
  - rewrite has_char_app.
    unfold pretty, pretty_positive, pretty, pretty_N.
    destruct (decide (N.pos p = 0%N)); [reflexivity|].
    rewrite has_underscore_pretty_N_go. reflexivity.
Qed.

(** A string splits in one way at its last underscore. *)
Lemma split_last_field (a : string) :
  forall (c x y : string),
    a +:+ "_" +:+ x = c +:+ "_" +:+ y ->
    has_char "_"%char x = false -> has_char "_"%char y = false ->
    a = c /\ x = y.
Proof.
  assert (Hno : forall (c x y : string),
             has_char "_"%char x = false -> x <> c +:+ "_" +:+ y).
  { intros c x y Hx ->. rewrite has_char_app in Hx.
    change (has_char "_"%char ("_" +:+ y)) with (true || has_char "_"%char y) in Hx.
    rewrite orb_true_r in Hx. discriminate. }
  induction a as [|h a IH]; intros [|k c] x y E Hx Hy.
  - change (String "_" x = String "_" y) in E.
    inversion E. split; reflexivity.
  - change (String "_" x = String k (c +:+ "_" +:+ y)) in E.
    inversion E as [[Hh Hxe]]. exfalso. exact (Hno c x y Hx Hxe).
  - change (String h (a +:+ "_" +:+ x) = String "_" y) in E.
    inversion E as [[Hh Hye]]. exfalso. exact (Hno a y x Hy (eq_sym Hye)).
  - change (String h (a +:+ "_" +:+ x) = String k (c +:+ "_" +:+ y)) in E.
    inversion E as [[Hh Ht]].
    destruct (IH c x y Ht Hx Hy) as [-> ->]. split; reflexivity.
Qed.

(** X29: Two formats have the same label only if they are the same format,
    whatever underscores and digits the names contain. *)
Theorem formatLabel_injective (f g : BenchFormat) :
  formatLabel f = formatLabel g -> f = g.
Proof.
  destruct f as [n1 s1 b1 c1]. destruct g as [n2 s2 b2 c2].
  unfold formatLabel. cbn [Name SampleRate BitDepth Channels].
  intros E.
  assert (R : forall (n : string) (s b c : Z),
             n +:+ "_" +:+ pretty s +:+ "_" +:+ pretty b +:+ "_" +:+ pretty c
             = ((n +:+ "_" +:+ pretty s) +:+ "_" +:+ pretty b)
                 +:+ "_" +:+ pretty c).
  { intros n s b c. rewrite !append_assoc. reflexivity. }
  rewrite (R n1), (R n2) in E.
  apply split_last_field in E as [E Ec]; try apply has_underscore_pretty_Z.
  apply split_last_field in E as [E Eb]; try apply has_underscore_pretty_Z.
  apply split_last_field in E as [En Es]; try apply has_underscore_pretty_Z.
  apply (inj pretty) in Ec. apply (inj pretty) in Eb.
  apply (inj pretty) in Es. subst. reflexivity.
Qed.

Lemma formatLabel_injective_witness :
  let f := mkBenchFormat "flac_44100" 48000 24 2 in
  formatLabel f = formatLabel f /\ f = f.
Proof.
  intros f.
  assert (H : formatLabel f = formatLabel f) by reflexivity.
  split; [exact H|]. exact (formatLabel_injective f f H).
Defined.
